(** * Voice Live samples: browser frontend glue, verified against its specification

    This development embeds the pure and state-passing parts of the Voice Live
    avatar frontend ([app.js]: audio capture and playback, base64 transport,
    the MediaSource video relay, the connection life cycle) and of the
    VoiceRAG frontend ([App.tsx]: tool-call list updates) and proves the
    properties the specification states about them.

    Conventions.
    - A JavaScript string is the list of its UTF-16 code units ([list N]).
    - Browser built-ins the code calls ([btoa], [atob], [JSON.stringify],
      [JSON.parse], [String.prototype.trim], typed-array stores) are modelled
      from their standards (WHATWG HTML / Infra, ECMA-262) and run by [vm_compute].
    - Code that throws returns [None]; event handlers are state transformers
      that also return the effects they perform (messages sent, buffers appended). *)

From Stdlib Require Import ZArith NArith QArith Qround List String Ascii Lia Lqa ZifyNat Bool.
From Stdlib.Strings Require Byte.
From stdpp Require Import base list option gmap.
Import ListNotations.
Open Scope N_scope.

(* ===================================================================== *)
(** * JavaScript strings and the base64 built-ins *)
(* ===================================================================== *)

Module Js.

(** A JavaScript string: its sequence of UTF-16 code units. *)
Abbreviation jsstring := (list N).

(** A string literal of the source (ASCII text) as a JavaScript string. *)
Definition lit (s : string) : jsstring :=
  map N_of_ascii (list_ascii_of_string s).
Arguments lit s%_string.

(** [String.fromCharCode(n)]: the code unit [ToUint16(n)]. *)
Definition fromCharCode (n : N) : N := n mod 65536.

(** [s.charCodeAt(i)] for [i] in range is the [i]-th code unit; the loops of
    the source visit every index in order, which is a [map] over the list. *)
Definition charCodes (s : jsstring) : list N := s.

End Js.

Module Base64.
Import Js.

(** The base64 alphabet of RFC 4648, table 1: sextet value to character. *)
Definition alphabet_char (i : N) : N :=
  if i <? 26 then 65 + i
  else if i <? 52 then 71 + i
  else if i <? 62 then i - 4
  else if i =? 62 then 43 else 47.

(** Character to sextet value; [None] outside the alphabet. *)
Definition alphabet_index (c : N) : option N :=
  if (65 <=? c) && (c <=? 90) then Some (c - 65)
  else if (97 <=? c) && (c <=? 122) then Some (c - 71)
  else if (48 <=? c) && (c <=? 57) then Some (c + 4)
  else if c =? 43 then Some 62
  else if c =? 47 then Some 63
  else None.

(** The 6-bit groups of a byte sequence, the last group padded with zero bits. *)
Fixpoint sextets (bs : list N) : list N :=
  match bs with
  | [] => []
  | [a] => [a / 4; (a mod 4) * 16]
  | [a; b] => [a / 4; (a mod 4) * 16 + b / 16; (b mod 16) * 4]
  | a :: b :: c :: r =>
      a / 4 :: (a mod 4) * 16 + b / 16 :: (b mod 16) * 4 + c / 64 :: c mod 64
      :: sextets r
  end.

(** Number of [=] characters that complete the last group of four. *)
Definition padding (n : nat) : nat :=
  match (n mod 3)%nat with 1%nat => 2%nat | 2%nat => 1%nat | _ => 0%nat end.

Definition encode (bs : list N) : jsstring :=
  map alphabet_char (sextets bs) ++ replicate (padding (length bs)) 61.

(** [btoa(s)] (WHATWG HTML, forgiving-base64 encode): throws
    [InvalidCharacterError] when [s] has a code unit above U+00FF, otherwise
    encodes the code units as bytes. *)
Definition btoa (s : jsstring) : option jsstring :=
  if forallb (fun c => c <=? 255) s then Some (encode s) else None.

(** ASCII whitespace of the Infra standard: TAB, LF, FF, CR, SPACE. *)
Definition is_ascii_whitespace (c : N) : bool :=
  (c =? 9) || (c =? 10) || (c =? 12) || (c =? 13) || (c =? 32).

(** Removes one or two [=] at the end of the data. *)
Fixpoint strip_padding (l : jsstring) : jsstring :=
  match l with
  | [] => []
  | x :: r =>
      if (x =? 61) && match r with [] => true | [y] => y =? 61 | _ => false end
      then [] else x :: strip_padding r
  end.

(** Bytes of a sequence of sextets; the 4 or 2 bits left over by a final
    group of two or three sextets are discarded. *)
Fixpoint decode_sextets (vs : list N) : list N :=
  match vs with
  | v1 :: v2 :: v3 :: v4 :: r =>
      (v1 * 4 + v2 / 16) :: ((v2 mod 16) * 16 + v3 / 4) :: ((v3 mod 4) * 64 + v4)
      :: decode_sextets r
  | [v1; v2; v3] => [v1 * 4 + v2 / 16; (v2 mod 16) * 16 + v3 / 4]
  | [v1; v2] => [v1 * 4 + v2 / 16]
  | _ => []
  end.

(** [atob(s)] (Infra, forgiving-base64 decode): strip ASCII whitespace; when
    the length is a multiple of four drop one or two trailing [=]; fail on a
    length of 1 modulo 4 and on any character outside the alphabet. The
    result is a string of code units below 256. *)
Definition atob (s : jsstring) : option jsstring :=
  let d := List.filter (fun c => negb (is_ascii_whitespace c)) s in
  let d := if (length d mod 4 =? 0)%nat then strip_padding d else d in
  if (length d mod 4 =? 1)%nat then None
  else vs ← mapM alphabet_index d; Some (decode_sextets vs).

End Base64.

(* ===================================================================== *)
(** * [app.js], Utilities: [arrayBufferToBase64] and [base64ToArrayBuffer] *)
(* ===================================================================== *)

Module Util.
Import Js Base64.

(** Storing a number into a [Uint8Array] keeps it modulo 256. *)
Definition byte_of_N (n : N) : Byte.byte :=
  default Byte.x00 (Byte.of_N (n mod 256)).

(** [arrayBufferToBase64(buffer)]: the loop appends
    [String.fromCharCode(bytes[i])] to [binary] for [i = 0 .. byteLength-1],
    then [btoa(binary)]. *)
Definition arrayBufferToBase64 (buffer : list Byte.byte) : option jsstring :=
  let bytes := buffer in
  let binary :=
    fold_left (fun binary b => binary ++ [fromCharCode (Byte.to_N b)]) bytes [] in
  btoa binary.

(** [base64ToArrayBuffer(base64)]: [atob], then a [Uint8Array] of the same
    length filled with [binary.charCodeAt(i)]. *)
Definition base64ToArrayBuffer (base64 : jsstring) : option (list Byte.byte) :=
  binary ← atob base64;
  Some (map byte_of_N (charCodes binary)).

End Util.

(* ===================================================================== *)
(** * [JSON.stringify] of session descriptions and [JSON.parse] *)
(* ===================================================================== *)

Module Json.
Import Js.

(** ** [JSON.stringify]: quoting a string (ECMA-262, QuoteJSONString) *)

Definition is_high_surrogate (c : N) : bool := (55296 <=? c) && (c <=? 56319).
Definition is_low_surrogate (c : N) : bool := (56320 <=? c) && (c <=? 57343).

(** A lowercase hexadecimal digit. *)
Definition hex_digit (d : N) : N := if d <? 10 then 48 + d else 87 + d.

(** [\uXXXX] *)
Definition unicode_escape (c : N) : jsstring :=
  [92; 117; hex_digit (c / 4096); hex_digit ((c / 256) mod 16);
   hex_digit ((c / 16) mod 16); hex_digit (c mod 16)].

(** One code unit that is not a surrogate: the two-character escapes of
    table 75, [\u00XX] for the other control characters, itself otherwise. *)
Definition escape_char (c : N) : jsstring :=
  if c =? 8 then [92; 98]
  else if c =? 9 then [92; 116]
  else if c =? 10 then [92; 110]
  else if c =? 12 then [92; 102]
  else if c =? 13 then [92; 114]
  else if c =? 34 then [92; 34]
  else if c =? 92 then [92; 92]
  else if c <? 32 then unicode_escape c
  else [c].

(** The characters between the quotes: a surrogate pair stays as it is, a
    lone surrogate is escaped. *)
Fixpoint quote_chars (s : jsstring) : jsstring :=
  match s with
  | [] => []
  | c :: r =>
      if is_high_surrogate c then
        match r with
        | c2 :: r2 =>
            if is_low_surrogate c2 then c :: c2 :: quote_chars r2
            else unicode_escape c ++ quote_chars r
        | [] => unicode_escape c
        end
      else if is_low_surrogate c then unicode_escape c ++ quote_chars r
      else escape_char c ++ quote_chars r
  end.

Definition quote (s : jsstring) : jsstring := [34] ++ quote_chars s ++ [34].

(** ** Session descriptions *)

(** An [RTCSessionDescription]; its [toJSON()] is the object
    [{ type, sdp }]. *)
Record description : Type := Description {
  type : jsstring;
  sdp : jsstring;
}.

(** [JSON.stringify(d)]: [{"type":...,"sdp":...}] *)
Definition stringify (d : description) : jsstring :=
  [123] ++ quote (lit "type") ++ [58] ++ quote (type d) ++ [44]
        ++ quote (lit "sdp") ++ [58] ++ quote (sdp d) ++ [125].

(** ** [JSON.parse] (ECMA-262, 25.5.1; the grammar of ECMA-404) *)

(** A parsed value.  A number is kept as its literal (the Number is the one
    the literal denotes); an object is the list of its members in order of
    creation, each name once. *)
#[warnings="-register-all"]
Inductive value : Type :=
| JNull
| JBool (b : bool)
| JNumber (literal : jsstring)
| JString (s : jsstring)
| JArray (elements : list value)
| JObject (members : list (jsstring * value)).

(** [object[key] = v] while parsing: a repeated name keeps its place and
    takes the later value. *)
Fixpoint set_member (key : jsstring) (v : value) (members : list (jsstring * value))
  : list (jsstring * value) :=
  match members with
  | [] => [(key, v)]
  | (k, v') :: rest =>
      if bool_decide (k = key) then (k, v) :: rest
      else (k, v') :: set_member key v rest
  end.

(** The object with the properties of a description. *)
Definition to_object (d : description) : value :=
  JObject [(lit "type", JString (type d)); (lit "sdp", JString (sdp d))].

Definition is_json_whitespace (c : N) : bool :=
  (c =? 9) || (c =? 10) || (c =? 13) || (c =? 32).

Fixpoint skip_ws (s : jsstring) : jsstring :=
  match s with
  | c :: r => if is_json_whitespace c then skip_ws r else s
  | [] => []
  end.

(** Value of a hexadecimal digit, in either case. *)
Definition hex_value (c : N) : option N :=
  if (48 <=? c) && (c <=? 57) then Some (c - 48)
  else if (97 <=? c) && (c <=? 102) then Some (c - 87)
  else if (65 <=? c) && (c <=? 70) then Some (c - 55)
  else None.

(** The character of a two-character escape. *)
Definition unescape (e : N) : option N :=
  if e =? 34 then Some 34
  else if e =? 92 then Some 92
  else if e =? 47 then Some 47
  else if e =? 98 then Some 8
  else if e =? 102 then Some 12
  else if e =? 110 then Some 10
  else if e =? 114 then Some 13
  else if e =? 116 then Some 9
  else None.

(** The rest of a string after its opening quote: its value, and the text
    after the closing quote.  Control characters must be escaped. *)
Fixpoint parse_chars (s : jsstring) : option (jsstring * jsstring) :=
  match s with
  | [] => None
  | c :: r =>
      if c =? 34 then Some ([], r)
      else if c =? 92 then
        match r with
        | [] => None
        | e :: r1 =>
            if e =? 117 then
              match r1 with
              | h3 :: h2 :: h1 :: h0 :: r2 =>
                  match hex_value h3, hex_value h2, hex_value h1, hex_value h0,
                        parse_chars r2 with
                  | Some d3, Some d2, Some d1, Some d0, Some (v, rest) =>
                      Some (d3 * 4096 + d2 * 256 + d1 * 16 + d0 :: v, rest)
                  | _, _, _, _, _ => None
                  end
              | _ => None
              end
            else
              match unescape e, parse_chars r1 with
              | Some ch, Some (v, rest) => Some (ch :: v, rest)
              | _, _ => None
              end
        end
      else if c <? 32 then None
      else
        match parse_chars r with
        | Some (v, rest) => Some (c :: v, rest)
        | None => None
        end
  end.

(** A string: a quote, then [parse_chars]. *)
Definition parse_string (s : jsstring) : option (jsstring * jsstring) :=
  match s with
  | c :: r => if c =? 34 then parse_chars r else None
  | [] => None
  end.

(** [s] without the prefix [p], when it starts with it. *)
Fixpoint strip_prefix (p s : jsstring) : option jsstring :=
  match p, s with
  | [], _ => Some s
  | c :: p', d :: s' => if c =? d then strip_prefix p' s' else None
  | _ :: _, [] => None
  end.

Definition is_digit (c : N) : bool := (48 <=? c) && (c <=? 57).

(** The longest prefix of digits, and what follows it. *)
Fixpoint take_digits (s : jsstring) : jsstring * jsstring :=
  match s with
  | c :: r =>
      if is_digit c then let '(ds, rest) := take_digits r in (c :: ds, rest)
      else ([], s)
  | [] => ([], [])
  end.

(** The integer part of a number: [0], or a digit from 1 to 9 and digits. *)
Definition parse_int (s : jsstring) : option (jsstring * jsstring) :=
  match s with
  | c :: r =>
      if c =? 48 then Some ([48], r)
      else if is_digit c then let '(ds, rest) := take_digits r in Some (c :: ds, rest)
      else None
  | [] => None
  end.

(** An optional fraction: [.] and at least one digit. *)
Definition parse_frac (s : jsstring) : option (jsstring * jsstring) :=
  match s with
  | c :: r =>
      if c =? 46 then
        match take_digits r with
        | ([], _) => None
        | (ds, rest) => Some (46 :: ds, rest)
        end
      else Some ([], s)
  | [] => Some ([], [])
  end.

(** An optional exponent: [e] or [E], an optional sign, at least one digit. *)
Definition parse_exp (s : jsstring) : option (jsstring * jsstring) :=
  match s with
  | c :: r =>
      if (c =? 101) || (c =? 69) then
        let '(sign, r1) :=
          match r with
          | c' :: r' => if (c' =? 43) || (c' =? 45) then ([c'], r') else ([], r)
          | [] => ([], r)
          end in
        match take_digits r1 with
        | ([], _) => None
        | (ds, rest) => Some (c :: sign ++ ds, rest)
        end
      else Some ([], s)
  | [] => Some ([], [])
  end.

(** A number: its literal, and the text after it. *)
Definition parse_number (s : jsstring) : option (jsstring * jsstring) :=
  let '(sign, s0) :=
    match s with
    | c :: r => if c =? 45 then ([45], r) else ([], s)
    | [] => ([], s)
    end in
  '(int, s1) ← parse_int s0;
  '(frac, s2) ← parse_frac s1;
  '(exp, s3) ← parse_exp s2;
  Some (sign ++ int ++ frac ++ exp, s3).

(** A value, and the text after it; the members of an object and the
    elements of an array after the first one has been seen to start.
    A call never takes a longer text than its caller and at most every
    second call takes the same text, so that [fuel] above twice the length
    of the text is never used up. *)
Fixpoint parse_value (fuel : nat) (s : jsstring) : option (value * jsstring) :=
  match fuel with
  | O => None
  | S fuel =>
      match skip_ws s with
      | [] => None
      | c :: r =>
          if c =? 34 then
            match parse_chars r with
            | Some (str, rest) => Some (JString str, rest)
            | None => None
            end
          else if c =? 123 then
            match skip_ws r with
            | c' :: r' =>
                if c' =? 125 then Some (JObject [], r')
                else parse_members fuel [] (c' :: r')
            | [] => None
            end
          else if c =? 91 then
            match skip_ws r with
            | c' :: r' =>
                if c' =? 93 then Some (JArray [], r')
                else parse_elements fuel [] (c' :: r')
            | [] => None
            end
          else
            match strip_prefix (lit "true") (c :: r) with
            | Some rest => Some (JBool true, rest)
            | None =>
            match strip_prefix (lit "false") (c :: r) with
            | Some rest => Some (JBool false, rest)
            | None =>
            match strip_prefix (lit "null") (c :: r) with
            | Some rest => Some (JNull, rest)
            | None =>
            match parse_number (c :: r) with
            | Some (literal, rest) => Some (JNumber literal, rest)
            | None => None
            end end end end
      end
  end
with parse_members (fuel : nat) (acc : list (jsstring * value)) (s : jsstring)
  : option (value * jsstring) :=
  match fuel with
  | O => None
  | S fuel =>
      match parse_string s with
      | None => None
      | Some (key, s1) =>
          match skip_ws s1 with
          | c :: s2 =>
              if c =? 58 then
                match parse_value fuel s2 with
                | None => None
                | Some (v, s3) =>
                    let acc := set_member key v acc in
                    match skip_ws s3 with
                    | c' :: s4 =>
                        if c' =? 44 then parse_members fuel acc (skip_ws s4)
                        else if c' =? 125 then Some (JObject acc, s4)
                        else None
                    | [] => None
                    end
                end
              else None
          | [] => None
          end
      end
  end
with parse_elements (fuel : nat) (acc : list value) (s : jsstring)
  : option (value * jsstring) :=
  match fuel with
  | O => None
  | S fuel =>
      match parse_value fuel s with
      | None => None
      | Some (v, s1) =>
          let acc := acc ++ [v] in
          match skip_ws s1 with
          | c :: s2 =>
              if c =? 44 then parse_elements fuel acc s2
              else if c =? 93 then Some (JArray acc, s2)
              else None
          | [] => None
          end
      end
  end.

(** [JSON.parse(text)]: the value of the text; [SyntaxError] ([None]) on a
    text that is not one JSON value between optional white space. *)
Definition parse (text : jsstring) : option value :=
  match parse_value (S (2 * length text)) text with
  | Some (v, rest) => match skip_ws rest with [] => Some v | _ => None end
  | None => None
  end.

(** ** The SDP exchange of [setupWebRTC] and [handleAvatarSdpAnswer] *)

(** [btoa(JSON.stringify(peerConnection.localDescription))] *)
Definition encode_sdp (d : description) : option jsstring :=
  let sdpJson := stringify d in
  Base64.btoa sdpJson.

(** [JSON.parse(atob(serverSdpBase64))] *)
Definition decode_sdp (serverSdpBase64 : jsstring) : option value :=
  serverSdpJson ← Base64.atob serverSdpBase64;
  parse serverSdpJson.

(** Every code unit of a string is at most U+00FF. *)
Definition latin1 (s : jsstring) : Prop := Forall (fun c => c < 256) s.

End Json.

(* ===================================================================== *)
(** * JavaScript numbers and typed-array stores *)
(* ===================================================================== *)

Module Num.

(** A JavaScript Number: not-a-number, the two infinities, or a finite value
    given by the rational it denotes (both zeros denote [0]; no operation
    below distinguishes them). *)
Inductive number : Type :=
| NaN
| NegInf
| PosInf
| Fin (q : Q).

Definition Qltb (a b : Q) : bool := negb (Qle_bool b a).

(** [x < y]: false as soon as one side is NaN. *)
Definition lt (x y : number) : bool :=
  match x, y with
  | NaN, _ | _, NaN => false
  | _, NegInf => false
  | NegInf, _ => true
  | PosInf, _ => false
  | Fin _, PosInf => true
  | Fin a, Fin b => Qltb a b
  end.

(** [Math.min(x, y)] and [Math.max(x, y)]: NaN when an argument is NaN. *)
Definition math_min (x y : number) : number :=
  match x, y with
  | NaN, _ | _, NaN => NaN
  | _, _ => if lt y x then y else x
  end.

Definition math_max (x y : number) : number :=
  match x, y with
  | NaN, _ | _, NaN => NaN
  | _, _ => if lt x y then y else x
  end.

Definition sign (q : Q) : comparison := (Qnum q ?= 0)%Z.

(** [x * y]; an infinity times zero is NaN. *)
Definition mul (x y : number) : number :=
  match x, y with
  | NaN, _ | _, NaN => NaN
  | Fin a, Fin b => Fin (a * b)
  | Fin a, PosInf | PosInf, Fin a =>
      match sign a with Eq => NaN | Lt => NegInf | Gt => PosInf end
  | Fin a, NegInf | NegInf, Fin a =>
      match sign a with Eq => NaN | Lt => PosInf | Gt => NegInf end
  | PosInf, PosInf | NegInf, NegInf => PosInf
  | PosInf, NegInf | NegInf, PosInf => NegInf
  end.

(** Truncation toward zero of a finite value. *)
Definition trunc (q : Q) : Z := Z.quot (Qnum q) (Zpos (Qden q)).

(** The signed 16-bit integer congruent to [z] modulo 2^16. *)
Definition wrap16 (z : Z) : Z := ((z + 32768) mod 65536 - 32768)%Z.

(** [ToInt16(x)], the conversion of a store into an [Int16Array]: NaN and
    the infinities give 0, a finite value is truncated and wrapped. *)
Definition to_int16 (x : number) : Z :=
  match x with
  | Fin q => wrap16 (trunc q)
  | _ => 0%Z
  end.

(** The order of the extended reals on numbers; NaN is related to nothing. *)
Definition le (x y : number) : Prop :=
  match x, y with
  | NaN, _ | _, NaN => False
  | NegInf, _ => True
  | _, PosInf => True
  | Fin a, Fin b => (a <= b)%Q
  | _, _ => False
  end.

End Num.

(* ===================================================================== *)
(** * [app.js], Audio Capture: the [PCM16Processor] worklet *)
(* ===================================================================== *)

Module Pcm16.
Import Num.

(** Body of the inner loop of [process], for one sample [this.buffer[j]]:
    [const s = Math.max(-1, Math.min(1, this.buffer[j]));]
    [pcm16[j] = s < 0 ? s * 0x8000 : s * 0x7FFF;]
    The sample is a 32-bit float, so it has at most 24 significant bits and
    both products (by 2^15 and by 32767 < 2^15) are exact in the 53-bit
    arithmetic of JavaScript: no rounding takes place before the store. *)
Definition clamp (x : number) : number :=
  math_max (Fin (-1 # 1)) (math_min (Fin 1) x).

Definition scale (s : number) : number :=
  if lt s (Fin 0) then mul s (Fin (inject_Z 32768)) else mul s (Fin (inject_Z 32767)).

Definition convert (x : number) : Z :=
  let s := clamp x in
  to_int16 (scale s).

(** [process(inputs)] for one input block [data]: samples are copied into
    [this.buffer]; every time [bufferSize] samples are there, the whole buffer
    is converted and posted, and a fresh buffer is started.  The state is the
    filled prefix of [this.buffer] ([this.offset] is its length); the result
    is the new state and the list of posted [Int16Array]s. *)
Definition bufferSize : nat := 2400.

Fixpoint process (buffer : list number) (data : list number)
  : list number * list (list Z) :=
  match data with
  | [] => (buffer, [])
  | x :: data' =>
      let buffer' := buffer ++ [x] in
      if (bufferSize <=? length buffer')%nat then
        let pcm16 := map convert buffer' in
        let '(b, posted) := process [] data' in (b, pcm16 :: posted)
      else process buffer' data'
  end.

End Pcm16.

(* ===================================================================== *)
(** * [App.tsx]: the tool-call list of the VoiceRAG frontend *)
(* ===================================================================== *)

Module ToolCalls.
Import Js.

(** ['started' | 'executing' | 'completed' | 'error'] *)
Inductive status : Type := started | executing | completed | error.

Section Handlers.
(** Values of TypeScript type [any] (tool arguments and results). *)
Context {any : Type}.

(** An element of the [toolCalls] state array; optional fields are [None]
    when the property is absent. *)
Record tool_call : Type := ToolCall {
  id : jsstring;
  function_name : jsstring;
  call_status : status;
  arguments : option any;
  result : option any;
  call_error : option jsstring;
  execution_time : option Num.number;
  timestamp : Num.number;
}.

(** Object spreads of the handlers: [{ ...call, arguments: a }],
    [{ ...call, status: s }], [{ ...call, status: 'completed', result: r,
    execution_time: t }] and [{ ...call, status: 'error', error: e }]. *)
Definition with_arguments (a : any) (call : tool_call) : tool_call :=
  ToolCall (id call) (function_name call) (call_status call) (Some a)
           (result call) (call_error call) (execution_time call) (timestamp call).

Definition with_status (s : status) (call : tool_call) : tool_call :=
  ToolCall (id call) (function_name call) s (arguments call)
           (result call) (call_error call) (execution_time call) (timestamp call).

Definition with_completed (r : any) (t : Num.number) (call : tool_call) : tool_call :=
  ToolCall (id call) (function_name call) completed (arguments call)
           (Some r) (call_error call) (Some t) (timestamp call).

Definition with_error (e : jsstring) (call : tool_call) : tool_call :=
  ToolCall (id call) (function_name call) error (arguments call)
           (result call) (Some e) (execution_time call) (timestamp call).

(** The state updaters passed to [setToolCalls]; [prev] is the current list,
    the other parameters are the fields of the event the handler reads. *)
Definition onToolCallStarted (call_id function_name : jsstring)
    (timestamp : Num.number) (prev : list tool_call) : list tool_call :=
  prev ++ [ToolCall call_id function_name started None None None None timestamp].

Definition onToolCallArguments (call_id : jsstring) (args : any)
    (prev : list tool_call) : list tool_call :=
  map (fun call => if decide (id call = call_id)
                   then with_arguments args call else call) prev.

Definition onToolCallExecuting (call_id : jsstring)
    (prev : list tool_call) : list tool_call :=
  map (fun call => if decide (id call = call_id)
                   then with_status executing call else call) prev.

Definition onToolCallCompleted (call_id : jsstring) (res : any)
    (exec_time : Num.number) (prev : list tool_call) : list tool_call :=
  map (fun call => if decide (id call = call_id)
                   then with_completed res exec_time call else call) prev.

Definition onToolCallError (call_id : jsstring) (err : jsstring)
    (prev : list tool_call) : list tool_call :=
  map (fun call => if decide (id call = call_id)
                   then with_error err call else call) prev.

(** The shape shared by the four updating handlers:
    [prev.map(call => call.id === call_id ? u(call) : call)]. *)
Definition update_matching (call_id : jsstring) (u : tool_call -> tool_call)
    (prev : list tool_call) : list tool_call :=
  map (fun call => if decide (id call = call_id) then u call else call) prev.

(** Frame condition of a handler for [call_id] that turns [prev] into
    [next]: same length, same ids in the same order, entries with another id
    untouched, entries with that id replaced by their image under [u]. *)
Definition frame_of (call_id : jsstring) (u : tool_call -> tool_call)
    (prev next : list tool_call) : Prop :=
  length next = length prev /\
  map id next = map id prev /\
  (forall i call, prev !! i = Some call -> id call <> call_id -> next !! i = Some call) /\
  (forall i call, prev !! i = Some call -> id call = call_id -> next !! i = Some (u call)).

End Handlers.
Arguments tool_call : clear implicits.

End ToolCalls.

(* ===================================================================== *)
(** * [app.js], Audio Playback: [handleAudioDelta] *)
(* ===================================================================== *)

Module Playback.
Import Js Num Util.

(** Times of the audio clock.  The code compares times with [<] and adds a
    buffer duration with [+=]; both are double-precision operations.  The
    development is generic in the arithmetic and uses only what holds of it
    whatever the rounding: [<] decides a total preorder, and adding the
    duration of a buffer never yields an earlier time. *)
Class Clock (T : Type) : Type := {
  zero : T;
  ltb : T -> T -> bool;                 (* [a < b] *)
  add : T -> T -> T;                    (* [a + b] *)
  duration : nat -> T;                  (* [AudioBuffer.duration] of [n] frames at 24 kHz *)
  le : T -> T -> Prop;
  le_refl : forall a, le a a;
  le_trans : forall a b c, le a b -> le b c -> le a c;
  ltb_true : forall a b, ltb a b = true -> le a b;
  ltb_false : forall a b, ltb a b = false -> le b a;
  add_duration : forall t n, le t (add t (duration n));
}.

(** Exact rational arithmetic is one such clock. *)
#[global, refine] Instance Q_clock : Clock Q := {|
  zero := 0%Q;
  ltb := Qltb;
  add := Qplus;
  duration n := (Z.of_nat n # 24000)%Q;
  le := Qle;
|}.
Proof.
  - intros a. apply Qle_refl.
  - intros a b c. apply Qle_trans.
  - intros a b H. unfold Qltb in H. apply negb_true_iff in H.
    destruct (Qlt_le_dec a b) as [Hlt|Hle]; [apply Qlt_le_weak, Hlt|].
    apply Qle_bool_iff in Hle. congruence.
  - intros a b H. unfold Qltb in H. apply negb_false_iff in H.
    apply Qle_bool_iff, H.
  - intros t n. rewrite <- (Qplus_0_r t) at 1. apply Qplus_le_r.
    unfold Qle. simpl. lia.
Defined.

(** [new Int16Array(arrayBuffer)]: a view of the bytes as little-endian
    signed 16-bit integers; [RangeError] ([None]) when the byte length is odd. *)
Fixpoint int16_view (bytes : list Byte.byte) : option (list Z) :=
  match bytes with
  | [] => Some []
  | [_] => None
  | lo :: hi :: rest =>
      match int16_view rest with
      | Some l => Some (wrap16 (Z.of_N (Byte.to_N lo) + 256 * Z.of_N (Byte.to_N hi)) :: l)
      | None => None
      end
  end.

(** [float32[i] = int16[i] / 32768] (exact: a 16-bit integer over 2^15). *)
Definition to_float32 (int16 : list Z) : list Q :=
  map (fun v => (v # 32768)%Q) int16.

Section Handlers.
Context {T : Type} {clock : Clock T}.

(** [playbackContext] (null or an [AudioContext]) and [nextPlaybackTime]. *)
Record state : Type := State {
  playbackContext : bool;
  nextPlaybackTime : T;
}.

(** A call [source.start(when)] for a buffer holding [samples]. *)
Record scheduled : Type := Scheduled {
  when : T;
  samples : list Q;
}.

Definition buffer_duration (s : scheduled) : T := duration (length (samples s)).

(** The time [handleAudioDelta] starts a source at: the later of the current
    time and [nextPlaybackTime], which is [zero] for a fresh context. *)
Definition start_time (now : T) (st : state) : T :=
  let next := if playbackContext st then nextPlaybackTime st else zero in
  if ltb next now then now else next.

(** [handleAudioDelta(base64Data)], run while [playbackContext.currentTime]
    is [now]. Result: the new state and the source started, if any.  The
    function returns early on an empty string; an exception (invalid base64,
    odd byte length, [createBuffer] with zero frames) ends it after the
    context has been created and before anything is scheduled. *)
Definition handleAudioDelta (now : T) (base64Data : jsstring) (st : state)
  : state * option scheduled :=
  match base64Data with
  | [] => (st, None)
  | _ =>
      let st1 := if playbackContext st then st else State true zero in
      match base64ToArrayBuffer base64Data with
      | None => (st1, None)
      | Some arrayBuffer =>
          match int16_view arrayBuffer with
          | None => (st1, None)
          | Some int16 =>
              let float32 := to_float32 int16 in
              match float32 with
              | [] => (st1, None)
              | _ =>
                  let next := nextPlaybackTime st1 in
                  let next := if ltb next now then now else next in
                  let src := Scheduled next float32 in
                  (State true (add next (buffer_duration src)), Some src)
              end
          end
      end
  end.

(** [stopAudioPlayback()] *)
Definition stopAudioPlayback (st : state) : state := State false zero.

Definition init : state := State false zero.

(** The sources started by a sequence of [audio_data] messages, each
    processed at its own current time, in order of arrival. *)
Fixpoint run (st : state) (msgs : list (T * jsstring)) : state * list scheduled :=
  match msgs with
  | [] => (st, [])
  | (now, data) :: rest =>
      let '(st1, out) := handleAudioDelta now data st in
      let '(st2, outs) := run st1 rest in
      (st2, match out with Some s => s :: outs | None => outs end)
  end.



(** The buffer decoded from a message, when it decodes to at least one frame. *)
Definition decoded (base64Data : jsstring) : option (list Q) :=
  match base64Data with
  | [] => None
  | _ =>
      match base64ToArrayBuffer base64Data with
      | Some arrayBuffer =>
          match int16_view arrayBuffer with
          | Some (v :: l) => Some (to_float32 (v :: l))
          | _ => None
          end
      | None => None
      end
  end.

End Handlers.
Arguments state : clear implicits.
Arguments scheduled : clear implicits.

End Playback.

(* ===================================================================== *)
(** * [app.js], WebSocket Video Playback (MediaSource Extensions) *)
(* ===================================================================== *)

Module Video.
Import Js Base64 Util.

(** [MediaSource.readyState] *)
Inductive readyState : Type := closed | open | ended.

Definition is_open (r : readyState) : bool :=
  match r with open => true | _ => false end.

(** A queued chunk: the bytes of an [ArrayBuffer]. *)
Abbreviation chunk := (list Byte.byte).

(** The script variables [mediaSource], [sourceBuffer] (null, or a reference
    to an object, given by its index in the browser's tables below),
    [videoChunksQueue] and [videoChunkCount]; and the browser's side: the
    [readyState] of every [MediaSource] created so far and the [updating]
    flag of every [SourceBuffer] created so far. *)
Record state : Type := State {
  mediaSource : option nat;
  sourceBuffer : option nat;
  videoChunksQueue : list chunk;
  videoChunkCount : nat;
  sources : list readyState;
  buffers : list bool;
}.

Definition init : state := State None None [] 0 [] [].

(** [mediaSource.readyState] and [sourceBuffer.updating] of an object. *)
Definition ready_of (st : state) (m : nat) : readyState :=
  default closed (sources st !! m).

Definition updating_of (st : state) (b : nat) : bool :=
  default false (buffers st !! b).

(** A call [sourceBuffer.appendBuffer(next)] on buffer [b]. *)
Inductive effect : Type :=
| AppendBuffer (b : nat) (next : chunk).

(** [processVideoChunkQueue()].  [accepted] tells whether the browser takes
    the data (it then sets [updating] until it fires [updateend]) or
    [appendBuffer] throws, which the [catch] logs; the chunk has left the
    queue in both cases. *)
Definition processVideoChunkQueue (accepted : bool) (st : state)
  : state * list effect :=
  match sourceBuffer st, mediaSource st with
  | Some b, Some m =>
      if updating_of st b || negb (is_open (ready_of st m)) then (st, [])
      else
        match videoChunksQueue st with
        | [] => (st, [])
        | next :: queue =>
            (State (mediaSource st) (sourceBuffer st) queue (videoChunkCount st)
                   (sources st)
                   (if accepted then <[b := true]> (buffers st) else buffers st),
             [AppendBuffer b next])
        end
  | _, _ => (st, [])
  end.

(** The [ArrayBuffer] built by [handleVideoChunk] from [atob(base64Data)]. *)
Definition decode_chunk (base64Data : jsstring) : option chunk :=
  match base64Data with
  | [] => None
  | _ => binaryString ← atob base64Data; Some (map byte_of_N (charCodes binaryString))
  end.

(** [handleVideoChunk(base64Data)] *)
Definition handleVideoChunk (base64Data : jsstring) (accepted : bool) (st : state)
  : state * list effect :=
  match base64Data with
  | [] => (st, [])
  | _ =>
      let st := State (mediaSource st) (sourceBuffer st) (videoChunksQueue st)
                      (S (videoChunkCount st)) (sources st) (buffers st) in
      match atob base64Data with
      | None => (st, [])
      | Some binaryString =>
          let arrayBuffer := map byte_of_N (charCodes binaryString) in
          processVideoChunkQueue accepted
            (State (mediaSource st) (sourceBuffer st)
                   (videoChunksQueue st ++ [arrayBuffer])
                   (videoChunkCount st) (sources st) (buffers st))
      end
  end.

(** [cleanupWebSocketVideo()]; [mediaSource.endOfStream()] moves an open
    source to [ended]. *)
Definition cleanupWebSocketVideo (st : state) : state :=
  let srcs :=
    match sourceBuffer st, mediaSource st with
    | Some b, Some m =>
        if is_open (ready_of st m) && negb (updating_of st b)
        then <[m := ended]> (sources st) else sources st
    | _, _ => sources st
    end in
  State None None [] (videoChunkCount st) srcs (buffers st).

(** [setupWebSocketVideoPlayback(isPhotoAvatar)]; [supported] is the answer
    of [MediaSource.isTypeSupported].  The new [MediaSource] is [closed]. *)
Definition setupWebSocketVideoPlayback (supported : bool) (st : state) : state :=
  let st := cleanupWebSocketVideo st in
  if supported then
    State (Some (length (sources st))) (sourceBuffer st) (videoChunksQueue st)
          (videoChunkCount st) (sources st ++ [closed]) (buffers st)
  else st.

(** The [sourceopen] listener; [added] tells whether [addSourceBuffer]
    succeeds (it throws otherwise, and so does [mediaSource.readyState] when
    [mediaSource] is null; both are caught). *)
Definition on_sourceopen (added : bool) (st : state) : state :=
  match mediaSource st with
  | Some m =>
      if is_open (ready_of st m) && added then
        State (mediaSource st) (Some (length (buffers st))) (videoChunksQueue st)
              (videoChunkCount st) (sources st) (buffers st ++ [false])
      else st
  | None => st
  end.

(** What can happen to the video relay: calls from the session code, and
    the browser's events. *)
Inductive event : Type :=
| Setup (supported : bool)                         (* setupWebSocketVideoPlayback *)
| Cleanup                                          (* cleanupWebSocketVideo *)
| VideoData (base64Data : jsstring) (accepted : bool)   (* handleVideoChunk *)
| SourceOpen (m : nat) (added : bool)              (* source [m] opens: sourceopen *)
| SourceEnded (m : nat)                            (* source [m] ends *)
| SourceClosed (m : nat)                           (* source [m] is detached *)
| UpdateEnd (b : nat) (accepted : bool).           (* append on [b] ends: updateend *)

Definition with_sources (srcs : list readyState) (st : state) : state :=
  State (mediaSource st) (sourceBuffer st) (videoChunksQueue st)
        (videoChunkCount st) srcs (buffers st).

Definition with_buffers (bufs : list bool) (st : state) : state :=
  State (mediaSource st) (sourceBuffer st) (videoChunksQueue st)
        (videoChunkCount st) (sources st) bufs.

Definition step (st : state) (e : event) : state * list effect :=
  match e with
  | Setup supported => (setupWebSocketVideoPlayback supported st, [])
  | Cleanup => (cleanupWebSocketVideo st, [])
  | VideoData data accepted => handleVideoChunk data accepted st
  | SourceOpen m added =>
      (on_sourceopen added (with_sources (<[m := open]> (sources st)) st), [])
  | SourceEnded m => (with_sources (<[m := ended]> (sources st)) st, [])
  | SourceClosed m => (with_sources (<[m := closed]> (sources st)) st, [])
  | UpdateEnd b accepted =>
      processVideoChunkQueue accepted (with_buffers (<[b := false]> (buffers st)) st)
  end.

Fixpoint run (st : state) (evs : list event) : state * list effect :=
  match evs with
  | [] => (st, [])
  | e :: evs =>
      let '(st1, out) := step st e in
      let '(st2, outs) := run st1 evs in
      (st2, out ++ outs)
  end.

(** Chunks appended, in order of the calls. *)
Definition appended (effs : list effect) : list chunk :=
  map (fun e => match e with AppendBuffer _ c => c end) effs.

(** Chunks received (pushed onto the queue), in order of arrival. *)
Definition received (evs : list event) : list chunk :=
  omap (fun e => match e with VideoData data _ => decode_chunk data | _ => None end) evs.

(** No [updateend] of buffer [b] among the events. *)
Definition no_updateend (b : nat) (evs : list event) : Prop :=
  Forall (fun e => match e with UpdateEnd b' _ => b' <> b | _ => True end) evs.

End Video.

(* ===================================================================== *)
(** * [app.js]: connection, chat and microphone state *)
(* ===================================================================== *)

Module Session.
Import Js Num Util.

(** ** Strings *)

(** ECMAScript [WhiteSpace] and [LineTerminator] code units, as removed by
    [String.prototype.trim]. *)
Definition is_white_space (c : N) : bool :=
  (c =? 9) || (c =? 10) || (c =? 11) || (c =? 12) || (c =? 13) || (c =? 32)
  || (c =? 160) || (c =? 5760) || ((8192 <=? c) && (c <=? 8202))
  || (c =? 8232) || (c =? 8233) || (c =? 8239) || (c =? 8287)
  || (c =? 12288) || (c =? 65279).

Fixpoint trim_start (s : jsstring) : jsstring :=
  match s with
  | c :: r => if is_white_space c then trim_start r else s
  | [] => []
  end.

Definition trim (s : jsstring) : jsstring :=
  rev (trim_start (rev (trim_start s))).

Fixpoint starts_with (s p : jsstring) : bool :=
  match p, s with
  | [], _ => true
  | c :: p', d :: s' => (c =? d) && starts_with s' p'
  | _ :: _, [] => false
  end.

(** [s.includes(p)] *)
Fixpoint includes (s p : jsstring) : bool :=
  starts_with s p ||
  match s with
  | [] => false
  | _ :: r => includes r p
  end.

(** [!s] for a string: the empty string is the only falsy one. *)
Definition is_empty (s : jsstring) : bool :=
  match s with [] => true | _ => false end.

(** [a || b] on strings. *)
Definition or_else (a b : jsstring) : jsstring :=
  if is_empty a then b else a.

Definition eqb_string (a b : jsstring) : bool := bool_decide (a = b).

(** ** The page: form controls *)

(** [document.getElementById(id).value] and [.checked] of the controls of
    the settings panel.  Every control the script reads is part of the page,
    so optional chaining ([?.]) never short-circuits. *)
Record form : Type := Form {
  value : string -> jsstring;
  checked : string -> bool;
}.
Arguments value _ _%_string.
Arguments checked _ _%_string.

(** ** Objects sent as JSON *)

#[warnings="-register-all"]
Inductive jsvalue : Type :=
| VString (s : jsstring)
| VBool (b : bool)
| VNumber (n : number)
| VObject (props : list (string * jsvalue)).

Abbreviation object := (list (string * jsvalue)).

(** [o[k] = v]: replaces the property in place or adds it at the end. *)
Fixpoint set_prop (k : string) (v : jsvalue) (o : object) : object :=
  match o with
  | [] => [(k, v)]
  | (k', v') :: o' =>
      if String.eqb k k' then (k, v) :: o' else (k', v') :: set_prop k v o'
  end.

Fixpoint get_prop (k : string) (o : object) : option jsvalue :=
  match o with
  | [] => None
  | (k', v') :: o' => if String.eqb k k' then Some v' else get_prop k o'
  end.

Definition has_prop (k : string) (o : object) : bool :=
  match get_prop k o with Some _ => true | None => false end.

(** A property [k: v] of an object literal. *)
Definition prop (k : string) (v : jsvalue) : string * jsvalue := (k, v).
Arguments prop k%_string v.
Arguments set_prop k%_string v o.
Arguments get_prop k%_string o.
Arguments has_prop k%_string o.

Section Builtins.
(** [parseFloat], [parseInt] and the floating-point division [x / y]. *)
Variables (parseFloat parseInt : jsstring -> number).
Variable divide : number -> number -> number.
(** [MediaSource.isTypeSupported(FMP4_MIME_CODEC)], a constant of the browser. *)
Variable isTypeSupported : bool.

(** [gatherConfig()] *)
Definition gatherConfig (f : form) : object :=
  let mode := value f "mode" in
  let model := value f "model" in
  let voiceType := value f "voiceType" in
  let isPhotoAvatar := checked f "isPhotoAvatar" in
  let isCustomAvatar := checked f "isCustomAvatar" in
  let voiceSpeed := divide (parseFloat (value f "voiceSpeed")) (Fin (inject_Z 100)) in
  let config : object :=
    [ prop "mode" (VString mode);
      prop "model" (VString model);
      prop "voiceType" (VString voiceType);
      prop "voiceName" (VString (value f "voiceName"));
      prop "voiceSpeed" (VNumber voiceSpeed);
      prop "voiceTemperature" (VNumber (parseFloat (value f "voiceTemperature")));
      prop "voiceDeploymentId" (VString (value f "voiceDeploymentId"));
      prop "customVoiceName" (VString (value f "customVoiceName"));
      prop "personalVoiceName" (VString (value f "personalVoiceName"));
      prop "personalVoiceModel" (VString (value f "personalVoiceModel"));
      prop "avatarEnabled" (VBool (checked f "avatarEnabled"));
      prop "isPhotoAvatar" (VBool isPhotoAvatar);
      prop "isCustomAvatar" (VBool isCustomAvatar);
      prop "avatarName"
        (VString (if isCustomAvatar then value f "customAvatarName"
                  else if isPhotoAvatar then value f "photoAvatarName"
                  else value f "avatarName"));
      prop "avatarOutputMode" (VString (value f "avatarOutputMode"));
      prop "avatarBackgroundImageUrl" (VString (value f "avatarBackgroundImageUrl"));
      prop "useNS" (VBool (checked f "useNS"));
      prop "useEC" (VBool (checked f "useEC"));
      prop "turnDetectionType" (VString (value f "turnDetectionType"));
      prop "removeFillerWords" (VBool (checked f "removeFillerWords"));
      prop "srModel" (VString (value f "srModel"));
      prop "recognitionLanguage" (VString (value f "recognitionLanguage"));
      prop "eouDetectionType" (VString (value f "eouDetectionType"));
      prop "instructions" (VString (value f "instructions"));
      prop "temperature" (VNumber (parseFloat (value f "temperature")));
      prop "enableProactive" (VBool (checked f "enableProactive"));
      prop "agentId" (VString (value f "agentId"));
      prop "agentName" (VString (value f "agentName"));
      prop "agentProjectName" (VString (value f "agentProjectName")) ] in
  if isPhotoAvatar then
    set_prop "photoScene"
      (VObject
         [ prop "zoom" (VNumber (parseInt (value f "sceneZoom")));
           prop "positionX" (VNumber (parseInt (value f "scenePositionX")));
           prop "positionY" (VNumber (parseInt (value f "scenePositionY")));
           prop "rotationX" (VNumber (parseInt (value f "sceneRotationX")));
           prop "rotationY" (VNumber (parseInt (value f "sceneRotationY")));
           prop "rotationZ" (VNumber (parseInt (value f "sceneRotationZ")));
           prop "amplitude" (VNumber (parseInt (value f "sceneAmplitude"))) ])
      config
  else config.

(** ** Messages *)

(** Messages the page sends to the backend ([ws.send(JSON.stringify(..))]).
    The [avatar] object of [update_scene] is computed from the form alone
    and is represented by the form it is computed from. *)
Inductive client_msg : Type :=
| start_session (config : object)
| stop_session
| audio_chunk (data : jsstring)
| send_text (text : jsstring)
| update_scene (f : form)
| avatar_sdp_offer (clientSdp : jsstring).

(** Messages of the backend, after [JSON.parse], by their [type]. String
    fields that are absent are the empty string (both are falsy). *)
Inductive server_msg : Type :=
| session_started (sessionId : jsstring) (avatarEnabled : bool)
                  (avatarOutputMode : jsstring)
| session_error (error : jsstring)
| ice_servers
| avatar_sdp_answer (serverSdp : jsstring)
| audio_data (data : jsstring)
| transcript_done (role itemId transcript : jsstring)
| transcript_delta (role delta : jsstring)
| text_delta (delta : jsstring)
| text_done
| speech_started (itemId : jsstring)
| speech_stopped
| response_created
| response_done
| session_closed
| avatar_connecting
| video_data (delta : jsstring)
| unknown_type.

(** ** State *)

(** [WebSocket.readyState] *)
Inductive readyState : Type := CONNECTING | OPEN | CLOSING | CLOSED.

(** A [WebSocket] created by [connectSession]: its [readyState], and the
    constants its [onopen] closure captured. *)
Record socket : Type := Socket {
  ready : readyState;
  c_endpoint : jsstring;
  c_isAgent : bool;
  c_apiKey : jsstring;
  c_entraToken : jsstring;
}.

(** A child of [#messages]: role class, text content and [data-item-id]. *)
Record message : Type := Message {
  role : jsstring;
  text : jsstring;
  item_id : option jsstring;
}.

(** The script variables of the connection and chat code, the chat area,
    and the sockets created so far ([ws] is null or the index of one). *)
Record state : Type := State {
  ws : option nat;
  isConnected : bool;
  isConnecting : bool;
  isRecording : bool;
  audioChunksSent : nat;
  avatarEnabled : bool;
  avatarOutputMode : jsstring;
  isSpeaking : bool;
  lastSceneUpdate : Z;
  pendingAssistantText : jsstring;
  messages : list message;
  sockets : list socket;
}.

Definition init : state :=
  State None false false false 0 false (lit "webrtc") false 0%Z [] [] [].

Definition set_ws v st :=
  State v (isConnected st) (isConnecting st) (isRecording st) (audioChunksSent st)
    (avatarEnabled st) (avatarOutputMode st) (isSpeaking st) (lastSceneUpdate st)
    (pendingAssistantText st) (messages st) (sockets st).
Definition set_isConnected v st :=
  State (ws st) v (isConnecting st) (isRecording st) (audioChunksSent st)
    (avatarEnabled st) (avatarOutputMode st) (isSpeaking st) (lastSceneUpdate st)
    (pendingAssistantText st) (messages st) (sockets st).
Definition set_isConnecting v st :=
  State (ws st) (isConnected st) v (isRecording st) (audioChunksSent st)
    (avatarEnabled st) (avatarOutputMode st) (isSpeaking st) (lastSceneUpdate st)
    (pendingAssistantText st) (messages st) (sockets st).
Definition set_isRecording v st :=
  State (ws st) (isConnected st) (isConnecting st) v (audioChunksSent st)
    (avatarEnabled st) (avatarOutputMode st) (isSpeaking st) (lastSceneUpdate st)
    (pendingAssistantText st) (messages st) (sockets st).
Definition set_audioChunksSent v st :=
  State (ws st) (isConnected st) (isConnecting st) (isRecording st) v
    (avatarEnabled st) (avatarOutputMode st) (isSpeaking st) (lastSceneUpdate st)
    (pendingAssistantText st) (messages st) (sockets st).
Definition set_avatarEnabled v st :=
  State (ws st) (isConnected st) (isConnecting st) (isRecording st) (audioChunksSent st)
    v (avatarOutputMode st) (isSpeaking st) (lastSceneUpdate st)
    (pendingAssistantText st) (messages st) (sockets st).
Definition set_avatarOutputMode v st :=
  State (ws st) (isConnected st) (isConnecting st) (isRecording st) (audioChunksSent st)
    (avatarEnabled st) v (isSpeaking st) (lastSceneUpdate st)
    (pendingAssistantText st) (messages st) (sockets st).
Definition set_isSpeaking v st :=
  State (ws st) (isConnected st) (isConnecting st) (isRecording st) (audioChunksSent st)
    (avatarEnabled st) (avatarOutputMode st) v (lastSceneUpdate st)
    (pendingAssistantText st) (messages st) (sockets st).
Definition set_lastSceneUpdate v st :=
  State (ws st) (isConnected st) (isConnecting st) (isRecording st) (audioChunksSent st)
    (avatarEnabled st) (avatarOutputMode st) (isSpeaking st) v
    (pendingAssistantText st) (messages st) (sockets st).
Definition set_pendingAssistantText v st :=
  State (ws st) (isConnected st) (isConnecting st) (isRecording st) (audioChunksSent st)
    (avatarEnabled st) (avatarOutputMode st) (isSpeaking st) (lastSceneUpdate st)
    v (messages st) (sockets st).
Definition set_messages v st :=
  State (ws st) (isConnected st) (isConnecting st) (isRecording st) (audioChunksSent st)
    (avatarEnabled st) (avatarOutputMode st) (isSpeaking st) (lastSceneUpdate st)
    (pendingAssistantText st) v (sockets st).
Definition set_sockets v st :=
  State (ws st) (isConnected st) (isConnecting st) (isRecording st) (audioChunksSent st)
    (avatarEnabled st) (avatarOutputMode st) (isSpeaking st) (lastSceneUpdate st)
    (pendingAssistantText st) (messages st) v.

(** [readyState] of socket [k]. *)
Definition ready_of (st : state) (k : nat) : readyState :=
  match sockets st !! k with Some s => ready s | None => CLOSED end.

Definition set_ready (k : nat) (r : readyState) (st : state) : state :=
  match sockets st !! k with
  | Some s =>
      set_sockets (<[k := Socket r (c_endpoint s) (c_isAgent s) (c_apiKey s)
                                   (c_entraToken s)]> (sockets st)) st
  | None => st
  end.

(** ** Effects *)

(** Functions of the other sections of the script that the connection code
    calls; they act on variables of their own ([audioContext],
    [playbackContext], [peerConnection], [mediaSource], ...). *)
Inductive call : Type :=
| startAudioCapture
| stopAudioCapture
| stopAudioPlayback
| cleanupWebRTC
| cleanupWebSocketVideo
| setupWebSocketVideoPlayback
| setupWebRTC
| handleAvatarSdpAnswer (serverSdp : jsstring)
| handleAudioDelta (data : jsstring)
| handleVideoChunk (delta : jsstring).

Inductive effect : Type :=
| NewWebSocket (k : nat)                 (* [new WebSocket(url)], socket [k] *)
| Send (k : nat) (m : client_msg)        (* data handed to open socket [k] *)
| CloseSocket (k : nat)                  (* [ws.close()] *)
| Call (c : call).

(** [ws.send(data)] on the current value of [ws]: a [TypeError] when [ws]
    is null and an [InvalidStateError] while the socket is connecting; the
    data is transmitted when it is open, and silently discarded when it is
    closing or closed. *)
Inductive send_outcome : Type := Sent (k : nat) | Discarded | Throws.

Definition ws_send (st : state) : send_outcome :=
  match ws st with
  | None => Throws
  | Some k =>
      match ready_of st k with
      | OPEN => Sent k
      | CONNECTING => Throws
      | CLOSING | CLOSED => Discarded
      end
  end.

(** [ws && ws.readyState === WebSocket.OPEN] *)
Definition ws_open (st : state) : bool :=
  match ws st with
  | Some k => match ready_of st k with OPEN => true | _ => false end
  | None => false
  end.

(** ** Chat *)

(** [addMessage(role, text)] ([isDev] is false at every call site). *)
Definition addMessage (r t : jsstring) (st : state) : state :=
  set_messages (messages st ++ [Message r t None]) st.

(** [clearChat()] *)
Definition clearChat (st : state) : state := set_messages [] st.

(** Sets the text of the last message that satisfies [p], if there is one:
    [nodes[nodes.length - 1].textContent = t]. *)
Fixpoint set_last (p : message -> bool) (t : jsstring) (l : list message)
  : option (list message) :=
  match l with
  | [] => None
  | m :: l' =>
      match set_last p t l' with
      | Some l'' => Some (m :: l'')
      | None => if p m then Some (Message (role m) t (item_id m) :: l') else None
      end
  end.

(** Sets the text of the first message that satisfies [p], if there is one. *)
Fixpoint set_first (p : message -> bool) (t : jsstring) (l : list message)
  : option (list message) :=
  match l with
  | [] => None
  | m :: l' =>
      if p m then Some (Message (role m) t (item_id m) :: l')
      else match set_first p t l' with
           | Some l'' => Some (m :: l'')
           | None => None
           end
  end.

Definition is_role (r : string) (m : message) : bool := eqb_string (role m) (lit r).
Arguments is_role r%_string m.

(** [onAssistantDelta(text)] *)
Definition onAssistantDelta (t : jsstring) (st : state) : state :=
  let st := set_pendingAssistantText (pendingAssistantText st ++ t) st in
  match set_last (is_role "assistant") (pendingAssistantText st) (messages st) with
  | Some l => set_messages l st
  | None => addMessage (lit "assistant") (pendingAssistantText st) st
  end.

(** ** Connection *)

(** [setConnecting(connecting)] *)
Definition setConnecting (connecting : bool) (st : state) : state :=
  set_isConnecting connecting st.

(** [ws.close()]: a connecting or open socket starts closing. *)
Definition close_socket (k : nat) (st : state) : state :=
  match ready_of st k with
  | CONNECTING | OPEN => set_ready k CLOSING st
  | CLOSING | CLOSED => st
  end.

(** [handleDisconnect()] *)
Definition handleDisconnect (st : state) : state * list effect :=
  let st := set_isConnected false st in
  let st := set_isConnecting false st in
  let st := set_isRecording false st in
  let st := set_audioChunksSent 0 st in
  let st := set_avatarEnabled false st in
  let calls := [Call stopAudioCapture; Call stopAudioPlayback;
                Call cleanupWebRTC; Call cleanupWebSocketVideo] in
  match ws st with
  | Some k => (set_ws None (close_socket k st), calls ++ [CloseSocket k])
  | None => (st, calls)
  end.

Definition is_agent_mode (mode : jsstring) : bool :=
  eqb_string mode (lit "agent") || eqb_string mode (lit "agent-v2").

(** [connectSession()].  The URL given to [new WebSocket] is built from
    [location], so the constructor does not throw and the [catch] is not
    reached; the new socket is connecting. *)
Definition connectSession (f : form) (st : state) : state * list effect :=
  let endpoint := trim (value f "endpoint") in
  let mode := value f "mode" in
  let isAgent := is_agent_mode mode in
  if is_empty endpoint then
    (addMessage (lit "system") (lit "Please enter Azure AI Services Endpoint") st, [])
  else
    let apiKey := trim (value f "apiKey") in
    let entraToken := trim (value f "entraToken") in
    if negb isAgent && is_empty apiKey then
      (addMessage (lit "system") (lit "Please enter Subscription Key") st, [])
    else if isAgent && is_empty entraToken then
      (addMessage (lit "system") (lit "Please enter Entra ID Token") st, [])
    else
      let st := setConnecting true st in
      let st := addMessage (lit "system")
        (lit "Session started, click on the mic button to start conversation! debug id: connecting...")
        st in
      let k := length (sockets st) in
      let st := set_sockets (sockets st ++ [Socket CONNECTING endpoint isAgent apiKey entraToken]) st in
      (set_ws (Some k) st, [NewWebSocket k]).

(** [disconnect()] *)
Definition disconnect (st : state) : state * list effect :=
  let sent :=
    if ws_open st then
      match ws_send st with Sent k => [Send k stop_session] | _ => [] end
    else [] in
  let '(st, effs) := handleDisconnect st in
  (st, sent ++ effs).

(** [toggleConnection()] *)
Definition toggleConnection (f : form) (st : state) : state * list effect :=
  if isConnecting st then (st, [])
  else if isConnected st then disconnect st
  else connectSession f st.

(** The [config] object [ws.onopen] builds: [gatherConfig()], then
    [config.endpoint = endpoint] and one of [config.entraToken = entraToken]
    and [config.apiKey = apiKey], for the constants captured in socket [s]. *)
Definition onopen_config (s : socket) (f : form) : object :=
  let config := gatherConfig f in
  let config := set_prop "endpoint" (VString (c_endpoint s)) config in
  if c_isAgent s then set_prop "entraToken" (VString (c_entraToken s)) config
  else set_prop "apiKey" (VString (c_apiKey s)) config.

(** [ws.onopen] of socket [k]; [f] is the form at the time of the event. The
    handler sends on the variable [ws], whatever socket it holds then. *)
Definition ws_onopen (k : nat) (f : form) (st : state) : state * list effect :=
  match sockets st !! k with
  | None => (st, [])
  | Some s =>
      let config := onopen_config s f in
      match ws_send st with
      | Sent j => (st, [Send j (start_session config)])
      | Discarded | Throws => (st, [])
      end
  end.

(** [ws.onerror] *)
Definition ws_onerror (st : state) : state * list effect :=
  (setConnecting false (addMessage (lit "system") (lit "WebSocket error") st), []).

(** [ws.onclose] *)
Definition ws_onclose (st : state) : state * list effect :=
  let st := if isConnected st
            then addMessage (lit "system") (lit "Disconnected") st else st in
  handleDisconnect st.

(** [onSessionStarted(msg)] *)
Definition onSessionStarted (sessionId : jsstring) (cfgAvatarEnabled : bool)
    (cfgAvatarOutputMode : jsstring) (st : state) : state * list effect :=
  let st := set_isConnected true st in
  let st := set_isConnecting false st in
  let st :=
    match set_first
            (fun m => is_role "system" m
                      && includes (text m) (lit "debug id: connecting..."))
            (lit "Session started, click on the mic button to start conversation! debug id: "
             ++ or_else sessionId (lit "unknown"))
            (messages st) with
    | Some l => set_messages l st
    | None => st
    end in
  let st := set_avatarEnabled cfgAvatarEnabled st in
  let st := set_avatarOutputMode (or_else cfgAvatarOutputMode (lit "webrtc")) st in
  let websocketVideo :=
    avatarEnabled st && eqb_string (avatarOutputMode st) (lit "websocket") in
  (* [setupWebSocketVideoPlayback] reports a missing codec in the chat *)
  let st :=
    if websocketVideo && negb isTypeSupported
    then addMessage (lit "system")
           (lit "WebSocket video playback not supported in this browser. Please use WebRTC mode.")
           st
    else st in
  let video := if websocketVideo then [Call setupWebSocketVideoPlayback] else [] in
  let st := set_isRecording false st in
  (st, video ++ [Call startAudioCapture]).

(** [onSpeechStarted(itemId)] *)
Definition onSpeechStarted (itemId : jsstring) (st : state) : state * list effect :=
  let st := set_isSpeaking true st in
  let st :=
    if is_empty itemId then st
    else set_messages (messages st ++ [Message (lit "user") (lit "...") (Some itemId)]) st in
  (st, [Call stopAudioPlayback]).

(** [handleServerMessage(msg)] *)
Definition handleServerMessage (msg : server_msg) (st : state) : state * list effect :=
  match msg with
  | session_started sessionId cfgAvatarEnabled cfgAvatarOutputMode =>
      onSessionStarted sessionId cfgAvatarEnabled cfgAvatarOutputMode st
  | session_error error =>
      (setConnecting false
         (addMessage (lit "system")
            (lit "Error: " ++ or_else error (lit "Unknown error")) st), [])
  | ice_servers =>
      if eqb_string (avatarOutputMode st) (lit "webrtc")
      then (st, [Call setupWebRTC]) else (st, [])
  | avatar_sdp_answer serverSdp => (st, [Call (handleAvatarSdpAnswer serverSdp)])
  | audio_data data => (st, [Call (handleAudioDelta data)])
  | transcript_done r itemId transcript =>
      if eqb_string r (lit "user") then
        let placeholder :=
          if is_empty itemId then None
          else set_first (fun m => is_role "user" m
                                   && bool_decide (item_id m = Some itemId))
                         transcript (messages st) in
        match placeholder with
        | Some l => (set_messages l st, [])
        | None => (addMessage (lit "user") transcript st, [])
        end
      else if eqb_string r (lit "assistant") then
        if is_empty transcript then (st, [])
        else
          let st := match set_last (is_role "assistant") transcript (messages st) with
                    | Some l => set_messages l st
                    | None => st
                    end in
          (set_pendingAssistantText [] st, [])
      else (st, [])
  | transcript_delta r delta =>
      if eqb_string r (lit "assistant") then (onAssistantDelta delta st, [])
      else (st, [])
  | text_delta delta => (onAssistantDelta delta st, [])
  | text_done => (st, [])
  | speech_started itemId => onSpeechStarted itemId st
  | speech_stopped => (set_isSpeaking false (set_pendingAssistantText [] st), [])
  | response_created =>
      (set_isSpeaking true
         (addMessage (lit "assistant") [] (set_pendingAssistantText [] st)), [])
  | response_done => (set_isSpeaking false st, [])
  | session_closed =>
      handleDisconnect (addMessage (lit "system") (lit "Session closed") st)
  | avatar_connecting =>
      (addMessage (lit "system") (lit "Avatar connecting...") st, [])
  | video_data delta => (st, [Call (handleVideoChunk delta)])
  | unknown_type => (st, [])
  end.

(** ** Microphone, text and scene *)

(** [workletNode.port.onmessage], for a posted PCM16 buffer [data]. *)
Definition worklet_onmessage (data : list Byte.byte) (st : state)
  : state * list effect :=
  if negb (isConnected st) || negb (isRecording st) || negb (ws_open st)
  then (st, [])
  else
    match arrayBufferToBase64 data with
    | None => (st, [])
    | Some base64 =>
        let st := set_audioChunksSent (S (audioChunksSent st)) st in
        match ws_send st with
        | Sent k => (st, [Send k (audio_chunk base64)])
        | Discarded | Throws => (st, [])
        end
    end.

(** [toggleMicrophone()] *)
Definition toggleMicrophone (st : state) : state :=
  if negb (isConnected st) then st
  else set_isRecording (negb (isRecording st)) st.

(** [sendTextMessage()], [input] being the content of the text box. *)
Definition sendTextMessage (input : jsstring) (st : state) : state * list effect :=
  let t := trim input in
  if is_empty t || negb (isConnected st)
     || match ws st with None => true | Some _ => false end
  then (st, [])
  else
    let st := addMessage (lit "user") t st in
    match ws_send st with
    | Sent k => (st, [Send k (send_text t)])
    | Discarded | Throws => (st, [])
    end.

(** [updateAvatarScene()] *)
Definition updateAvatarScene (f : form) (st : state) : state * list effect :=
  if negb (isConnected st) || negb (ws_open st) then (st, [])
  else if negb (checked f "isPhotoAvatar") then (st, [])
  else if negb (checked f "avatarEnabled") then (st, [])
  else
    match ws_send st with
    | Sent k => (st, [Send k (update_scene f)])
    | Discarded | Throws => (st, [])
    end.

Definition SCENE_THROTTLE_MS : Z := 50.

(** [throttledUpdateAvatarScene()], [now] being [Date.now()]. *)
Definition throttledUpdateAvatarScene (now : Z) (f : form) (st : state)
  : state * list effect :=
  if (now - lastSceneUpdate st <? SCENE_THROTTLE_MS)%Z then (st, [])
  else updateAvatarScene f (set_lastSceneUpdate now st).

(** End of the promise chain of [setupWebRTC]: the last [then] encodes
    [peerConnection.localDescription] and sends the offer; an exception of
    [btoa] or of [ws.send], like a rejection earlier in the chain, reaches the
    [catch]. *)
Definition offer_catch (st : state) : state * list effect :=
  (addMessage (lit "system") (lit "WebRTC setup failed") st, []).

Definition offer_then (localDescription : Json.description) (st : state)
  : state * list effect :=
  match Json.encode_sdp localDescription with
  | None => offer_catch st
  | Some sdpBase64 =>
      match ws_send st with
      | Sent k => (st, [Send k (avatar_sdp_offer sdpBase64)])
      | Discarded => (st, [])
      | Throws => offer_catch st
      end
  end.

(** The [catch] of [startAudioCapture]. *)
Definition capture_catch (st : state) : state * list effect :=
  (addMessage (lit "system") (lit "Microphone access denied or not available") st, []).

(** ** Events *)

(** User actions, and events of the browser. *)
Inductive event : Type :=
| ClickConnect (f : form)                      (* connect button: toggleConnection *)
| ClickMic                                     (* microphone button: toggleMicrophone *)
| SubmitText (input : jsstring)                (* sendTextMessage *)
| SliderInput (now : Z) (f : form)             (* scene slider: throttledUpdateAvatarScene *)
| WsOpen (k : nat) (f : form)                  (* socket [k] opens *)
| WsMessage (k : nat) (msg : server_msg)       (* socket [k] receives a message *)
| WsFail (k : nat)                             (* socket [k] fails: error, then close *)
| WsClosed (k : nat)                           (* socket [k] closes *)
| WorkletMessage (data : list Byte.byte)       (* the worklet posts a buffer *)
| CaptureFailed                                (* startAudioCapture rejects *)
| OfferResolved (d : Json.description)         (* the offer of setupWebRTC is ready *)
| OfferRejected                                (* setupWebRTC's chain rejects *)
| ClickClearChat.                              (* clearChat *)


(** One event.  [None] when the browser cannot fire it: a socket opens only
    while connecting, delivers messages only while open, and fails or closes
    only if it is not closed yet. *)
Definition step (st : state) (e : event) : option (state * list effect) :=
  match e with
  | ClickConnect f => Some (toggleConnection f st)
  | ClickMic => Some (toggleMicrophone st, [])
  | SubmitText input => Some (sendTextMessage input st)
  | SliderInput now f => Some (throttledUpdateAvatarScene now f st)
  | WsOpen k f =>
      match sockets st !! k with
      | Some s =>
          match ready s with
          | CONNECTING => Some (ws_onopen k f (set_ready k OPEN st))
          | _ => None
          end
      | None => None
      end
  | WsMessage k msg =>
      match sockets st !! k with
      | Some s =>
          match ready s with
          | OPEN => Some (handleServerMessage msg st)
          | _ => None
          end
      | None => None
      end
  | WsFail k =>
      match sockets st !! k with
      | Some s =>
          match ready s with
          | CLOSED => None
          | _ =>
              let '(st1, effs1) := ws_onerror (set_ready k CLOSED st) in
              let '(st2, effs2) := ws_onclose st1 in
              Some (st2, effs1 ++ effs2)
          end
      | None => None
      end
  | WsClosed k =>
      match sockets st !! k with
      | Some s =>
          match ready s with
          | CLOSED => None
          | _ => Some (ws_onclose (set_ready k CLOSED st))
          end
      | None => None
      end
  | WorkletMessage data => Some (worklet_onmessage data st)
  | CaptureFailed => Some (capture_catch st)
  | OfferResolved d => Some (offer_then d st)
  | OfferRejected => Some (offer_catch st)
  | ClickClearChat => Some (clearChat st, [])
  end.

(** A sequence of events from a state: final state and all effects, in order. *)
Fixpoint run (st : state) (evs : list event) : option (state * list effect) :=
  match evs with
  | [] => Some (st, [])
  | e :: evs =>
      match step st e with
      | Some (st1, out) =>
          match run st1 evs with
          | Some (st2, outs) => Some (st2, out ++ outs)
          | None => None
          end
      | None => None
      end
  end.

End Builtins.

End Session.

(* ===================================================================== *)
(** * Properties of the connection code *)
(* ===================================================================== *)

Module SessionSpec.
Import Js Session.

(** The messages handed to socket [k], in order. *)
Definition sent_on (k : nat) (effs : list effect) : list client_msg :=
  omap (fun e => match e with
                 | Send j m => if (j =? k)%nat then Some m else None
                 | _ => None
                 end) effs.

Definition is_audio_chunk (e : effect) : bool :=
  match e with Send _ (audio_chunk _) => true | _ => false end.

Definition is_start_session (e : effect) : bool :=
  match e with Send _ (start_session _) => true | _ => false end.


(** The constants a socket captured passed the validation of
    [connectSession]: an endpoint, and the credential of its mode. *)
Definition valid_closure (s : socket) : Prop :=
  c_endpoint s <> [] /\
  (if c_isAgent s then c_entraToken s <> [] else c_apiKey s <> []).

Definition same_closure (s s' : socket) : Prop :=
  c_endpoint s' = c_endpoint s /\ c_isAgent s' = c_isAgent s /\
  c_apiKey s' = c_apiKey s /\ c_entraToken s' = c_entraToken s.

(** Sockets that only move towards [CLOSED], one by one. *)
Definition winding_down (old new : list socket) : Prop :=
  Forall2 (fun s s' => same_closure s s' /\
             (ready s' = ready s \/ ready s' = CLOSING \/ ready s' = CLOSED))
          old new.

(** A [start_session] configuration: it has a non-empty [endpoint] and
    exactly one of the two credentials, non-empty. *)
Definition has_string (k : string) (o : object) : Prop :=
  exists v, get_prop k o = Some (VString v) /\ v <> [].
Arguments has_string k%_string o.

Definition good_config (cfg : object) : Prop :=
  has_string "endpoint" cfg /\
  ((has_string "entraToken" cfg /\ has_prop "apiKey" cfg = false) \/
   (has_string "apiKey" cfg /\ has_prop "entraToken" cfg = false)).

(** The credential of a configuration is the one of the mode. *)
Definition credential_of_mode (isAgent : bool) (cfg : object) : Prop :=
  if isAgent
  then has_string "entraToken" cfg /\ has_prop "apiKey" cfg = false
  else has_string "apiKey" cfg /\ has_prop "entraToken" cfg = false.

(** Socket [s] holds the constants [connectSession] captures from form [f],
    and they passed its validation. *)
Definition made_by (f : form) (s : socket) : Prop :=
  c_endpoint s = trim (value f "endpoint") /\
  c_isAgent s = is_agent_mode (value f "mode") /\
  c_apiKey s = trim (value f "apiKey") /\
  c_entraToken s = trim (value f "entraToken") /\
  valid_closure s.

(** Number of sockets still connecting. *)
Definition connecting (st : state) : nat :=
  length (List.filter (fun s => match ready s with CONNECTING => true | _ => false end)
                      (sockets st)).

Definition count_effects (p : effect -> bool) (effs : list effect) : nat :=
  length (List.filter p effs).


(** No click on the microphone button among the events. *)
Definition no_mic_click (evs : list event) : Prop :=
  Forall (fun e => match e with ClickMic => False | _ => True end) evs.

(** An effect that neither sends nor opens a socket. *)
Definition is_quiet (x : effect) : Prop :=
  match x with Call _ | CloseSocket _ => True | _ => False end.

(** What a handler that neither sends nor connects does to the state: its
    effects are calls and closes, sockets wind down, [ws] is kept or cleared
    and the microphone is not turned on. *)
Definition quietly (st st' : state) (effs : list effect) : Prop :=
  Forall is_quiet effs /\
  winding_down (sockets st) (sockets st') /\
  (ws st' = ws st \/ ws st' = None) /\
  (isRecording st' = true -> isRecording st = true).

(** Messages other than [start_session]; an [audio_chunk] needs the session
    connected, the microphone on, and comes from the worklet's handler. *)
Definition plain_msg (st : state) (e : event) (m : client_msg) : Prop :=
  match m with
  | start_session _ => False
  | audio_chunk _ =>
      isConnected st = true /\ isRecording st = true /\
      exists pcm, e = WorkletMessage pcm
  | _ => True
  end.

Section Shapes.
Variables (parseFloat parseInt : jsstring -> Num.number).
Variable divide : Num.number -> Num.number -> Num.number.

(** Nothing was sent on a socket, or the first message is the
    [start_session] its own [onopen] builds. *)
Definition starts_with_session (s : option socket) (msgs : list client_msg) : Prop :=
  match msgs with
  | [] => True
  | m :: _ =>
      exists s0 f, s = Some s0 /\
        m = start_session (onopen_config parseFloat parseInt divide s0 f)
  end.

(** The invariant of a history: events [evs] led to state [st] with effects
    [effs].  Every socket was made by a click on Connect of the history;
    whatever was sent on a socket began with the [start_session] of its own
    [onopen]; and the socket [ws] holds, once open, has been sent something. *)
Definition history_ok (evs : list event) (st : state) (effs : list effect) : Prop :=
  (forall k s, sockets st !! k = Some s ->
     exists f, In (ClickConnect f) evs /\ made_by f s) /\
  (forall k, starts_with_session (sockets st !! k) (sent_on k effs)) /\
  (forall k, ws st = Some k -> ready_of st k = OPEN -> sent_on k effs <> []).

(** The three shapes a step of the page can have. *)
Inductive step_shape (st : state) (e : event) (st' : state) (effs : list effect)
  : Prop :=
| shape_plain :
    (* neither a connection nor an opening: messages go to the open socket
       held by [ws]; sockets only wind down; [ws] is kept or cleared; the
       microphone is turned on by its button only *)
    (forall j m, In (Send j m) effs ->
       ws st = Some j /\ ready_of st j = OPEN /\ plain_msg st e m) ->
    (forall k, ~ In (NewWebSocket k) effs) ->
    winding_down (sockets st) (sockets st') ->
    (ws st' = ws st \/ ws st' = None) ->
    (isRecording st' = true -> isRecording st = true \/ e = ClickMic) ->
    step_shape st e st' effs
| shape_open (k : nat) (f : form) (s : socket) :
    (* socket [k] opens and its [onopen] runs *)
    e = WsOpen k f ->
    sockets st !! k = Some s -> ready s = CONNECTING ->
    sockets st' = <[k := Socket OPEN (c_endpoint s) (c_isAgent s) (c_apiKey s)
                                       (c_entraToken s)]> (sockets st) ->
    ws st' = ws st -> isRecording st' = isRecording st ->
    (forall j m, In (Send j m) effs ->
       ws st = Some j /\ (j = k \/ ready_of st j = OPEN) /\
       m = start_session (onopen_config parseFloat parseInt divide s f)) ->
    (ws st = Some k ->
       effs = [Send k (start_session (onopen_config parseFloat parseInt divide s f))]) ->
    (forall k', ~ In (NewWebSocket k') effs) ->
    (length (List.filter is_start_session effs) <= 1)%nat ->
    step_shape st e st' effs
| shape_connect (f : form) (s : socket) :
    (* a click on Connect that passes validation *)
    e = ClickConnect f ->
    ready s = CONNECTING -> made_by f s ->
    sockets st' = sockets st ++ [s] ->
    ws st' = Some (length (sockets st)) ->
    isRecording st' = isRecording st ->
    effs = [NewWebSocket (length (sockets st))] ->
    step_shape st e st' effs.

End Shapes.

End SessionSpec.

(* ===================================================================== *)
(** * Sample inputs *)
(* ===================================================================== *)

Module Demo.
Import Js Session.

(** Stand-ins for [parseFloat], [parseInt] and [/], which no property below
    depends on. *)
Definition parse (_ : jsstring) : Num.number := Num.NaN.
Definition divide (_ _ : Num.number) : Num.number := Num.NaN.

(** A filled-in settings panel in model mode, with a photo avatar. *)
Definition model_form : form :=
  Form (fun id =>
          if String.eqb id "endpoint" then lit " https://example.cognitiveservices.azure.com "
          else if String.eqb id "mode" then lit "model"
          else if String.eqb id "apiKey" then lit "0123456789abcdef"
          else [])
       (fun id => String.eqb id "isPhotoAvatar" || String.eqb id "avatarEnabled").

(** The same panel in agent mode, with a token. *)
Definition agent_form : form :=
  Form (fun id =>
          if String.eqb id "endpoint" then lit "https://example.cognitiveservices.azure.com"
          else if String.eqb id "mode" then lit "agent-v2"
          else if String.eqb id "entraToken" then lit "eyJ0eXAi"
          else [])
       (fun _ => false).

(** A connected session on an open socket, microphone off. *)
Definition connected : state :=
  State (Some 0%nat) true false false 0 false (lit "webrtc") false 1000%Z [] []
        [Socket OPEN (lit "https://example.cognitiveservices.azure.com") false
                (lit "0123456789abcdef") []].

(** A video relay whose only source buffer is busy with an append. *)
Definition busy_relay : Video.state :=
  Video.State (Some 0%nat) (Some 0%nat) [] 0 [Video.open] [true].

End Demo.

(* ===================================================================== *)
(** * Rate limiting and buffering written in the page *)
(* ===================================================================== *)

Module FlowControl.
Import Js.

(** The relay can hand a chunk to the browser: there are a source buffer
    that is not updating and an open media source. *)
Definition can_append (st : Video.state) : bool :=
  match Video.sourceBuffer st, Video.mediaSource st with
  | Some b, Some m =>
      negb (Video.updating_of st b) && Video.is_open (Video.ready_of st m)
  | _, _ => false
  end.

(** A page without scheduling or backpressure logic of its own handles
    every event when the runtime delivers it: each slider input runs
    [updateAvatarScene], and each video chunk that arrives while the queue is
    empty and a source buffer is attached to an open source goes to
    [appendBuffer] at once. *)
Definition no_own_flow_control : Prop :=
  (forall now f st,
     (Session.throttledUpdateAvatarScene now f st).2
     = (Session.updateAvatarScene f st).2) /\
  (forall data accepted st c b m,
     Video.decode_chunk data = Some c ->
     Video.videoChunksQueue st = [] ->
     Video.sourceBuffer st = Some b -> Video.mediaSource st = Some m ->
     Video.ready_of st m = Video.open ->
     (Video.handleVideoChunk data accepted st).2 = [Video.AppendBuffer b c]).

(** The state of the relay once a chunk has been counted and queued. *)
Definition enqueued (c : Video.chunk) (st : Video.state) : Video.state :=
  Video.State (Video.mediaSource st) (Video.sourceBuffer st)
              (Video.videoChunksQueue st ++ [c]) (S (Video.videoChunkCount st))
              (Video.sources st) (Video.buffers st).

End FlowControl.


(* ===================================================================== *)
(** * [App.tsx]: the tool-call events that update an entry *)
(* ===================================================================== *)

Module ToolEvents.
Import Js ToolCalls.

Section Events.
Context {any : Type}.

(** The four events whose handler maps over the list (those of
    [onToolCallArguments], [onToolCallExecuting], [onToolCallCompleted] and
    [onToolCallError]), with
    the fields of the event their handler reads besides [call_id]. *)
Inductive update : Type :=
| Arguments_ (args : any)
| Executing
| Completed (res : any) (exec_time : Num.number)
| Error (err : jsstring).

(** The handler of an event, as an update of the list. *)
Definition handle (call_id : jsstring) (u : update)
    (prev : list (tool_call any)) : list (tool_call any) :=
  match u with
  | Arguments_ args => onToolCallArguments call_id args prev
  | Executing => onToolCallExecuting call_id prev
  | Completed res exec_time => onToolCallCompleted call_id res exec_time prev
  | Error err => onToolCallError call_id err prev
  end.

(** The object spread of the handler of an event. *)
Definition spread (u : update) : tool_call any -> tool_call any :=
  match u with
  | Arguments_ args => with_arguments args
  | Executing => with_status executing
  | Completed res exec_time => with_completed res exec_time
  | Error err => with_error err
  end.

End Events.
Arguments update : clear implicits.

End ToolEvents.

(* ===================================================================== *)
(** * [app.js]: the audio wire format, from the worklet to the playback *)
(* ===================================================================== *)

Module AudioWire.
Import Js Num Util.

(** [pcm16.buffer], the [ArrayBuffer] the worklet posts: the elements of the
    [Int16Array] in two's complement, low byte first. *)
Definition int16_bytes (pcm16 : list Z) : list Byte.byte :=
  flat_map (fun v => let u := Z.to_N (v mod 65536) in
                     [byte_of_N (u mod 256); byte_of_N (u / 256)]) pcm16.

(** The [data] of the [audio_chunk] message built from a posted buffer, as
    [workletNode.port.onmessage] computes it. *)
Definition audio_chunk_data (pcm16 : list Z) : option jsstring :=
  arrayBufferToBase64 (int16_bytes pcm16).

(** A signed 16-bit integer. *)
Definition is_int16 (v : Z) : Prop := (-32768 <= v <= 32767)%Z.

End AudioWire.

(* ===================================================================== *)
(** * Video relay: events that keep the media source, valid references *)
(* ===================================================================== *)

Module VideoSpec.
Import Video.

(** Events other than the two calls that drop the queue
    ([cleanupWebSocketVideo], alone or at the start of
    [setupWebSocketVideoPlayback]). *)
Definition keeps_queue (e : event) : bool :=
  match e with
  | Setup _ | Cleanup => false
  | _ => true
  end.

(** The browser's answer to the [appendBuffer] call that an event may lead
    to: [false] when the call throws. *)
Definition accepts (e : event) : bool :=
  match e with
  | VideoData _ accepted | UpdateEnd _ accepted => accepted
  | _ => true
  end.

(** The [appendBuffer] calls of a run, in order, each with its chunk and
    its outcome: [true] when the source buffer took the chunk, [false] when
    the call threw.  [processVideoChunkQueue] takes the chunk off the queue
    before the [try], so a chunk whose call throws is not queued again. *)
Fixpoint attempts (st : state) (evs : list event) : list (chunk * bool) :=
  match evs with
  | [] => []
  | e :: evs =>
      map (fun next => (next, accepts e)) (appended (step st e).2)
      ++ attempts (step st e).1 evs
  end.

(** The chunks the source buffer took, and the chunks whose [appendBuffer]
    threw. *)
Definition taken (st : state) (evs : list event) : list chunk :=
  map fst (List.filter snd (attempts st evs)).

Definition dropped (st : state) (evs : list event) : list chunk :=
  map fst (List.filter (fun a => negb (snd a)) (attempts st evs)).

(** Events other than [sourceopen]. *)
Definition not_sourceopen (e : event) : bool :=
  match e with
  | SourceOpen _ _ => false
  | _ => true
  end.

(** [mediaSource] and [sourceBuffer] refer to objects that exist, and there
    is no source buffer without a media source. *)
Definition refs_valid (st : state) : Prop :=
  (forall m, mediaSource st = Some m -> (m < length (sources st))%nat) /\
  (forall b, sourceBuffer st = Some b ->
     (b < length (buffers st))%nat /\ mediaSource st <> None).

End VideoSpec.

(* ===================================================================== *)
(** * Connection code: flags, counters, chat and the ways a session ends *)
(* ===================================================================== *)

Module SessionMore.
Import Js Session SessionSpec.

(** How the script variables of the connection relate to each other. *)
Definition flags_ok (st : state) : Prop :=
  (isRecording st = true -> isConnected st = true) /\
  (isConnected st = true -> isConnecting st = false) /\
  ((0 < audioChunksSent st)%nat -> isConnected st = true) /\
  (forall k, ws st = Some k -> (k < length (sockets st))%nat).

(** Number of [audio_chunk] messages among the effects. *)
Definition count_audio (effs : list effect) : nat :=
  count_effects is_audio_chunk effs.

(** What a step does to [audioChunksSent]: it adds the number of
    [audio_chunk] messages the step sends, or the step resets the counter
    and sends none. *)
Definition counted (st st' : state) (effs : list effect) : Prop :=
  audioChunksSent st' = (audioChunksSent st + count_audio effs)%nat \/
  (audioChunksSent st' = 0%nat /\ count_audio effs = 0%nat).

(** The variables the two properties above are about. *)
Definition core (st : state) : bool * bool * bool * nat * option nat * nat :=
  (isConnected st, isConnecting st, isRecording st, audioChunksSent st, ws st,
   length (sockets st)).

(** The events that stream an assistant answer as text: [response_created],
    then one [text_delta] per piece. *)
Definition text_response (k : nat) (deltas : list jsstring) : list event :=
  WsMessage k response_created :: map (fun d => WsMessage k (text_delta d)) deltas.

(** An item id that the selector [.message.user[data-item-id="${itemId}"]]
    quotes as it is: printable ASCII without the double quote and the
    backslash.  The selector then matches the user messages whose attribute
    equals the id. *)
Definition plain_item_id (itemId : jsstring) : bool :=
  forallb (fun c => (32 <=? c) && (c <=? 126) && negb (c =? 34) && negb (c =? 92))
          itemId.

(** A user message with the given [data-item-id]. *)
Definition is_user_item (itemId : jsstring) (m : message) : bool :=
  is_role "user" m && bool_decide (item_id m = Some itemId).

(** The events that end a session: the socket fails or closes, the backend
    says [session_closed], or the user clicks Disconnect. *)
Definition ends_session (st : state) (e : event) : Prop :=
  match e with
  | WsFail _ | WsClosed _ | WsMessage _ session_closed => True
  | ClickConnect _ => isConnecting st = false /\ isConnected st = true
  | _ => False
  end.

(** The state [handleDisconnect] leaves. *)
Definition disconnected (st : state) : Prop :=
  isConnected st = false /\ isConnecting st = false /\ isRecording st = false /\
  audioChunksSent st = 0%nat /\ avatarEnabled st = false /\ ws st = None.

(** The resources [handleDisconnect] releases. *)
Definition cleanup_calls : list call :=
  [stopAudioCapture; stopAudioPlayback; cleanupWebRTC; cleanupWebSocketVideo].

End SessionMore.

(* ===================================================================== *)
(** * [app.js]: what the page shows *)
(* ===================================================================== *)

Module Ui.
Import Js Session.

(** ** Conditional field visibility *)

(** A call [show(id, visible)]: every element named is part of the page, so
    the call sets [el.style.display] to [''] (shown) or ['none']. *)
Definition show (id : string) (visible : bool) : string * bool := (id, visible).
Arguments show id%_string visible.

(** [cascadedModels] *)
Definition cascadedModels : list jsstring :=
  [lit "gpt-4.1"; lit "gpt-4.1-mini"; lit "gpt-4.1-nano"; lit "gpt-4o";
   lit "gpt-4o-mini"; lit "phi4-mm"; lit "phi4-mini"].

(** [array.includes(x)] on strings. *)
Definition array_includes (l : list jsstring) (x : jsstring) : bool :=
  existsb (eqb_string x) l.

(** [updateConditionalFields()]: the calls of [show], in order. *)
Definition updateConditionalFields (f : form) : list (string * bool) :=
  let mode := value f "mode" in
  let model := value f "model" in
  let voiceType := value f "voiceType" in
  let voiceName := value f "voiceName" in
  let avatarEnabled := checked f "avatarEnabled" in
  let isPhotoAvatar := checked f "isPhotoAvatar" in
  let isCustomAvatar := checked f "isCustomAvatar" in
  let turnDetectionType := value f "turnDetectionType" in
  let srModel := value f "srModel" in
  let isCascaded := array_includes cascadedModels model in
  let isAgent := eqb_string mode (lit "agent") || eqb_string mode (lit "agent-v2") in
  let isDragonHD := negb (is_empty voiceName) && includes voiceName (lit "DragonHD") in
  let isPersonal := eqb_string voiceType (lit "personal") in
  [ show "agentFields" isAgent;
    show "modelField" (negb isAgent);
    show "instructionsField" (negb isAgent);
    show "temperatureField" (negb isAgent);
    show "agentIdField" (eqb_string mode (lit "agent"));
    show "agentNameField" (eqb_string mode (lit "agent-v2"));
    show "subscriptionKeyField" (negb isAgent);
    show "entraTokenField" isAgent;
    show "srModelField" (negb isAgent && isCascaded);
    show "recognitionLanguageField"
         (negb isAgent && isCascaded && negb (eqb_string srModel (lit "mai-ears-1")));
    show "eouDetectionField" (negb isAgent && isCascaded);
    show "fillerWordsField" (eqb_string turnDetectionType (lit "azure_semantic_vad"));
    show "standardVoiceField" (eqb_string voiceType (lit "standard"));
    show "customVoiceFields" (eqb_string voiceType (lit "custom"));
    show "personalVoiceFields" (eqb_string voiceType (lit "personal"));
    show "voiceTempField" (isDragonHD || isPersonal);
    show "avatarSettings" avatarEnabled;
    show "standardAvatarField" (negb isPhotoAvatar && negb isCustomAvatar);
    show "photoAvatarField" (isPhotoAvatar && negb isCustomAvatar);
    show "customAvatarField" isCustomAvatar;
    show "photoAvatarSceneSettings" isPhotoAvatar ].

(** Whether element [id] is shown after the calls [shows] (the last call for
    the element decides); an element no call names keeps its display, which
    is shown in the page as loaded. *)
Fixpoint displayed (id : string) (shows : list (string * bool)) : bool :=
  match shows with
  | [] => true
  | (id', visible) :: rest =>
      if existsb (fun c => String.eqb id (fst c)) rest then displayed id rest
      else if String.eqb id id' then visible else true
  end.
Arguments displayed id%_string shows.

(** How many of the elements [ids] are shown. *)
Definition count_displayed (ids : list string) (shows : list (string * bool)) : nat :=
  length (List.filter (fun id => displayed id shows) ids).

(** The form control whose content [connectSession] requires for a
    credential field of the page. *)
Definition credential_input (field : string) : string :=
  if String.eqb field "entraTokenField" then "entraToken" else "apiKey".

(** ** Connect button and control states *)

(** What [updateConnectionUI] and [updateControlStates] set: the state
    class and the label of the connect button, its [disabled] flag, and the
    [disabled] flag of the settings controls, of the text input, of the
    microphone, send and record buttons. *)
Record controls : Type := Controls {
  btnClass : option string;
  btnText : string;
  btnDisabled : bool;
  sceneTitle : string;
  settingsDisabled : bool;
  chatDisabled : bool;
  micBtnDisabled : bool;
  sendBtnDisabled : bool;
  recordBtnDisabled : bool;
}.

(** [updateConnectionUI()], which ends with [updateControlStates()]. *)
Definition updateConnectionUI (st : state) : controls :=
  let '(cls, text) :=
    if isConnected st then (Some "connected", "Disconnect")%string
    else if isConnecting st then (Some "connecting", "Connecting...")%string
    else (None, "Connect"%string) in
  Controls cls text (isConnecting st)
    (if isConnected st then "Scene Settings (Live Adjustable)" else "Scene Settings")
    (isConnected st) (negb (isConnected st)) (negb (isConnected st))
    (negb (isConnected st)) (negb (isConnected st)).

(** ** Layout *)

(** The [display] of the areas of the page ([true]: shown) and whether
    [contentArea] has the class [developer-layout]. *)
Record layout : Type := Layout {
  inputArea : bool;
  footerArea : bool;
  avatarVideoContainer : bool;
  chatArea : bool;
  volumeAnimation : bool;
  developerLayout : bool;
}.

(** [updateDeveloperModeLayout()] *)
Definition updateDeveloperModeLayout (isDeveloperMode isConnected avatarEnabled : bool)
  : layout :=
  if isDeveloperMode then
    if isConnected && avatarEnabled then Layout true false true true false true
    else if isConnected then Layout true false false true true false
    else Layout true false false true false false
  else
    if isConnected && avatarEnabled then Layout false true true false false false
    else if isConnected then Layout false true false true true false
    else Layout false true false true false false.

(** ** Sound wave animation *)

(** A wave container: the number of its children and whether it is shown. *)
Record wave : Type := Wave {
  children : nat;
  shown : bool;
}.

(** [soundWaveIntervalId] (null or a timer id, which is positive), the
    interval timers that are running, the number of timers created so far
    (timer ids are handed out in sequence), and the two wave containers
    (null when the page has no such element). *)
Record wave_state : Type := WaveState {
  soundWaveIntervalId : option nat;
  running : list nat;
  created : nat;
  leftWave : option wave;
  rightWave : option wave;
}.

(** [if (wave && wave.children.length === 0)] append ten bars. *)
Definition add_bars (w : option wave) : option wave :=
  match w with
  | Some (Wave 0 s) => Some (Wave 10 s)
  | _ => w
  end.

(** [if (wave) wave.style.display = ...] *)
Definition set_shown (visible : bool) (w : option wave) : option wave :=
  match w with
  | Some (Wave n _) => Some (Wave n visible)
  | None => None
  end.

(** [updateSoundWaveAnimation()], for the current value of the four flags. *)
Definition updateSoundWaveAnimation
    (isConnected avatarEnabled isRecording isDeveloperMode : bool)
    (st : wave_state) : wave_state :=
  if isConnected && avatarEnabled && isRecording && negb isDeveloperMode then
    let l := add_bars (leftWave st) in
    let r := add_bars (rightWave st) in
    match soundWaveIntervalId st with
    | Some _ =>
        WaveState (soundWaveIntervalId st) (running st) (created st)
                  (set_shown true l) (set_shown true r)
    | None =>
        let id := S (created st) in
        WaveState (Some id) (running st ++ [id]) id
                  (set_shown true l) (set_shown true r)
    end
  else
    match soundWaveIntervalId st with
    | Some id =>
        WaveState None (List.filter (fun t => negb (t =? id)%nat) (running st))
                  (created st)
                  (set_shown false (leftWave st)) (set_shown false (rightWave st))
    | None =>
        WaveState None (running st) (created st)
                  (set_shown false (leftWave st)) (set_shown false (rightWave st))
    end.

(** The page as loaded: no timer yet; [left] and [right] are the two
    containers, null when the page has no such element. *)
Definition wave_init (left right : option wave) : wave_state :=
  WaveState None [] 0 left right.

(** A sequence of calls, each with the flags of its time. *)
Definition wave_run (st : wave_state) (calls : list (bool * bool * bool * bool))
  : wave_state :=
  fold_left (fun st '(c, a, r, d) => updateSoundWaveAnimation c a r d st) calls st.

(** The wave is empty or has its ten bars. *)
Definition bars_ok (w : option wave) : Prop :=
  match w with
  | Some (Wave n _) => n = 0%nat \/ n = 10%nat
  | None => True
  end.

End Ui.

(* ===================================================================== *)
(** * [app.js], [updateAvatarScene]: character and style of the avatar *)
(* ===================================================================== *)

Module Scene.
Import Js Session.

(** [s.split(sep)] for a separator of one code unit: never empty. *)
Fixpoint split (sep : N) (s : jsstring) : list jsstring :=
  match s with
  | [] => [[]]
  | c :: r =>
      if c =? sep then [] :: split sep r
      else match split sep r with
           | p :: ps => (c :: p) :: ps
           | [] => [[c]]
           end
  end.

(** [parts.join(sep)] *)
Fixpoint join (sep : N) (parts : list jsstring) : jsstring :=
  match parts with
  | [] => []
  | [p] => p
  | p :: ps => p ++ sep :: join sep ps
  end.

(** The code unit of ['-']. *)
Definition hyphen : N := 45.

Section Avatar.
(** [String.prototype.toLowerCase] *)
Variable toLowerCase : jsstring -> jsstring.

(** The properties [character], [style] and [customized] of the [avatar]
    object of an [update_scene] message; [None] and [false] when the object
    has no such property. *)
Record identity : Type := Identity {
  character : jsstring;
  style : option jsstring;
  customized : bool;
}.

(** The name the scene update is for. *)
Definition avatarName (f : form) : jsstring :=
  if checked f "isCustomAvatar"
  then or_else (value f "customAvatarName") []
  else or_else (value f "photoAvatarName") (lit "Anika").

(** The part of [updateAvatarScene()] that builds them. *)
Definition avatar_identity (f : form) : identity :=
  let isCustom := checked f "isCustomAvatar" in
  let parts := split hyphen (avatarName f) in
  let character := toLowerCase (hd [] parts) in
  let style := join hyphen (tl parts) in
  if isCustom then Identity character None true
  else if is_empty style then Identity character None false
  else Identity character (Some style) false.

End Avatar.

End Scene.

(* ===================================================================== *)
(** * [app.js], WebRTC for Avatar: the peer connection *)
(* ===================================================================== *)

Module WebRtc.
Import Js Json.

(** The script variable [peerConnection] (null, or a connection given by
    its creation number), the connections created by the page that are not
    closed, and the number of connections created so far. *)
Record state : Type := State {
  peerConnection : option nat;
  live : list nat;
  created : nat;
}.

Definition init : state := State None [] 0.

(** What the code does to a connection.  [SetRemoteDescription p obj] is
    the evaluation of
    [peerConnection.setRemoteDescription(new RTCSessionDescription(obj))] on
    connection [p] for the parsed answer [obj]; whether the constructor and
    the call accept the object is the browser's: an exception is caught by
    the [try], a rejection by the [catch] of the promise. *)
Inductive effect : Type :=
| NewPeerConnection (p : nat)                       (* [new RTCPeerConnection(..)] *)
| ClosePeerConnection (p : nat)                     (* [peerConnection.close()] *)
| SetRemoteDescription (p : nat) (serverSdpObj : value).

(** [cleanupWebRTC()], as far as the connection is concerned. *)
Definition cleanupWebRTC (st : state) : state * list effect :=
  match peerConnection st with
  | Some p =>
      (State None (List.filter (fun q => negb (q =? p)%nat) (live st)) (created st),
       [ClosePeerConnection p])
  | None => (st, [])
  end.

(** [setupWebRTC(iceServers)] up to the creation of the connection;
    [constructed] tells whether the constructor accepts the configuration
    (it throws otherwise, and [peerConnection] stays null). *)
Definition setupWebRTC (constructed : bool) (st : state) : state * list effect :=
  let '(st1, effs) :=
    match peerConnection st with
    | Some _ => cleanupWebRTC st
    | None => (st, [])
    end in
  if constructed then
    let p := S (created st1) in
    (State (Some p) (live st1 ++ [p]) p, effs ++ [NewPeerConnection p])
  else (st1, effs).

(** [handleAvatarSdpAnswer(serverSdpBase64)]: what it does to the
    connection.  An exception of [atob] or [JSON.parse] is caught and logged. *)
Definition handleAvatarSdpAnswer (serverSdpBase64 : jsstring) (st : state)
  : list effect :=
  match peerConnection st, serverSdpBase64 with
  | None, _ | _, [] => []
  | Some p, _ =>
      match decode_sdp serverSdpBase64 with
      | Some serverSdpObj => [SetRemoteDescription p serverSdpObj]
      | None => []
      end
  end.

(** The calls the connection code makes: on [ice_servers], on disconnect,
    and on [avatar_sdp_answer]. *)
Inductive event : Type :=
| Setup (constructed : bool)
| Cleanup
| Answer (serverSdpBase64 : jsstring).

Definition step (st : state) (e : event) : state * list effect :=
  match e with
  | Setup constructed => setupWebRTC constructed st
  | Cleanup => cleanupWebRTC st
  | Answer s => (st, handleAvatarSdpAnswer s st)
  end.

Fixpoint run (st : state) (evs : list event) : state * list effect :=
  match evs with
  | [] => (st, [])
  | e :: evs =>
      let '(st1, out) := step st e in
      let '(st2, outs) := run st1 evs in
      (st2, out ++ outs)
  end.


End WebRtc.

(* ===================================================================== *)
(** * Theorems *)
(* ===================================================================== *)

(** [lia] on [N] and [Z] goals with division and remainder by constants. *)
Ltac Zify.zify_post_hook ::= Z.to_euclidean_division_equations.

(** Case analysis on every boolean comparison of the goal. *)
Ltac cases_cmp :=
  repeat match goal with
  | |- context [N.ltb ?a ?b] => destruct (N.ltb_spec a b)
  | |- context [N.leb ?a ?b] => destruct (N.leb_spec a b)
  | |- context [N.eqb ?a ?b] => destruct (N.eqb_spec a b)
  end.

(* ===================================================================== *)
(** * The models on concrete inputs *)
(* ===================================================================== *)

Example btoa_Man : Base64.btoa (Js.lit "Man") = Some (Js.lit "TWFu").
Proof. reflexivity. Qed.

Example btoa_padding :
  Base64.btoa (Js.lit "Ma") = Some (Js.lit "TWE=") ∧
  Base64.btoa (Js.lit "M") = Some (Js.lit "TQ==").
Proof. split; reflexivity. Qed.

Example btoa_above_latin1 : Base64.btoa [72; 8364] = None.
Proof. reflexivity. Qed.

Example atob_forgiving :
  Base64.atob (Js.lit " TW E= ") = Some (Js.lit "Ma") ∧
  Base64.atob (Js.lit "TWE") = Some (Js.lit "Ma") ∧
  Base64.atob (Js.lit "T") = None ∧
  Base64.atob (Js.lit "TQ===") = None ∧
  Base64.atob (Js.lit "T*E=") = None.
Proof. repeat split; reflexivity. Qed.

Example stringify_offer :
  Json.stringify (Json.Description (Js.lit "offer") (Js.lit "v=0" ++ [13; 10]))
  = [123] ++ [34] ++ Js.lit "type" ++ [34; 58; 34] ++ Js.lit "offer" ++ [34; 44; 34]
    ++ Js.lit "sdp" ++ [34; 58; 34] ++ Js.lit "v=0\r\n" ++ [34; 125].
Proof. reflexivity. Qed.

Example parse_last_member_wins :
  Json.parse ([123; 34; 97; 34; 58; 34; 98; 34; 44; 32; 34; 97; 34; 58; 34; 99; 34; 125])
  = Some (Json.JObject [(Js.lit "a", Json.JString (Js.lit "c"))]).
Proof. vm_compute. reflexivity. Qed.

(** An answer with a numeric member, an array and a nested object: the text
    between the quotes of a name is written with [Json.quote]. *)
Example parse_answer_with_other_members :
  Json.parse (Js.lit "{" ++ Json.quote (Js.lit "type") ++ Js.lit ":"
              ++ Json.quote (Js.lit "answer") ++ Js.lit ", "
              ++ Json.quote (Js.lit "n") ++ Js.lit ": -1.5e3,"
              ++ Json.quote (Js.lit "l") ++ Js.lit ":[true, null, {}] }")
  = Some (Json.JObject
            [(Js.lit "type", Json.JString (Js.lit "answer"));
             (Js.lit "n", Json.JNumber (Js.lit "-1.5e3"));
             (Js.lit "l", Json.JArray [Json.JBool true; Json.JNull; Json.JObject []])]).
Proof. vm_compute. reflexivity. Qed.

Example parse_scalars :
  Json.parse (Js.lit " 10 ") = Some (Json.JNumber (Js.lit "10")) ∧
  Json.parse (Js.lit "false") = Some (Json.JBool false) ∧
  Json.parse (Js.lit "[[ ]]") = Some (Json.JArray [Json.JArray []]).
Proof. repeat split; vm_compute; reflexivity. Qed.

Example parse_syntax_errors :
  Json.parse (Js.lit "") = None ∧ Json.parse (Js.lit "01") = None ∧
  Json.parse (Js.lit "1.") = None ∧ Json.parse (Js.lit "+1") = None ∧
  Json.parse (Js.lit "[1,]") = None ∧ Json.parse (Js.lit "{} {}") = None ∧
  Json.parse (Js.lit "nul") = None ∧ Json.parse (Js.lit "{a:1}") = None.
Proof. repeat split; vm_compute; reflexivity. Qed.

Example convert_samples :
  map Pcm16.convert
    [Num.Fin (1 # 2); Num.Fin (-1 # 2); Num.Fin (3 # 1); Num.Fin (-3 # 1);
     Num.Fin (-1 # 100000); Num.PosInf; Num.NegInf; Num.NaN]
  = [16383; -16384; 32767; -32768; 0; 32767; -32768; 0]%Z.
Proof. reflexivity. Qed.

Example trim_endpoint :
  Session.trim (Js.lit "  https://example  ") = Js.lit "https://example" ∧
  Session.trim (Js.lit "   ") = [].
Proof. split; reflexivity. Qed.

Example playback_two_chunks :
  (Playback.run (clock := Playback.Q_clock) Playback.init
     [((1 # 2)%Q, Js.lit "AAAAAA=="); (0%Q, Js.lit "AAA=")]).2
  = [Playback.Scheduled (1 # 2)%Q [(0 # 32768)%Q; (0 # 32768)%Q];
     Playback.Scheduled ((1 # 2) + (2 # 24000))%Q [(0 # 32768)%Q]].
Proof. reflexivity. Qed.
(* ===================================================================== *)
(** * Base64 transport *)
(* ===================================================================== *)

Section Base64Facts.
Import Js Base64 Util.

Lemma list_ind3 {A} (P : list A → Prop) :
  P [] → (∀ a, P [a]) → (∀ a b, P [a; b]) →
  (∀ a b c r, P r → P (a :: b :: c :: r)) → ∀ l, P l.
Proof.
  intros H0 H1 H2 H3.
  fix IH 1.
  intros [|a [|b [|c r]]]; [apply H0 | apply H1 | apply H2 | apply H3, IH].
Qed.

(** The five ranges of the alphabet table. *)
Ltac alphabet_ranges i :=
  unfold alphabet_char;
  destruct (N.ltb_spec i 26);
  [|destruct (N.ltb_spec i 52);
    [|destruct (N.ltb_spec i 62); [|destruct (N.eqb_spec i 62)]]].

Lemma alphabet_index_char i : i < 64 → alphabet_index (alphabet_char i) = Some i.
Proof.
  intros Hi. alphabet_ranges i; unfold alphabet_index;
    cases_cmp; simpl; first [f_equal; lia | lia].
Qed.

Lemma alphabet_char_not_pad i : i < 64 → (alphabet_char i =? 61) = false.
Proof.
  intros Hi. apply N.eqb_neq. alphabet_ranges i; lia.
Qed.

Lemma alphabet_char_not_ws i : i < 64 → is_ascii_whitespace (alphabet_char i) = false.
Proof.
  intros Hi. unfold is_ascii_whitespace.
  alphabet_ranges i; cases_cmp; simpl; first [reflexivity | lia].
Qed.

Lemma sextets_bound bs :
  Forall (λ b, b < 256) bs → Forall (λ v, v < 64) (sextets bs).
Proof.
  induction bs as [|a|a b|a b c r IH] using list_ind3; intros Hb; simpl.
  - constructor.
  - inversion_clear Hb. repeat (constructor; [lia|]). constructor.
  - inversion_clear Hb as [|? ? Ha Hb']. inversion_clear Hb'.
    repeat (constructor; [lia|]). constructor.
  - inversion_clear Hb as [|? ? Ha Hb']. inversion_clear Hb' as [|? ? ? Hb''].
    inversion_clear Hb''.
    repeat (constructor; [lia|]). auto.
Qed.

Lemma decode_sextets_sextets bs :
  Forall (λ b, b < 256) bs → decode_sextets (sextets bs) = bs.
Proof.
  induction bs as [|a|a b|a b c r IH] using list_ind3; intros Hb; simpl.
  - reflexivity.
  - inversion_clear Hb. f_equal. lia.
  - inversion_clear Hb as [|? ? Ha Hb']. inversion_clear Hb'.
    f_equal; [lia|]. f_equal. lia.
  - inversion_clear Hb as [|? ? Ha Hb']. inversion_clear Hb' as [|? ? ? Hb''].
    inversion_clear Hb''.
    rewrite IH by assumption. f_equal; [lia|]. f_equal; [lia|]. f_equal. lia.
Qed.


Lemma padding_step n : padding (S (S (S n))) = padding n.
Proof.
  unfold padding.
  replace (S (S (S n))) with (n + 1 * 3)%nat by lia.
  rewrite Nat.Div0.mod_add. reflexivity.
Qed.

Lemma strip_padding_data x r :
  (x =? 61) = false → strip_padding (x :: r) = x :: strip_padding r.
Proof. intros Hx. simpl. rewrite Hx. reflexivity. Qed.

Local Arguments strip_padding : simpl never.

(** Stripping the padding of an encoding leaves the alphabet characters. *)
Lemma strip_padding_encode bs :
  Forall (λ b, b < 256) bs →
  strip_padding (encode bs) = map alphabet_char (sextets bs).
Proof.
  unfold encode.
  induction bs as [|a|a b|a b c r IH] using list_ind3; intros Hb.
  - reflexivity.
  - apply sextets_bound in Hb. simpl in *.
    inversion_clear Hb as [|? ? H1 Hb']. inversion_clear Hb' as [|? ? H2 _].
    rewrite !strip_padding_data by (apply alphabet_char_not_pad; assumption).
    reflexivity.
  - apply sextets_bound in Hb. simpl in *.
    inversion_clear Hb as [|? ? H1 Hb']. inversion_clear Hb' as [|? ? H2 Hb''].
    inversion_clear Hb'' as [|? ? H3 _].
    rewrite !strip_padding_data by (apply alphabet_char_not_pad; assumption).
    reflexivity.
  - pose proof (sextets_bound _ Hb) as Hs.
    inversion_clear Hb as [|? ? Ha Hb']. inversion_clear Hb' as [|? ? ? Hb''].
    inversion_clear Hb'' as [|? ? ? Hr].
    change (length (a :: b :: c :: r)) with (S (S (S (length r)))).
    rewrite padding_step. simpl in *.
    inversion_clear Hs as [|? ? H1 Hs']. inversion_clear Hs' as [|? ? H2 Hs''].
    inversion_clear Hs'' as [|? ? H3 Hs']. inversion_clear Hs' as [|? ? H4 _].
    rewrite !strip_padding_data by (apply alphabet_char_not_pad; assumption).
    rewrite IH by assumption. reflexivity.
Qed.

Lemma encode_length bs : (length (encode bs) mod 4 = 0)%nat.
Proof.
  unfold encode.
  induction bs as [|a|a b|a b c r IH] using list_ind3; try reflexivity.
  change (length (a :: b :: c :: r)) with (S (S (S (length r)))).
  rewrite padding_step. simpl length.
  set (n := length _) in *. lia.
Qed.

Lemma sextets_length bs : (length (sextets bs) mod 4 ≠ 1)%nat.
Proof.
  induction bs as [|a|a b|a b c r IH] using list_ind3; simpl length;
    try (simpl; lia).
  set (n := length _) in *. lia.
Qed.

Lemma encode_no_whitespace bs :
  Forall (λ b, b < 256) bs →
  List.filter (λ c, negb (is_ascii_whitespace c)) (encode bs) = encode bs.
Proof.
  intros Hb. unfold encode. rewrite List.filter_app. f_equal.
  - apply sextets_bound in Hb.
    induction Hb as [|v vs Hv _ IH]; [reflexivity|].
    simpl. rewrite alphabet_char_not_ws by assumption. simpl.
    f_equal. apply IH.
  - induction (padding (length bs)) as [|n IH]; [reflexivity|].
    simpl. f_equal. apply IH.
Qed.

Lemma mapM_alphabet vs :
  Forall (λ v, v < 64) vs → mapM alphabet_index (map alphabet_char vs) = Some vs.
Proof.
  intros Hv. apply mapM_Some_2.
  induction Hv as [|v vs Hv _ IH]; simpl; constructor.
  - apply alphabet_index_char; assumption.
  - apply IH.
Qed.

(** [atob] undoes [encode] on bytes. *)
Lemma atob_encode bs : Forall (λ b, b < 256) bs → atob (encode bs) = Some bs.
Proof.
  intros Hb. unfold atob.
  rewrite encode_no_whitespace by assumption.
  rewrite encode_length.
  change (0 =? 0)%nat with true. cbv iota zeta.
  rewrite strip_padding_encode by assumption.
  rewrite length_map.
  destruct (Nat.eqb_spec (length (sextets bs) mod 4) 1) as [E|_].
  { exfalso. exact (sextets_length bs E). }
  rewrite mapM_alphabet by (apply sextets_bound; assumption).
  change (Some (decode_sextets (sextets bs)) = Some bs).
  rewrite decode_sextets_sextets by assumption. reflexivity.
Qed.

Lemma btoa_bytes bs : Forall (λ b, b < 256) bs → btoa bs = Some (encode bs).
Proof.
  intros Hb. unfold btoa.
  replace (forallb (λ c, c <=? 255) bs) with true; [reflexivity|].
  symmetry. apply forallb_forall. intros x Hx.
  rewrite List.Forall_forall in Hb. apply N.leb_le. specialize (Hb x Hx). lia.
Qed.

(** The [binary] string built by the loop of [arrayBufferToBase64]. *)
Lemma binary_of_bytes (bytes : list Byte.byte) acc :
  fold_left (λ binary b, binary ++ [fromCharCode (Byte.to_N b)]) bytes acc
  = acc ++ map Byte.to_N bytes.
Proof.
  revert acc. induction bytes as [|b bytes IH]; intros acc; simpl.
  - rewrite app_nil_r. reflexivity.
  - rewrite IH, <- app_assoc. simpl. do 2 f_equal.
    unfold fromCharCode. pose proof (Byte.to_N_bounded b). lia.
Qed.

Lemma byte_of_to_N b : byte_of_N (Byte.to_N b) = b.
Proof.
  unfold byte_of_N. pose proof (Byte.to_N_bounded b).
  replace (Byte.to_N b mod 256) with (Byte.to_N b) by lia.
  rewrite Byte.of_to_N. reflexivity.
Qed.

(** C10. [base64ToArrayBuffer] is a left inverse of [arrayBufferToBase64]:
    for every byte buffer [b] the encoding succeeds, and decoding its result
    returns a buffer with exactly the bytes of [b] (hence of the same length). *)
Theorem base64_roundtrip (b : list Byte.byte) :
  ∃ s, arrayBufferToBase64 b = Some s ∧ base64ToArrayBuffer s = Some b.
Proof.
  assert (Hb : Forall (λ c, c < 256) (map Byte.to_N b)).
  { apply List.Forall_forall. intros x Hx. apply in_map_iff in Hx as [y [<- _]].
    pose proof (Byte.to_N_bounded y). lia. }
  exists (encode (map Byte.to_N b)). split.
  - unfold arrayBufferToBase64. rewrite binary_of_bytes. simpl.
    apply btoa_bytes, Hb.
  - unfold base64ToArrayBuffer. rewrite atob_encode by exact Hb. simpl.
    unfold charCodes. rewrite map_map. f_equal.
    rewrite <- (map_id b) at 2. apply map_ext. intros a. apply byte_of_to_N.
Qed.

End Base64Facts.

(* ===================================================================== *)
(** * The SDP exchange: base64 of JSON *)
(* ===================================================================== *)

Section JsonFacts.
Import Js Json.

Lemma hex_value_digit d : d < 16 → hex_value (hex_digit d) = Some d.
Proof.
  intros Hd. unfold hex_digit. destruct (N.ltb_spec d 10); unfold hex_value;
    cases_cmp; simpl; first [f_equal; lia | lia].
Qed.

Lemma hex_digit_latin1 d : d < 16 → hex_digit d < 256.
Proof. intros Hd. unfold hex_digit. destruct (N.ltb_spec d 10); lia. Qed.

(** Reading back an escape [\uXXXX]. *)
Lemma parse_unicode_escape c rest :
  c < 65536 →
  parse_chars (unicode_escape c ++ rest) =
  match parse_chars rest with
  | Some (v, rest') => Some (c :: v, rest')
  | None => None
  end.
Proof.
  intros Hc. unfold unicode_escape. cbn [app parse_chars].
  change (92 =? 34) with false. change (92 =? 92) with true.
  change (117 =? 117) with true. cbv iota.
  rewrite !hex_value_digit by lia.
  destruct (parse_chars rest) as [[v rest']|]; [|reflexivity].
  do 2 f_equal. f_equal. lia.
Qed.

(** Reading back one escaped code unit that is not a surrogate. *)
Lemma parse_escape_char c rest :
  c < 256 →
  parse_chars (escape_char c ++ rest) =
  match parse_chars rest with
  | Some (v, rest') => Some (c :: v, rest')
  | None => None
  end.
Proof.
  intros Hc. unfold escape_char.
  destruct (N.eqb_spec c 8) as [->|?]; [reflexivity|].
  destruct (N.eqb_spec c 9) as [->|?]; [reflexivity|].
  destruct (N.eqb_spec c 10) as [->|?]; [reflexivity|].
  destruct (N.eqb_spec c 12) as [->|?]; [reflexivity|].
  destruct (N.eqb_spec c 13) as [->|?]; [reflexivity|].
  destruct (N.eqb_spec c 34) as [->|?]; [reflexivity|].
  destruct (N.eqb_spec c 92) as [->|?]; [reflexivity|].
  destruct (N.ltb_spec c 32) as [?|?].
  - apply parse_unicode_escape. lia.
  - cbn [app parse_chars].
    destruct (N.eqb_spec c 34); [contradiction|].
    destruct (N.eqb_spec c 92); [contradiction|].
    destruct (N.ltb_spec c 32); [lia|]. reflexivity.
Qed.

Lemma latin1_no_surrogate c :
  c < 256 → is_high_surrogate c = false ∧ is_low_surrogate c = false.
Proof.
  intros Hc. unfold is_high_surrogate, is_low_surrogate.
  split; apply andb_false_iff; left; apply N.leb_gt; lia.
Qed.

Lemma quote_chars_cons c r :
  c < 256 → quote_chars (c :: r) = escape_char c ++ quote_chars r.
Proof.
  intros Hc. destruct (latin1_no_surrogate c Hc) as [Hh Hl].
  cbn [quote_chars]. rewrite Hh, Hl. reflexivity.
Qed.

Lemma skip_ws_quote s rest : skip_ws (quote s ++ rest) = quote s ++ rest.
Proof. reflexivity. Qed.

Lemma surrogate_bounds c :
  is_high_surrogate c || is_low_surrogate c = true → 255 < c ∧ c < 65536.
Proof.
  unfold is_high_surrogate, is_low_surrogate. intros H.
  apply orb_true_iff in H as [H|H]; apply andb_true_iff in H as [H1 H2];
    apply N.leb_le in H1, H2; lia.
Qed.

Lemma latin1_escape_char_inv c : latin1 (escape_char c) → c < 256.
Proof.
  unfold escape_char, latin1.
  repeat match goal with
         | |- context [N.eqb ?a ?b] => destruct (N.eqb_spec a b); [intros _; lia|]
         end.
  destruct (N.ltb_spec c 32); [intros _; lia|].
  intros Hc. inversion_clear Hc. assumption.
Qed.

(** The text between the quotes reads back as the string, for every string
    that [btoa] takes after quoting: a lone surrogate was escaped and comes
    back from its escape, and a surrogate pair is not below 256. *)
Lemma parse_quote_chars_any s : ∀ rest,
  latin1 (quote_chars s) → parse_chars (quote_chars s ++ 34 :: rest) = Some (s, rest).
Proof.
  assert (Hlone : ∀ c r rest,
            is_high_surrogate c || is_low_surrogate c = true →
            parse_chars (quote_chars r ++ 34 :: rest) = Some (r, rest) →
            parse_chars ((unicode_escape c ++ quote_chars r) ++ 34 :: rest)
            = Some (c :: r, rest)).
  { intros c r rest Hc Hr. rewrite <- app_assoc.
    rewrite parse_unicode_escape by (apply surrogate_bounds in Hc; lia).
    rewrite Hr. reflexivity. }
  induction s as [|c r IH]; intros rest Hl; [reflexivity|].
  cbn [quote_chars] in *.
  destruct (is_high_surrogate c) eqn:Hh.
  - destruct r as [|c2 r2].
    + rewrite <- (app_nil_r (unicode_escape c)).
      apply (Hlone c [] rest); [rewrite Hh; reflexivity|reflexivity].
    + destruct (is_low_surrogate c2) eqn:Hl2.
      * exfalso. inversion_clear Hl as [|? ? Hc _].
        assert (H : is_high_surrogate c || is_low_surrogate c = true)
          by (rewrite Hh; reflexivity).
        apply surrogate_bounds in H. lia.
      * apply Hlone; [rewrite Hh; reflexivity|].
        apply IH. apply Forall_app in Hl as [_ Hl]. exact Hl.
  - destruct (is_low_surrogate c) eqn:Hlo.
    + apply Hlone; [rewrite Hlo; apply orb_true_r|].
      apply IH. apply Forall_app in Hl as [_ Hl]. exact Hl.
    + apply Forall_app in Hl as [Hc Hl]. rewrite <- app_assoc.
      rewrite parse_escape_char by (apply latin1_escape_char_inv, Hc).
      rewrite IH by exact Hl. reflexivity.
Qed.

(** A quoted string as a value. *)
Lemma parse_value_quote fuel s rest :
  latin1 (quote_chars s) →
  parse_value (S fuel) (quote s ++ rest) = Some (JString s, rest).
Proof.
  intros Hs. unfold quote. cbn [app parse_value skip_ws].
  change (is_json_whitespace 34) with false. cbv iota.
  change (34 =? 34) with true. cbv iota.
  rewrite <- app_assoc. cbn [app].
  rewrite parse_quote_chars_any by exact Hs. reflexivity.
Qed.

Lemma parse_string_quote_any s rest :
  latin1 (quote_chars s) → parse_string (quote s ++ rest) = Some (s, rest).
Proof.
  intros Hs. unfold quote. cbn [app parse_string].
  change (34 =? 34) with true. cbv iota.
  rewrite <- app_assoc. apply parse_quote_chars_any, Hs.
Qed.

Lemma latin1_quote_chars_lit_type : latin1 (quote_chars (lit "type")).
Proof. repeat constructor. Qed.

Lemma latin1_quote_chars_lit_sdp : latin1 (quote_chars (lit "sdp")).
Proof. repeat constructor. Qed.

(** Two members with string values and the closing brace. *)
Lemma parse_members_two fuel k1 v1 k2 v2 :
  k1 ≠ k2 →
  latin1 (quote_chars k1) → latin1 (quote_chars v1) →
  latin1 (quote_chars k2) → latin1 (quote_chars v2) →
  parse_members (S (S (S fuel))) []
    (quote k1 ++ 58 :: quote v1 ++ 44 :: quote k2 ++ 58 :: quote v2 ++ [125])
  = Some (JObject [(k1, JString v1); (k2, JString v2)], []).
Proof.
  intros Hne Hk1 Hv1 Hk2 Hv2.
  cbn [parse_members]. rewrite (parse_string_quote_any k1) by exact Hk1.
  cbn [skip_ws]. change (is_json_whitespace 58) with false. cbv iota.
  change (58 =? 58) with true. cbv iota.
  rewrite (parse_value_quote _ v1) by exact Hv1.
  cbn [skip_ws]. change (is_json_whitespace 44) with false. cbv iota.
  change (44 =? 44) with true. cbv iota.
  rewrite skip_ws_quote, (parse_string_quote_any k2) by exact Hk2.
  cbn [skip_ws]. change (is_json_whitespace 58) with false. cbv iota.
  change (58 =? 58) with true. cbv iota.
  rewrite (parse_value_quote _ v2) by exact Hv2.
  cbn [skip_ws set_member]. rewrite bool_decide_eq_false_2 by exact Hne.
  reflexivity.
Qed.

(** [JSON.parse] reads back what [JSON.stringify] wrote, whenever every
    code unit of the text is below 256. *)
Lemma parse_stringify_any d :
  latin1 (stringify d) → parse (stringify d) = Some (to_object d).
Proof.
  intros Hl. unfold stringify in Hl.
  repeat (apply Forall_app in Hl as [? Hl]).
  assert (Ht : latin1 (quote_chars (type d))).
  { match goal with H : Forall _ (quote (type d)) |- _ =>
      unfold quote in H; apply Forall_app in H as [_ H];
      apply Forall_app in H as [H _]; exact H end. }
  assert (Hs : latin1 (quote_chars (sdp d))).
  { match goal with H : Forall _ (quote (sdp d)) |- _ =>
      unfold quote in H; apply Forall_app in H as [_ H];
      apply Forall_app in H as [H _]; exact H end. }
  unfold parse.
  change (stringify d) with
    (123 :: quote (lit "type") ++ 58 :: quote (type d) ++ 44
         :: quote (lit "sdp") ++ 58 :: quote (sdp d) ++ [125]).
  set (body := quote (lit "type") ++ _).
  assert (Hbody : ∃ tl, body = 34 :: 116 :: 121 :: tl) by (eexists; reflexivity).
  destruct Hbody as [tl Hbody].
  assert (Hlen : ∃ n, (2 * length (123%N :: body) = S (S (S n)))%nat).
  { rewrite Hbody. cbn [length]. exists (2 * length tl + 5)%nat. lia. }
  destruct Hlen as [n ->].
  pose proof (parse_members_two n (lit "type") (type d) (lit "sdp") (sdp d)
                ltac:(discriminate) latin1_quote_chars_lit_type Ht
                latin1_quote_chars_lit_sdp Hs) as Hm.
  fold body in Hm.
  cbn [parse_value skip_ws]. change (is_json_whitespace 123) with false. cbv iota.
  change (123 =? 34) with false. change (123 =? 123) with true. cbv iota.
  rewrite Hbody in *. cbn [skip_ws].
  change (is_json_whitespace 34) with false. cbv iota.
  change (34 =? 125) with false. cbv iota.
  rewrite Hm. reflexivity.
Qed.

Lemma latin1_lit_type : latin1 (lit "type").
Proof. repeat constructor. Qed.

Lemma latin1_lit_sdp : latin1 (lit "sdp").
Proof. repeat constructor. Qed.

Lemma latin1_escape_char c : c < 256 → latin1 (escape_char c).
Proof.
  intros Hc. unfold latin1, escape_char, unicode_escape.
  repeat match goal with |- context [if ?b then _ else _] => destruct b end;
    repeat (constructor; [first [lia | apply hex_digit_latin1; lia]|]); constructor.
Qed.

Lemma latin1_quote s : latin1 s → latin1 (quote s).
Proof.
  intros Hs. unfold quote, latin1. apply Forall_app. split; [repeat constructor|].
  apply Forall_app. split; [|repeat constructor].
  induction Hs as [|c r Hc _ IH]; [constructor|].
  rewrite quote_chars_cons by exact Hc. apply Forall_app. split; [|exact IH].
  apply latin1_escape_char, Hc.
Qed.

Lemma latin1_stringify d : latin1 (type d) → latin1 (sdp d) → latin1 (stringify d).
Proof.
  intros Ht Hs. unfold stringify, latin1.
  assert (Hc : ∀ c, c < 256 → Forall (λ x, x < 256) [c])
    by (intros c Hc; repeat constructor; exact Hc).
  apply Forall_app; split; [apply Hc; lia|].
  apply Forall_app; split; [apply latin1_quote, latin1_lit_type|].
  apply Forall_app; split; [apply Hc; lia|].
  apply Forall_app; split; [apply latin1_quote, Ht|].
  apply Forall_app; split; [apply Hc; lia|].
  apply Forall_app; split; [apply latin1_quote, latin1_lit_sdp|].
  apply Forall_app; split; [apply Hc; lia|].
  apply Forall_app; split; [apply latin1_quote, Hs|].
  apply Hc; lia.
Qed.

Lemma latin1_forallb (s : jsstring) : forallb (λ c, c <=? 255) s = true → latin1 s.
Proof.
  intros H. apply List.Forall_forall. intros c Hc.
  rewrite forallb_forall in H. specialize (H c Hc). apply N.leb_le in H. lia.
Qed.

Lemma btoa_Some (s b : jsstring) :
  Base64.btoa s = Some b → latin1 s ∧ b = Base64.encode s.
Proof.
  unfold Base64.btoa. destruct (forallb _ s) eqn:E; [|discriminate].
  intros [= <-]. split; [apply latin1_forallb, E|reflexivity].
Qed.

Lemma btoa_above (s : jsstring) c : In c s → 255 < c → Base64.btoa s = None.
Proof.
  intros Hin Hc. destruct (Base64.btoa s) as [b|] eqn:E; [|reflexivity].
  apply btoa_Some in E as [Hl _]. unfold latin1 in Hl.
  rewrite List.Forall_forall in Hl. specialize (Hl c Hin). lia.
Qed.

(** [JSON.stringify] leaves a code unit above U+00FF that is not a
    surrogate as it is. *)
Lemma quote_chars_keeps c : ∀ n (s : jsstring), (length s ≤ n)%nat →
  In c s → 255 < c → is_high_surrogate c || is_low_surrogate c = false →
  In c (quote_chars s).
Proof.
  intros n. induction n as [|n IH]; intros s Hn Hin Hc Hsur.
  { destruct s; [destruct Hin|cbn in Hn; lia]. }
  apply orb_false_iff in Hsur as [Hh Hl].
  destruct s as [|c0 r]; [destruct Hin|]. cbn [length] in Hn.
  assert (Hkeep : c = c0 → In c (escape_char c0)).
  { intros <-. unfold escape_char.
    repeat match goal with
           | |- context [N.eqb ?a ?b] => destruct (N.eqb_spec a b); [lia|]
           end.
    destruct (N.ltb_spec c 32); [lia|]. left. reflexivity. }
  cbn [quote_chars].
  destruct (is_high_surrogate c0) eqn:Hh0.
  - destruct Hin as [<-|Hin]; [congruence|].
    destruct r as [|c2 r2]; [destruct Hin|].
    destruct (is_low_surrogate c2) eqn:Hl2.
    + destruct Hin as [<-|Hin]; [congruence|].
      right. right. apply (IH r2); [cbn [length] in Hn; lia|exact Hin|exact Hc|].
      rewrite Hh, Hl. reflexivity.
    + apply in_or_app. right.
      apply (IH (c2 :: r2)); [lia|exact Hin|exact Hc|]. rewrite Hh, Hl. reflexivity.
  - destruct (is_low_surrogate c0) eqn:Hl0.
    + destruct Hin as [<-|Hin]; [congruence|].
      apply in_or_app. right.
      apply (IH r); [lia|exact Hin|exact Hc|]. rewrite Hh, Hl. reflexivity.
    + apply in_or_app. destruct Hin as [<-|Hin]; [left; apply Hkeep; reflexivity|].
      right. apply (IH r); [lia|exact Hin|exact Hc|]. rewrite Hh, Hl. reflexivity.
Qed.

Lemma stringify_keeps d c :
  In c (type d) ∨ In c (sdp d) → 255 < c →
  is_high_surrogate c || is_low_surrogate c = false → In c (stringify d).
Proof.
  intros Hin Hc Hsur. unfold stringify, quote.
  destruct Hin as [Hin|Hin];
    pose proof (quote_chars_keeps c _ _ (le_n _) Hin Hc Hsur) as Hq;
    rewrite !in_app_iff; tauto.
Qed.

(** C2, as amended. Whenever [btoa(JSON.stringify(d))] succeeds,
    [JSON.parse(atob(..))] of its result is the object with the [type] and
    the [sdp] of [d].  It succeeds for every session description whose
    [type] and [sdp] contain only code units up to U+00FF.  When [type] or
    [sdp] contains a code unit above U+00FF that is not a surrogate, [btoa]
    throws: the page sends no offer, it only reports that the set-up failed. *)
Theorem sdp_exchange_roundtrip d :
  (∀ sdpBase64, encode_sdp d = Some sdpBase64 →
     decode_sdp sdpBase64 = Some (to_object d)) ∧
  (latin1 (type d) → latin1 (sdp d) → ∃ sdpBase64, encode_sdp d = Some sdpBase64) ∧
  (∀ c, In c (type d) ∨ In c (sdp d) → 255 < c →
     is_high_surrogate c || is_low_surrogate c = false →
     encode_sdp d = None ∧
     ∀ st, Session.offer_then d st
           = (Session.addMessage (lit "system") (lit "WebRTC setup failed") st, [])).
Proof.
  split; [|split].
  - intros b Hb. unfold encode_sdp in Hb. apply btoa_Some in Hb as [Hl ->].
    unfold decode_sdp. rewrite atob_encode by exact Hl.
    cbn. apply parse_stringify_any, Hl.
  - intros Ht Hs. exists (Base64.encode (stringify d)).
    unfold encode_sdp. apply btoa_bytes, latin1_stringify; assumption.
  - intros c Hin Hc Hsur.
    assert (He : encode_sdp d = None).
    { unfold encode_sdp. apply (btoa_above _ c); [|exact Hc].
      apply stringify_keeps; assumption. }
    split; [exact He|]. intros st. unfold Session.offer_then. rewrite He. reflexivity.
Qed.

End JsonFacts.

(** A description with a character above U+00FF (here the euro sign in the
    session name) is not encoded: [btoa] throws, and no offer is sent. *)
Lemma sdp_exchange_counterexample :
  let d := Json.Description (Js.lit "offer")
             (Js.lit "v=0" ++ [13; 10] ++ Js.lit "s=" ++ [8364] ++ [13; 10]) in
  Json.encode_sdp d = None ∧
  ¬ ∃ sdpBase64, Json.encode_sdp d = Some sdpBase64 ∧
                 Json.decode_sdp sdpBase64 = Some (Json.to_object d).
Proof.
  intros d. assert (H : Json.encode_sdp d = None) by (vm_compute; reflexivity).
  split; [exact H|]. intros (b & Hb & _). rewrite H in Hb. discriminate.
Qed.

(** Witness of [sdp_exchange_roundtrip]: an offer with quotes, a backslash,
    line breaks and a lone surrogate in its SDP. *)
Lemma sdp_exchange_roundtrip_witness :
  let d := Json.Description (Js.lit "offer")
             (Js.lit "v=0" ++ [13; 10] ++ Js.lit "s=-" ++ [34; 92; 233; 55357]
                ++ [13; 10]) in
  ∃ sdpBase64, Json.encode_sdp d = Some sdpBase64 ∧
               Json.decode_sdp sdpBase64 = Some (Json.to_object d).
Proof.
  intros d.
  assert (He : ∃ b, Json.encode_sdp d = Some b) by (eexists; vm_compute; reflexivity).
  destruct He as [b He]. exists b. split; [exact He|].
  exact (proj1 (sdp_exchange_roundtrip d) b He).
Defined.

(* ===================================================================== *)
(** * [JSON.parse]: the fuel is never used up *)
(* ===================================================================== *)

Section JsonFuel.
Import Js Json.
Local Open Scope nat_scope.

Lemma skip_ws_length (s : jsstring) : length (skip_ws s) ≤ length s.
Proof.
  induction s as [|c r IH]; cbn [skip_ws]; [lia|].
  destruct (is_json_whitespace c); cbn [length]; lia.
Qed.

Lemma parse_chars_shorter : ∀ n (s v rest : jsstring),
  length s ≤ n → parse_chars s = Some (v, rest) → length rest < length s.
Proof.
  induction n as [|n IH]; intros s v rest Hn.
  { destruct s; [discriminate|cbn in Hn; lia]. }
  destruct s as [|c r]; [discriminate|]. cbn [length] in Hn. cbn [parse_chars].
  destruct (c =? 34)%N; [intros [= <- <-]; cbn [length]; lia|].
  destruct (c =? 92)%N.
  - destruct r as [|e r1]; [discriminate|].
    destruct (e =? 117)%N.
    + destruct r1 as [|h3 [|h2 [|h1 [|h0 r2]]]]; try discriminate.
      destruct (hex_value h3), (hex_value h2), (hex_value h1), (hex_value h0);
        try discriminate.
      destruct (parse_chars r2) as [[v' rest']|] eqn:E; [|discriminate].
      intros [= <- <-]. apply IH in E; cbn [length] in *; lia.
    + destruct (unescape e); [|discriminate].
      destruct (parse_chars r1) as [[v' rest']|] eqn:E; [|discriminate].
      intros [= <- <-]. apply IH in E; cbn [length] in *; lia.
  - destruct (c <? 32)%N; [discriminate|].
    destruct (parse_chars r) as [[v' rest']|] eqn:E; [|discriminate].
    intros [= <- <-]. apply IH in E; cbn [length] in *; lia.
Qed.

Lemma parse_string_shorter (s k rest : jsstring) :
  parse_string s = Some (k, rest) → length rest < length s.
Proof.
  destruct s as [|c r]; [discriminate|]. cbn [parse_string].
  destruct (c =? 34)%N; [|discriminate].
  intros H. apply (parse_chars_shorter _ _ _ _ (le_n _)) in H. cbn [length]. lia.
Qed.

Lemma strip_prefix_length (p s rest : jsstring) :
  strip_prefix p s = Some rest → length rest + length p = length s.
Proof.
  revert s. induction p as [|c p IH]; intros s; cbn [strip_prefix].
  - intros [= <-]. cbn. lia.
  - destruct s as [|d s']; [discriminate|].
    destruct (c =? d)%N; [|discriminate]. intros H. apply IH in H. cbn [length]. lia.
Qed.

Lemma take_digits_length (s : jsstring) :
  length (take_digits s).2 ≤ length s.
Proof.
  induction s as [|c r IH]; cbn [take_digits]; [cbn; lia|].
  destruct (is_digit c); [|cbn; lia].
  destruct (take_digits r) as [ds rest]. cbn [snd length] in *. lia.
Qed.

Lemma parse_int_shorter (s l rest : jsstring) :
  parse_int s = Some (l, rest) → length rest < length s.
Proof.
  destruct s as [|c r]; [discriminate|]. cbn [parse_int].
  destruct (c =? 48)%N; [intros [= <- <-]; cbn; lia|].
  destruct (is_digit c); [|discriminate].
  pose proof (take_digits_length r) as H. destruct (take_digits r) as [ds rest'].
  intros [= <- <-]. cbn [snd length] in *. lia.
Qed.

Lemma parse_frac_length (s l rest : jsstring) :
  parse_frac s = Some (l, rest) → length rest ≤ length s.
Proof.
  destruct s as [|c r]; cbn [parse_frac]; [intros [= <- <-]; lia|].
  destruct (c =? 46)%N; [|intros [= <- <-]; lia].
  pose proof (take_digits_length r) as H. destruct (take_digits r) as [[|d ds] rest'];
    [discriminate|]. intros [= <- <-]. cbn [snd length] in *. lia.
Qed.

Lemma parse_exp_length (s l rest : jsstring) :
  parse_exp s = Some (l, rest) → length rest ≤ length s.
Proof.
  destruct s as [|c r]; cbn [parse_exp]; [intros [= <- <-]; lia|].
  destruct ((c =? 101) || (c =? 69))%N; [|intros [= <- <-]; lia].
  destruct r as [|c' r'].
  - cbn. discriminate.
  - destruct ((c' =? 43) || (c' =? 45))%N.
    + pose proof (take_digits_length r') as H'.
      destruct (take_digits r') as [[|d ds] rest']; [discriminate|].
      intros [= <- <-]. cbn [snd length] in *. lia.
    + pose proof (take_digits_length (c' :: r')) as H'.
      destruct (take_digits (c' :: r')) as [[|d ds] rest']; [discriminate|].
      intros [= <- <-]. cbn [snd length] in *. lia.
Qed.

Lemma parse_number_shorter (s l rest : jsstring) :
  parse_number s = Some (l, rest) → length rest < length s.
Proof.
  unfold parse_number.
  assert (H : ∀ (sign s0 : jsstring), length s0 ≤ length s →
            ('(int, s1) ← parse_int s0; '(frac, s2) ← parse_frac s1;
             '(exp, s3) ← parse_exp s2; Some (sign ++ int ++ frac ++ exp, s3))
            = Some (l, rest) → length rest < length s).
  { intros sign s0 Hs0.
    destruct (parse_int s0) as [[int s1]|] eqn:E1; [|discriminate].
    cbn. destruct (parse_frac s1) as [[frac s2]|] eqn:E2; [|discriminate].
    cbn. destruct (parse_exp s2) as [[exp s3]|] eqn:E3; [|discriminate].
    cbn. intros [= _ <-].
    apply parse_int_shorter in E1. apply parse_frac_length in E2.
    apply parse_exp_length in E3. lia. }
  destruct s as [|c r]; [apply (H [] []); cbn; lia|].
  destruct (c =? 45)%N; [apply (H [45%N] r); cbn; lia|apply (H [] (c :: r)); lia].
Qed.

(** What a value, the members of an object or the elements of an array
    leave is shorter than the text they were read from. *)
Lemma parse_shorter fuel :
  (∀ (s : jsstring) v rest, parse_value fuel s = Some (v, rest) →
     length rest < length s) ∧
  (∀ acc (s : jsstring) v rest, parse_members fuel acc s = Some (v, rest) →
     length rest < length s) ∧
  (∀ acc (s : jsstring) v rest, parse_elements fuel acc s = Some (v, rest) →
     length rest < length s).
Proof.
  induction fuel as [|fuel (IHv & IHm & IHe)]; [repeat split; discriminate|].
  split; [|split].
  - intros s v rest. cbn [parse_value].
    pose proof (skip_ws_length s) as Hs.
    destruct (skip_ws s) as [|c r]; [discriminate|]. cbn [length] in Hs.
    destruct (c =? 34)%N.
    { destruct (parse_chars r) as [[str rest']|] eqn:E; [|discriminate].
      intros [= _ <-]. apply (parse_chars_shorter _ _ _ _ (le_n _)) in E. lia. }
    destruct (c =? 123)%N.
    { pose proof (skip_ws_length r) as Hr.
      destruct (skip_ws r) as [|c' r']; [discriminate|]. cbn [length] in Hr.
      destruct (c' =? 125)%N; [intros [= _ <-]; lia|].
      intros H. apply IHm in H. cbn [length] in H. lia. }
    destruct (c =? 91)%N.
    { pose proof (skip_ws_length r) as Hr.
      destruct (skip_ws r) as [|c' r']; [discriminate|]. cbn [length] in Hr.
      destruct (c' =? 93)%N; [intros [= _ <-]; lia|].
      intros H. apply IHe in H. cbn [length] in H. lia. }
    destruct (strip_prefix (lit "true") (c :: r)) as [rest'|] eqn:E1.
    { intros [= _ <-]. apply strip_prefix_length in E1.
      change (length (lit "true")) with 4 in E1. cbn [length] in E1. lia. }
    destruct (strip_prefix (lit "false") (c :: r)) as [rest'|] eqn:E2.
    { intros [= _ <-]. apply strip_prefix_length in E2.
      change (length (lit "false")) with 5 in E2. cbn [length] in E2. lia. }
    destruct (strip_prefix (lit "null") (c :: r)) as [rest'|] eqn:E3.
    { intros [= _ <-]. apply strip_prefix_length in E3.
      change (length (lit "null")) with 4 in E3. cbn [length] in E3. lia. }
    destruct (parse_number (c :: r)) as [[l rest']|] eqn:E4; [|discriminate].
    intros [= _ <-]. apply parse_number_shorter in E4. cbn [length] in E4. lia.
  - intros acc s v rest. cbn [parse_members].
    destruct (parse_string s) as [[key s1]|] eqn:E; [|discriminate].
    apply parse_string_shorter in E.
    pose proof (skip_ws_length s1) as Hs1.
    destruct (skip_ws s1) as [|c s2]; [discriminate|]. cbn [length] in Hs1.
    destruct (c =? 58)%N; [|discriminate].
    destruct (parse_value fuel s2) as [[v' s3]|] eqn:Ev; [|discriminate].
    apply IHv in Ev. cbv zeta.
    pose proof (skip_ws_length s3) as Hs3.
    destruct (skip_ws s3) as [|c' s4]; [discriminate|]. cbn [length] in Hs3.
    destruct (c' =? 44)%N.
    { intros H. apply IHm in H. pose proof (skip_ws_length s4). lia. }
    destruct (c' =? 125)%N; [|discriminate]. intros [= _ <-]. lia.
  - intros acc s v rest. cbn [parse_elements].
    destruct (parse_value fuel s) as [[v' s1]|] eqn:Ev; [|discriminate].
    apply IHv in Ev. cbv zeta.
    pose proof (skip_ws_length s1) as Hs1.
    destruct (skip_ws s1) as [|c s2]; [discriminate|]. cbn [length] in Hs1.
    destruct (c =? 44)%N.
    { intros H. apply IHe in H. lia. }
    destruct (c =? 93)%N; [|discriminate]. intros [= _ <-]. lia.
Qed.

(** More fuel than twice the length of the text changes nothing. *)
Lemma parse_fuel fuel : ∀ fuel',
  (∀ s : jsstring, 2 * length s + 1 ≤ fuel → 2 * length s + 1 ≤ fuel' →
     parse_value fuel s = parse_value fuel' s) ∧
  (∀ acc (s : jsstring), 2 * length s + 2 ≤ fuel → 2 * length s + 2 ≤ fuel' →
     parse_members fuel acc s = parse_members fuel' acc s) ∧
  (∀ acc (s : jsstring), 2 * length s + 2 ≤ fuel → 2 * length s + 2 ≤ fuel' →
     parse_elements fuel acc s = parse_elements fuel' acc s).
Proof.
  induction fuel as [|fuel IH]; intros fuel'.
  { repeat split; intros; lia. }
  destruct fuel' as [|fuel']; [repeat split; intros; lia|].
  destruct (IH fuel') as (IHv & IHm & IHe).
  destruct (parse_shorter fuel) as (Sv & _ & _).
  split; [|split].
  - intros s H1 H2. cbn [parse_value].
    pose proof (skip_ws_length s) as Hs.
    destruct (skip_ws s) as [|c r]; [reflexivity|]. cbn [length] in Hs.
    destruct (c =? 34)%N; [reflexivity|].
    destruct (c =? 123)%N.
    { pose proof (skip_ws_length r) as Hr.
      destruct (skip_ws r) as [|c' r']; [reflexivity|]. cbn [length] in Hr.
      destruct (c' =? 125)%N; [reflexivity|]. apply IHm; cbn [length]; lia. }
    destruct (c =? 91)%N; [|reflexivity].
    pose proof (skip_ws_length r) as Hr.
    destruct (skip_ws r) as [|c' r']; [reflexivity|]. cbn [length] in Hr.
    destruct (c' =? 93)%N; [reflexivity|]. apply IHe; cbn [length]; lia.
  - intros acc s H1 H2. cbn [parse_members].
    destruct (parse_string s) as [[key s1]|] eqn:E; [|reflexivity].
    apply parse_string_shorter in E.
    pose proof (skip_ws_length s1) as Hs1.
    destruct (skip_ws s1) as [|c s2]; [reflexivity|]. cbn [length] in Hs1.
    destruct (c =? 58)%N; [|reflexivity].
    rewrite <- (IHv s2) by lia.
    destruct (parse_value fuel s2) as [[v' s3]|] eqn:Ev; [|reflexivity].
    apply Sv in Ev. cbv zeta.
    pose proof (skip_ws_length s3) as Hs3.
    destruct (skip_ws s3) as [|c' s4]; [reflexivity|]. cbn [length] in Hs3.
    destruct (c' =? 44)%N; [|reflexivity].
    pose proof (skip_ws_length s4). apply IHm; lia.
  - intros acc s H1 H2. cbn [parse_elements].
    rewrite <- (IHv s) by lia.
    destruct (parse_value fuel s) as [[v' s1]|] eqn:Ev; [|reflexivity].
    apply Sv in Ev. cbv zeta.
    pose proof (skip_ws_length s1) as Hs1.
    destruct (skip_ws s1) as [|c s2]; [reflexivity|]. cbn [length] in Hs1.
    destruct (c =? 44)%N; [|reflexivity]. apply IHe; lia.
Qed.

(** [JSON.parse] does not depend on its fuel: any amount above twice the
    length of the text gives the value [parse] returns. *)
Lemma parse_fuel_enough (text : jsstring) fuel :
  2 * length text + 1 ≤ fuel →
  parse_value fuel text = parse_value (S (2 * length text)) text.
Proof. intros H. apply parse_fuel; lia. Qed.

End JsonFuel.

(* ===================================================================== *)
(** * PCM16 conversion of captured samples *)
(* ===================================================================== *)

Section Pcm16Facts.
Import Num Pcm16.
Local Open Scope Z_scope.

Lemma Qltb_spec a b : reflect (a < b)%Q (Qltb a b).
Proof.
  unfold Qltb. destruct (Qle_bool b a) eqn:E; constructor.
  - apply Qle_bool_iff in E. lra.
  - apply Qnot_le_lt. intros Hle. apply Qle_bool_iff in Hle. congruence.
Qed.

Lemma trunc_nonneg q : (0 <= q)%Q → trunc q = Qfloor q.
Proof.
  destruct q as [n d]. unfold Qle, trunc, Qfloor. simpl. intros Hn.
  apply Z.quot_div_nonneg; lia.
Qed.

Lemma trunc_nonpos q : (q <= 0)%Q → trunc q = Qceiling q.
Proof.
  destruct q as [n d]. unfold Qle, trunc, Qceiling, Qfloor. simpl. intros Hn.
  rewrite <- (Z.opp_involutive n) at 1. rewrite Z.quot_opp_l by lia.
  f_equal. apply Z.quot_div_nonneg; lia.
Qed.


Lemma wrap16_id z : -32768 <= z <= 32767 → wrap16 z = z.
Proof. intros Hz. unfold wrap16. lia. Qed.

Lemma wrap16_range z : -32768 <= wrap16 z <= 32767.
Proof. unfold wrap16. lia. Qed.

(** What the conversion computes on a finite sample, by position of the
    sample relative to -1, 0 and 1. *)
Lemma convert_fin_cases q :
  ((q <= -1 # 1)%Q ∧ convert (Fin q) = -32768) ∨
  ((-1 # 1 < q)%Q ∧ (q < 0)%Q ∧ convert (Fin q) = Qceiling (q * inject_Z 32768)) ∨
  ((0 <= q)%Q ∧ (q < 1)%Q ∧ convert (Fin q) = Qfloor (q * inject_Z 32767)) ∨
  ((1 <= q)%Q ∧ convert (Fin q) = 32767).
Proof.
  unfold convert, clamp, math_min. cbn [lt].
  destruct (Qltb_spec q 1) as [H1|H1].
  - unfold math_max. cbn [lt].
    destruct (Qltb_spec (-1 # 1) q) as [H2|H2].
    + unfold scale. cbn [lt].
      destruct (Qltb_spec q 0) as [H3|H3]; cbn [mul to_int16].
      * right; left. split; [lra|]. split; [lra|].
        rewrite trunc_nonpos by (unfold inject_Z; lra).
        apply wrap16_id.
        pose proof (Qceiling_resp_le (-32768 # 1) (q * inject_Z 32768)) as Hlo.
        pose proof (Qceiling_resp_le (q * inject_Z 32768) 0) as Hhi.
        change (Qceiling (-32768 # 1)) with (-32768) in Hlo.
        change (Qceiling 0) with 0 in Hhi.
        assert ((-32768 # 1) <= q * inject_Z 32768)%Q by (unfold inject_Z; lra).
        assert (q * inject_Z 32768 <= 0)%Q by (unfold inject_Z; lra).
        lia.
      * right; right; left. split; [lra|]. split; [lra|].
        rewrite trunc_nonneg by (unfold inject_Z; lra).
        apply wrap16_id.
        pose proof (Qfloor_resp_le 0 (q * inject_Z 32767)) as Hlo.
        pose proof (Qfloor_resp_le (q * inject_Z 32767) (32767 # 1)) as Hhi.
        change (Qfloor 0) with 0 in Hlo.
        change (Qfloor (32767 # 1)) with 32767 in Hhi.
        assert (0 <= q * inject_Z 32767)%Q by (unfold inject_Z; lra).
        assert (q * inject_Z 32767 <= 32767 # 1)%Q by (unfold inject_Z; lra).
        lia.
    + left. split; [lra|reflexivity].
  - right; right; right. split; [lra|reflexivity].
Qed.







Lemma process_cons buffer x data :
  process buffer (x :: data) =
  if (bufferSize <=? length (buffer ++ [x]))%nat
  then ((process [] data).1, map convert (buffer ++ [x]) :: (process [] data).2)
  else process (buffer ++ [x]) data.
Proof.
  cbn [process]. destruct (bufferSize <=? length (buffer ++ [x]))%nat; [|reflexivity].
  destruct (process [] data); reflexivity.
Qed.



End Pcm16Facts.

(* ===================================================================== *)
(** * Tool-call list updates *)
(* ===================================================================== *)

Section ToolCallFacts.
Import Js ToolCalls.
Context {any : Type}.
Implicit Types (prev : list (tool_call any)) (call : tool_call any).

Lemma update_matching_frame call_id u prev :
  (∀ call, id (u call) = id call) →
  frame_of call_id u prev (update_matching call_id u prev).
Proof.
  intros Hid. unfold frame_of, update_matching. repeat split.
  - apply length_map.
  - rewrite map_map. apply map_ext. intros call.
    destruct (decide (id call = call_id)); [apply Hid|reflexivity].
  - intros i call Hi Hne. rewrite list_lookup_fmap, Hi. simpl.
    destruct (decide (id call = call_id)); [contradiction|reflexivity].
  - intros i call Hi He. rewrite list_lookup_fmap, Hi. simpl.
    destruct (decide (id call = call_id)); [reflexivity|contradiction].
Qed.

(** C7. Each updating handler changes exactly the entries whose [id] is the
    event's [call_id]: [onToolCallArguments] replaces their [arguments] by
    those of the event, [onToolCallExecuting] sets their status to
    [executing], [onToolCallCompleted] sets it to [completed] and records
    the result and the execution time, [onToolCallError] sets it to [error]
    and records the error; every field not named is the entry's own.  Other
    entries, the order of ids and the length are kept.  [onToolCallStarted]
    appends one entry with status [started]. *)
Theorem tool_call_handlers_frame prev (call_id fname err : jsstring)
    (args res : any) (t ts : Num.number) :
  frame_of call_id
    (λ call, {| id := id call; function_name := function_name call;
                call_status := call_status call; arguments := Some args;
                result := result call; call_error := call_error call;
                execution_time := execution_time call;
                timestamp := timestamp call |})
    prev (onToolCallArguments call_id args prev) ∧
  frame_of call_id
    (λ call, {| id := id call; function_name := function_name call;
                call_status := executing; arguments := arguments call;
                result := result call; call_error := call_error call;
                execution_time := execution_time call;
                timestamp := timestamp call |})
    prev (onToolCallExecuting call_id prev) ∧
  frame_of call_id
    (λ call, {| id := id call; function_name := function_name call;
                call_status := completed; arguments := arguments call;
                result := Some res; call_error := call_error call;
                execution_time := Some t;
                timestamp := timestamp call |})
    prev (onToolCallCompleted call_id res t prev) ∧
  frame_of call_id
    (λ call, {| id := id call; function_name := function_name call;
                call_status := error; arguments := arguments call;
                result := result call; call_error := Some err;
                execution_time := execution_time call;
                timestamp := timestamp call |})
    prev (onToolCallError call_id err prev) ∧
  onToolCallStarted call_id fname ts prev
    = prev ++ [ToolCall call_id fname started None None None None ts] ∧
  length (onToolCallStarted call_id fname ts prev) = S (length prev).
Proof.
  split; [|split; [|split; [|split; [|split]]]].
  - apply (update_matching_frame call_id (with_arguments args)). reflexivity.
  - apply (update_matching_frame call_id (with_status executing)). reflexivity.
  - apply (update_matching_frame call_id (with_completed res t)). reflexivity.
  - apply (update_matching_frame call_id (with_error err)). reflexivity.
  - reflexivity.
  - unfold onToolCallStarted. rewrite length_app. simpl. lia.
Qed.

End ToolCallFacts.

(** Witness of [tool_call_handlers_frame]: two calls and an event for the
    second; its status becomes [executing], or [error] with the error
    recorded, and the first call is kept. *)
Lemma tool_call_handlers_frame_witness :
  let c1 := ToolCalls.ToolCall (any := nat) (Js.lit "a") (Js.lit "search")
              ToolCalls.started None None None None (Num.Fin 1) in
  let c2 := ToolCalls.ToolCall (any := nat) (Js.lit "b") (Js.lit "report")
              ToolCalls.started (Some 7%nat) None None None (Num.Fin 2) in
  ToolCalls.onToolCallExecuting (Js.lit "b") [c1; c2] !! 0%nat = Some c1 ∧
  ToolCalls.onToolCallExecuting (Js.lit "b") [c1; c2] !! 1%nat
    = Some (ToolCalls.ToolCall (Js.lit "b") (Js.lit "report")
              ToolCalls.executing (Some 7%nat) None None None (Num.Fin 2)) ∧
  ToolCalls.onToolCallError (Js.lit "b") (Js.lit "timeout") [c1; c2] !! 1%nat
    = Some (ToolCalls.ToolCall (Js.lit "b") (Js.lit "report")
              ToolCalls.error (Some 7%nat) None (Some (Js.lit "timeout")) None
              (Num.Fin 2)).
Proof.
  intros c1 c2.
  destruct (tool_call_handlers_frame [c1; c2] (Js.lit "b") [] (Js.lit "timeout")
              0%nat 0%nat (Num.Fin 0) (Num.Fin 0))
    as (_ & (_ & _ & Hother & Hmatch) & _ & (_ & _ & _ & Herr) & _).
  split; [|split].
  - apply (Hother 0%nat c1); [reflexivity | discriminate].
  - apply (Hmatch 1%nat c2); reflexivity.
  - apply (Herr 1%nat c2); reflexivity.
Defined.

(* ===================================================================== *)
(** * Playback scheduling *)
(* ===================================================================== *)

Section PlaybackFacts.
Import Js Playback.
Context {T : Type} {clock : Clock T}.
Implicit Types (st : state T) (msgs : list (T * jsstring)).

(** One message: it is scheduled exactly when it decodes to a non-empty
    buffer, at [start_time], and the next free time is the end of that buffer. *)
Lemma handleAudioDelta_spec now data st :
  match decoded data with
  | Some f =>
      handleAudioDelta now data st =
        (State true (add (start_time now st) (duration (length f))),
         Some (Scheduled (start_time now st) f))
  | None =>
      (handleAudioDelta now data st).2 = None ∧
      (playbackContext st = true → (handleAudioDelta now data st).1 = st)
  end.
Proof.
  unfold decoded, handleAudioDelta, start_time.
  destruct data as [|c data]; [split; reflexivity|].
  destruct (Util.base64ToArrayBuffer (c :: data)) as [buf|].
  2:{ split; [reflexivity|]. intros Hc. simpl. rewrite Hc. reflexivity. }
  destruct (int16_view buf) as [[|v l]|].
  - split; [reflexivity|]. intros Hc. simpl. rewrite Hc. reflexivity.
  - cbn [to_float32 map]. destruct (playbackContext st); reflexivity.
  - split; [reflexivity|]. intros Hc. simpl. rewrite Hc. reflexivity.
Qed.







End PlaybackFacts.


(* ===================================================================== *)
(** * The WebSocket video relay *)
(* ===================================================================== *)

Section VideoFacts.
Import Js Video.
Implicit Types (st : state) (evs : list event) (effs : list effect).

(** One invocation of [processVideoChunkQueue]: either nothing happens, or
    the guard holds and the head of the queue is the one chunk appended. *)
Lemma processVideoChunkQueue_spec accepted st :
  processVideoChunkQueue accepted st = (st, []) ∨
  ∃ b m next queue,
    sourceBuffer st = Some b ∧ mediaSource st = Some m ∧
    updating_of st b = false ∧ ready_of st m = open ∧
    videoChunksQueue st = next :: queue ∧
    processVideoChunkQueue accepted st =
      (State (mediaSource st) (sourceBuffer st) queue (videoChunkCount st) (sources st)
             (if accepted then <[b := true]> (buffers st) else buffers st),
       [AppendBuffer b next]).
Proof.
  unfold processVideoChunkQueue.
  destruct (sourceBuffer st) as [b|]; [|left; reflexivity].
  destruct (mediaSource st) as [m|]; [|left; reflexivity].
  destruct (updating_of st b) eqn:Eu; [left; reflexivity|].
  destruct (ready_of st m) eqn:Er; try (left; reflexivity).
  destruct (videoChunksQueue st) as [|next queue] eqn:Eq; [left; reflexivity|].
  right. exists b, m, next, queue. simpl. repeat split; first [reflexivity | assumption].
Qed.

(** What one step does to the queue and to the append log. *)
Lemma step_queue st e st' effs :
  step st e = (st', effs) →
  sublist (appended effs ++ videoChunksQueue st')
          (videoChunksQueue st ++ received [e]).
Proof.
  intros Hstep. destruct e as [supported| |data accepted|m added|m|m|b accepted];
    simpl in Hstep.
  - injection Hstep as <- <-. unfold setupWebSocketVideoPlayback.
    destruct supported; simpl; apply sublist_nil_l.
  - injection Hstep as <- <-. simpl. apply sublist_nil_l.
  - unfold handleVideoChunk in Hstep. unfold received, decode_chunk. simpl.
    destruct data as [|c data]; [injection Hstep as <- <-; simpl; by rewrite app_nil_r|].
    destruct (Base64.atob (c :: data)) as [bin|]; simpl.
    2:{ injection Hstep as <- <-. simpl. by rewrite app_nil_r. }
    match type of Hstep with processVideoChunkQueue _ ?s = _ =>
      destruct (processVideoChunkQueue_spec accepted s)
        as [E|(b & m & next & queue & _ & _ & _ & _ & Eq & E)];
      rewrite E in Hstep; injection Hstep as <- <- end.
    + simpl. reflexivity.
    + simpl in *. rewrite Eq. reflexivity.
  - injection Hstep as <- <-. unfold on_sourceopen. simpl.
    destruct (mediaSource st); [|simpl; by rewrite app_nil_r].
    match goal with |- context [if ?c then _ else _] => destruct c end;
      simpl; by rewrite app_nil_r.
  - injection Hstep as <- <-. simpl. by rewrite app_nil_r.
  - injection Hstep as <- <-. simpl. by rewrite app_nil_r.
  - match type of Hstep with processVideoChunkQueue _ ?s = _ =>
      destruct (processVideoChunkQueue_spec accepted s)
        as [E|(b' & m & next & queue & _ & _ & _ & _ & Eq & E)];
      rewrite E in Hstep; injection Hstep as <- <- end.
    + simpl. by rewrite app_nil_r.
    + simpl in *. rewrite Eq. by rewrite app_nil_r.
Qed.


Lemma received_app evs1 evs2 : received (evs1 ++ evs2) = received evs1 ++ received evs2.
Proof. unfold received. apply omap_app. Qed.

Lemma appended_app effs1 effs2 :
  appended (effs1 ++ effs2) = appended effs1 ++ appended effs2.
Proof. unfold appended. apply map_app. Qed.

(** Chunks leave the queue from its head, and only to be appended: what has
    been appended followed by what is still queued is a subsequence of what
    was queued followed by what arrived. *)
Lemma run_queue st evs :
  sublist (appended (run st evs).2 ++ videoChunksQueue (run st evs).1)
          (videoChunksQueue st ++ received evs).
Proof.
  revert st. induction evs as [|e evs IH]; intros st.
  - simpl. rewrite app_nil_r. reflexivity.
  - change (received (e :: evs)) with (received ([e] ++ evs)).
    cbn [run]. destruct (step st e) as [st1 out] eqn:Hstep.
    specialize (IH st1). destruct (run st1 evs) as [st2 outs].
    cbn [fst snd] in *. apply step_queue in Hstep.
    rewrite received_app, appended_app.
    rewrite <- app_assoc.
    transitivity (appended out ++ videoChunksQueue st1 ++ received evs).
    + apply sublist_app; [reflexivity|exact IH].
    + rewrite !app_assoc. apply sublist_app; [exact Hstep|reflexivity].
Qed.

(** The [updating] flag of a buffer stays set until its [updateend]. *)
Lemma step_keeps_updating st e b :
  updating_of st b = true →
  match e with UpdateEnd b' _ => b' ≠ b | _ => True end →
  updating_of (step st e).1 b = true ∧
  ∀ c, ¬ In (AppendBuffer b c) (step st e).2.
Proof.
  intros Hb He.
  assert (Hlt : (b < length (buffers st))%nat).
  { unfold updating_of in Hb. destruct (buffers st !! b) eqn:E; [|discriminate].
    eapply lookup_lt_Some, E. }
  assert (Hproc : ∀ accepted s, updating_of s b = true →
            updating_of (processVideoChunkQueue accepted s).1 b = true ∧
            ∀ c, ¬ In (AppendBuffer b c) (processVideoChunkQueue accepted s).2).
  { intros accepted s Hs.
    destruct (processVideoChunkQueue_spec accepted s)
      as [E|(b' & m & next & queue & _ & _ & Hu & _ & _ & E)]; rewrite E; simpl.
    - split; [exact Hs|tauto].
    - assert (b' ≠ b) by congruence. split.
      + unfold updating_of in *. simpl. destruct accepted; [|exact Hs].
        rewrite list_lookup_insert_ne by assumption. exact Hs.
      + intros c [Hc|[]]. congruence. }
  destruct e as [supported| |data accepted|m added|m|m|b' accepted]; simpl.
  - split; [|tauto]. unfold setupWebSocketVideoPlayback.
    destruct supported; exact Hb.
  - split; [exact Hb|tauto].
  - unfold handleVideoChunk. destruct data as [|c data]; [split; [exact Hb|tauto]|].
    destruct (Base64.atob (c :: data)); [|split; [exact Hb|tauto]].
    apply Hproc. exact Hb.
  - split; [|tauto]. unfold on_sourceopen. simpl.
    destruct (mediaSource st); [|exact Hb].
    match goal with |- context [if ?c then _ else _] => destruct c end; [|exact Hb].
    unfold updating_of in *. simpl. rewrite lookup_app_l by exact Hlt. exact Hb.
  - split; [exact Hb|tauto].
  - split; [exact Hb|tauto].
  - apply Hproc. unfold updating_of in *. simpl.
    rewrite list_lookup_insert_ne by exact He. exact Hb.
Qed.

Lemma run_keeps_updating st evs b :
  updating_of st b = true → no_updateend b evs →
  updating_of (run st evs).1 b = true ∧
  ∀ c, ¬ In (AppendBuffer b c) (run st evs).2.
Proof.
  revert st. induction evs as [|e evs IH]; intros st Hb Hno.
  - split; [exact Hb|simpl; tauto].
  - inversion_clear Hno as [|? ? He Hevs].
    destruct (step_keeps_updating st e b Hb He) as [Hb1 Hout].
    cbn [run]. destruct (step st e) as [st1 out]. simpl in Hb1, Hout.
    destruct (IH st1 Hb1 Hevs) as [Hb2 Houts].
    destruct (run st1 evs) as [st2 outs]. simpl in *.
    split; [exact Hb2|]. intros c Hin. apply in_app_or in Hin as [Hin|Hin].
    + exact (Hout c Hin).
    + exact (Houts c Hin).
Qed.

(** C3. (1) One invocation of [processVideoChunkQueue] calls [appendBuffer]
    at most once, and only on the current [sourceBuffer], with [updating]
    false and the [readyState] of the current [mediaSource] equal to [open],
    for the chunk at the head of the queue. (2) Once a buffer has accepted an
    append, no [appendBuffer] is called on it before its [updateend].
    (3) Over any sequence of events the chunks appended are, in order, a
    subsequence of the chunks received: arrival order is kept and no chunk is
    appended twice. *)
Theorem video_relay_appends st evs accepted (b : nat) :
  ((length (processVideoChunkQueue accepted st).2 ≤ 1)%nat ∧
   ∀ b' c, In (AppendBuffer b' c) (processVideoChunkQueue accepted st).2 →
     sourceBuffer st = Some b' ∧ updating_of st b' = false ∧
     (∃ m, mediaSource st = Some m ∧ ready_of st m = open) ∧
     head (videoChunksQueue st) = Some c) ∧
  (updating_of st b = true → no_updateend b evs →
     ∀ c, ¬ In (AppendBuffer b c) (run st evs).2) ∧
  sublist (appended (run init evs).2) (received evs).
Proof.
  split; [|split].
  - destruct (processVideoChunkQueue_spec accepted st)
      as [E|(b' & m & next & queue & Hb & Hm & Hu & Hr & Hq & E)]; rewrite E; simpl.
    + split; [lia|tauto].
    + split; [lia|]. intros b'' c [Hc|[]]. injection Hc as <- <-.
      rewrite Hq. repeat split; try assumption. exists m. split; assumption.
  - intros Hb Hno. apply run_keeps_updating; assumption.
  - pose proof (run_queue init evs) as H. simpl in H.
    etransitivity; [|exact H]. apply sublist_inserts_r. reflexivity.
Qed.

End VideoFacts.

(** Witness of [video_relay_appends]: buffer 0 is busy, a chunk arrives and
    the source ends; nothing is appended to buffer 0. *)
Lemma video_relay_appends_witness :
  let st := Video.State (Some 0%nat) (Some 0%nat) [] 0 [Video.open] [true] in
  let evs := [Video.VideoData (Js.lit "AAA=") true; Video.SourceEnded 0] in
  Video.updating_of st 0 = true ∧ Video.no_updateend 0 evs ∧
  ∀ c, ¬ In (Video.AppendBuffer 0 c) (Video.run st evs).2.
Proof.
  intros st evs.
  assert (Hb : Video.updating_of st 0 = true) by reflexivity.
  assert (Hno : Video.no_updateend 0 evs) by (repeat constructor).
  split; [exact Hb|]. split; [exact Hno|].
  exact (proj1 (proj2 (video_relay_appends st evs true 0%nat)) Hb Hno).
Defined.

(* ===================================================================== *)
(** * Connection life cycle and microphone gate *)
(* ===================================================================== *)

Section SessionFacts.
Import Js Session SessionSpec.
Variables (parseFloat parseInt : jsstring → Num.number).
Variable divide : Num.number → Num.number → Num.number.
Variable isTypeSupported : bool.

Local Abbreviation step := (Session.step parseFloat parseInt divide isTypeSupported).
Local Abbreviation run := (Session.run parseFloat parseInt divide isTypeSupported).
Local Abbreviation ws_onopen := (Session.ws_onopen parseFloat parseInt divide).
Local Abbreviation onopen_config := (Session.onopen_config parseFloat parseInt divide).
Local Abbreviation gatherConfig := (Session.gatherConfig parseFloat parseInt divide).
Local Abbreviation handleServerMessage := (Session.handleServerMessage isTypeSupported).
Local Abbreviation step_shape := (SessionSpec.step_shape parseFloat parseInt divide).

Implicit Types (st : state) (e : event) (evs : list event) (effs : list effect)
  (f : form) (s : socket).

(** *** Strings *)

Lemma is_empty_true (x : jsstring) : is_empty x = true ↔ x = [].
Proof. destruct x; simpl; split; congruence. Qed.

Lemma is_empty_false (x : jsstring) : is_empty x = false ↔ x ≠ [].
Proof. destruct x; simpl; split; congruence. Qed.


(** *** Sockets *)

Lemma ws_send_Sent st k : ws_send st = Sent k → ws st = Some k ∧ ready_of st k = OPEN.
Proof.
  unfold ws_send. destruct (ws st) as [j|]; [|discriminate].
  destruct (ready_of st j) eqn:E; try discriminate.
  intros [= <-]. split; [reflexivity|exact E].
Qed.

Lemma ws_open_true st :
  ws_open st = true → ∃ k, ws st = Some k ∧ ready_of st k = OPEN.
Proof.
  unfold ws_open. destruct (ws st) as [k|]; [|discriminate].
  destruct (ready_of st k) eqn:E; try discriminate. eauto.
Qed.

Lemma same_closure_refl s : same_closure s s.
Proof. repeat split. Qed.

Lemma winding_down_refl (l : list socket) : winding_down l l.
Proof.
  induction l; constructor; [|assumption].
  split; [apply same_closure_refl|left; reflexivity].
Qed.

Lemma winding_down_trans (l1 l2 l3 : list socket) :
  winding_down l1 l2 → winding_down l2 l3 → winding_down l1 l3.
Proof.
  intros H12. revert l3. induction H12 as [|s1 s2 l1 l2 [Hc H] _ IH]; intros l3 H23.
  - inversion H23. constructor.
  - inversion_clear H23 as [|? s3 ? l3' [Hc' H'] Hrest].
    constructor; [|apply IH, Hrest].
    destruct Hc as (?&?&?&?), Hc' as (?&?&?&?).
    split; [repeat split; congruence|].
    destruct H' as [H'|[H'|H']]; [|tauto|tauto].
    rewrite H'. exact H.
Qed.

Lemma winding_down_insert (l : list socket) k s r :
  l !! k = Some s → r = CLOSING ∨ r = CLOSED →
  winding_down l (<[k := Socket r (c_endpoint s) (c_isAgent s) (c_apiKey s)
                                (c_entraToken s)]> l).
Proof.
  intros Hk Hr. revert k Hk. induction l as [|a l IH]; intros [|k] Hk; try discriminate.
  - injection Hk as ->. simpl. constructor; [|apply winding_down_refl].
    split; [repeat split|right; exact Hr].
  - simpl. constructor; [|apply IH, Hk].
    split; [apply same_closure_refl|left; reflexivity].
Qed.

Lemma winding_down_set_ready st k r :
  r = CLOSING ∨ r = CLOSED →
  winding_down (sockets st) (sockets (set_ready k r st)).
Proof.
  intros Hr. unfold set_ready. destruct (sockets st !! k) as [s|] eqn:E.
  - simpl. apply winding_down_insert; assumption.
  - apply winding_down_refl.
Qed.

Lemma winding_down_lookup (old new : list socket) k s' :
  winding_down old new → new !! k = Some s' →
  ∃ s, old !! k = Some s ∧ same_closure s s' ∧
       (ready s' = ready s ∨ ready s' = CLOSING ∨ ready s' = CLOSED).
Proof.
  intros H Hk. destruct (Forall2_lookup_r _ _ _ _ _ H Hk) as (s & Hs & Hrel).
  exists s. tauto.
Qed.

(** A socket that is open after sockets wound down was open before. *)
Lemma winding_down_open st st' k :
  winding_down (sockets st) (sockets st') →
  ready_of st' k = OPEN → ready_of st k = OPEN.
Proof.
  intros H. unfold ready_of. destruct (sockets st' !! k) as [s'|] eqn:E; [|discriminate].
  destruct (winding_down_lookup _ _ _ _ H E) as (s & -> & _ & Hr).
  intros Ho. rewrite Ho in Hr. destruct Hr as [Hr|[Hr|Hr]]; congruence.
Qed.

Lemma winding_down_valid (old new : list socket) :
  winding_down old new → Forall valid_closure old → Forall valid_closure new.
Proof.
  induction 1 as [|s s' l l' [(He & Ha & Hk & Ht) _] _ IH]; intros Hv.
  - constructor.
  - inversion_clear Hv as [|? ? [Hs1 Hs2] Hl]. constructor; [|apply IH, Hl].
    unfold valid_closure. rewrite He, Ha, Hk, Ht. split; assumption.
Qed.



(** *** Handlers that neither send nor connect *)

Lemma set_ready_fields k r st :
  ws (set_ready k r st) = ws st ∧
  isConnected (set_ready k r st) = isConnected st ∧
  isConnecting (set_ready k r st) = isConnecting st ∧
  isRecording (set_ready k r st) = isRecording st ∧
  messages (set_ready k r st) = messages st.
Proof. unfold set_ready. destruct (sockets st !! k); repeat split. Qed.

Lemma close_socket_fields k st :
  ws (close_socket k st) = ws st ∧
  isConnected (close_socket k st) = isConnected st ∧
  isConnecting (close_socket k st) = isConnecting st ∧
  isRecording (close_socket k st) = isRecording st ∧
  messages (close_socket k st) = messages st.
Proof.
  unfold close_socket. destruct (ready_of st k);
    first [apply set_ready_fields | repeat split].
Qed.

Lemma close_socket_winding_down k st :
  winding_down (sockets st) (sockets (close_socket k st)).
Proof.
  unfold close_socket. destruct (ready_of st k);
    first [apply winding_down_set_ready; tauto | apply winding_down_refl].
Qed.

Lemma quietly_same st st' :
  ws st' = ws st → sockets st' = sockets st → isRecording st' = isRecording st →
  quietly st st' [].
Proof.
  intros Hw Hs Hr. repeat split.
  - constructor.
  - rewrite Hs. apply winding_down_refl.
  - left. exact Hw.
  - congruence.
Qed.

Lemma quietly_calls st st' (cs : list call) :
  ws st' = ws st → sockets st' = sockets st → isRecording st' = isRecording st →
  quietly st st' (map Call cs).
Proof.
  intros Hw Hs Hr. repeat split.
  - apply List.Forall_forall. intros x Hx. apply in_map_iff in Hx as (c & <- & _). exact I.
  - rewrite Hs. apply winding_down_refl.
  - left. exact Hw.
  - congruence.
Qed.

Lemma handleDisconnect_quietly st :
  quietly st (handleDisconnect st).1 (handleDisconnect st).2 ∧
  ws (handleDisconnect st).1 = None ∧
  isConnected (handleDisconnect st).1 = false ∧
  isConnecting (handleDisconnect st).1 = false ∧
  isRecording (handleDisconnect st).1 = false.
Proof.
  unfold handleDisconnect. cbn [ws set_avatarEnabled set_audioChunksSent
    set_isRecording set_isConnecting set_isConnected].
  destruct (ws st) as [k|] eqn:E; cbn [fst snd].
  - match goal with |- context [close_socket k ?s] =>
      pose proof (close_socket_fields k s) as (Hw & Hc & Hg & Hr & _);
      pose proof (close_socket_winding_down k s) as Hd end.
    simpl in *. repeat split; try assumption.
    all: try (repeat constructor; fail).
    unfold set_ws. cbn [isRecording]. rewrite Hr. discriminate.
  - repeat split; try assumption; try reflexivity.
    + repeat constructor.
    + apply winding_down_refl.
    + left. reflexivity.
    + simpl. discriminate.
Qed.

Lemma quietly_after st st1 st2 effs :
  ws st1 = ws st → sockets st1 = sockets st →
  (isRecording st1 = true → isRecording st = true) →
  quietly st1 st2 effs → quietly st st2 effs.
Proof.
  intros Hw Hs Hr (Hq & Hd & Hws & Hrec). repeat split.
  - exact Hq.
  - rewrite <- Hs. exact Hd.
  - rewrite <- Hw. exact Hws.
  - intros H. apply Hr, Hrec, H.
Qed.

Lemma onAssistantDelta_core delta st :
  ws (onAssistantDelta delta st) = ws st ∧
  sockets (onAssistantDelta delta st) = sockets st ∧
  isRecording (onAssistantDelta delta st) = isRecording st.
Proof.
  unfold onAssistantDelta. simpl.
  destruct (set_last _ _ _); repeat split.
Qed.

Lemma handleServerMessage_quietly msg st :
  quietly st (handleServerMessage msg st).1 (handleServerMessage msg st).2.
Proof.
  destruct msg as [sid av mode|err| |serverSdp|data|r itemId transcript|r delta|delta|
                   |itemId| | | | | |delta| ]; cbn [Session.handleServerMessage].
  - (* session_started *)
    unfold Session.onSessionStarted. cbn [fst snd].
    match goal with |- quietly _ ?s (?v ++ [Call startAudioCapture]) =>
      assert (Hv : ∃ cs, v ++ [Call startAudioCapture] = map Call cs) end.
    { match goal with |- context [if ?c then [Call _] else _] => destruct c end.
      - exists [setupWebSocketVideoPlayback; startAudioCapture]. reflexivity.
      - exists [startAudioCapture]. reflexivity. }
    destruct Hv as [cs ->].
    match goal with |- quietly _ (set_isRecording false ?x) _ =>
      assert (Hx : ws x = ws st ∧ sockets x = sockets st) end.
    { match goal with |- context [if ?c then addMessage _ _ _ else _] => destruct c end;
        simpl; destruct (set_first _ _ _); split; reflexivity. }
    destruct Hx as [Hw Hs]. repeat split.
    + apply List.Forall_forall. intros x Hx. apply in_map_iff in Hx as (c & <- & _). exact I.
    + cbn [sockets set_isRecording]. rewrite Hs. apply winding_down_refl.
    + left. cbn [ws set_isRecording]. exact Hw.
    + cbn [isRecording set_isRecording]. discriminate.
  - apply quietly_same; reflexivity.
  - destruct (eqb_string _ _); [apply (quietly_calls _ _ [setupWebRTC])|apply quietly_same];
      reflexivity.
  - apply (quietly_calls _ _ [handleAvatarSdpAnswer serverSdp]); reflexivity.
  - apply (quietly_calls _ _ [handleAudioDelta data]); reflexivity.
  - destruct (eqb_string r (lit "user")).
    + destruct (if is_empty itemId then None else _); apply quietly_same; reflexivity.
    + destruct (eqb_string r (lit "assistant")); [|apply quietly_same; reflexivity].
      destruct (is_empty transcript); [apply quietly_same; reflexivity|].
      destruct (set_last _ _ _); apply quietly_same; reflexivity.
  - destruct (eqb_string _ _); [|apply quietly_same; reflexivity].
    apply quietly_same; apply onAssistantDelta_core.
  - apply quietly_same; apply onAssistantDelta_core.
  - apply quietly_same; reflexivity.
  - unfold onSpeechStarted. cbn [fst snd].
    apply (quietly_calls _ _ [stopAudioPlayback]); destruct (is_empty itemId); reflexivity.
  - apply quietly_same; reflexivity.
  - apply quietly_same; reflexivity.
  - apply quietly_same; reflexivity.
  - eapply quietly_after; [| | |apply handleDisconnect_quietly]; try reflexivity. tauto.
  - apply quietly_same; reflexivity.
  - apply (quietly_calls _ _ [handleVideoChunk delta]); reflexivity.
  - apply quietly_same; reflexivity.
Qed.


(** *** The shape of every step *)

Lemma quiet_no_send effs j m : Forall is_quiet effs → ¬ In (Send j m) effs.
Proof.
  intros H Hin. rewrite List.Forall_forall in H. exact (H _ Hin).
Qed.

Lemma quiet_no_new effs k : Forall is_quiet effs → ¬ In (NewWebSocket k) effs.
Proof.
  intros H Hin. rewrite List.Forall_forall in H. exact (H _ Hin).
Qed.

Lemma shape_of_quietly st e st' effs :
  quietly st st' effs → step_shape st e st' effs.
Proof.
  intros (Hq & Hd & Hw & Hr). apply shape_plain; try assumption.
  - intros j m Hin. destruct (quiet_no_send _ _ _ Hq Hin).
  - intros k. apply quiet_no_new, Hq.
  - intros H. left. apply Hr, H.
Qed.

(** A handler that keeps [ws] and the sockets and sends at most one plain
    message to the open socket. *)
Lemma shape_of_send st e st' effs :
  ws st' = ws st → sockets st' = sockets st →
  (isRecording st' = true → isRecording st = true ∨ e = ClickMic) →
  (effs = [] ∨ ∃ j m, effs = [Send j m] ∧ ws st = Some j ∧ ready_of st j = OPEN
                     ∧ plain_msg st e m) →
  step_shape st e st' effs.
Proof.
  intros Hw Hs Hr Heffs. apply shape_plain.
  - intros j m Hin. destruct Heffs as [->|(j' & m' & -> & H)]; [destruct Hin|].
    destruct Hin as [[= <- <-]|[]]. exact H.
  - intros k Hin. destruct Heffs as [->|(j' & m' & -> & H)]; [destruct Hin|].
    destruct Hin as [Hin|[]]. discriminate.
  - rewrite Hs. apply winding_down_refl.
  - left. exact Hw.
  - exact Hr.
Qed.

Lemma ws_send_ext st st1 :
  ws st1 = ws st → sockets st1 = sockets st → ws_send st1 = ws_send st.
Proof. intros Hw Hs. unfold ws_send, ready_of. rewrite Hw, Hs. reflexivity. Qed.

Lemma connectSession_shape f st :
  step_shape st (ClickConnect f) (connectSession f st).1 (connectSession f st).2.
Proof.
  unfold connectSession.
  destruct (is_empty (trim (value f "endpoint"))) eqn:Ee.
  { apply shape_of_quietly, quietly_same; reflexivity. }
  destruct (negb (is_agent_mode (value f "mode")) && is_empty (trim (value f "apiKey")))
    eqn:Ek.
  { apply shape_of_quietly, quietly_same; reflexivity. }
  destruct (is_agent_mode (value f "mode") && is_empty (trim (value f "entraToken")))
    eqn:Et.
  { apply shape_of_quietly, quietly_same; reflexivity. }
  cbn [fst snd].
  apply (shape_connect _ _ _ _ _ _ _ f
           (Socket CONNECTING (trim (value f "endpoint"))
                   (is_agent_mode (value f "mode")) (trim (value f "apiKey"))
                   (trim (value f "entraToken")))); try reflexivity.
  repeat split.
  - apply is_empty_false, Ee.
  - cbn [c_isAgent c_entraToken c_apiKey].
    destruct (is_agent_mode (value f "mode")); simpl in Ek, Et.
    + apply is_empty_false, Et.
    + apply is_empty_false, Ek.
Qed.

Lemma disconnect_shape e st :
  step_shape st e (disconnect st).1 (disconnect st).2.
Proof.
  unfold disconnect.
  pose proof (handleDisconnect_quietly st) as ((Hq & Hd & Hw & Hr) & _).
  destruct (handleDisconnect st) as [st' effs]. cbn [fst snd] in *.
  apply shape_plain; try assumption.
  - intros j m Hin. apply in_app_or in Hin as [Hin|Hin];
      [|destruct (quiet_no_send _ _ _ Hq Hin)].
    destruct (ws_open st); [|destruct Hin].
    destruct (ws_send st) as [k| |] eqn:E; [|destruct Hin|destruct Hin].
    destruct Hin as [[= <- <-]|[]].
    apply ws_send_Sent in E as [? ?]. repeat split; assumption.
  - intros k Hin. apply in_app_or in Hin as [Hin|Hin];
      [|destruct (quiet_no_new _ _ Hq Hin)].
    destruct (ws_open st); [|destruct Hin].
    destruct (ws_send st); [|destruct Hin|destruct Hin].
    destruct Hin as [Hin|[]]. discriminate.
  - intros H. left. apply Hr, H.
Qed.


Lemma sendTextMessage_shape input st :
  step_shape st (SubmitText input) (sendTextMessage input st).1
             (sendTextMessage input st).2.
Proof.
  unfold sendTextMessage.
  destruct (is_empty (trim input) || negb (isConnected st)
            || match ws st with Some _ => false | None => true end).
  { apply shape_of_send; try reflexivity; tauto. }
  match goal with |- context [ws_send ?s] =>
    rewrite (ws_send_ext st s) by reflexivity end.
  destruct (ws_send st) as [k| |] eqn:E; cbn [fst snd];
    apply shape_of_send; try reflexivity; try tauto.
  right. exists k, (send_text (trim input)). apply ws_send_Sent in E as [? ?].
  repeat split; assumption.
Qed.

Lemma updateAvatarScene_shape e f st :
  step_shape st e (updateAvatarScene f st).1 (updateAvatarScene f st).2.
Proof.
  unfold updateAvatarScene.
  destruct (negb (isConnected st) || negb (ws_open st)).
  { apply shape_of_send; try reflexivity; tauto. }
  destruct (negb (checked f "isPhotoAvatar")).
  { apply shape_of_send; try reflexivity; tauto. }
  destruct (negb (checked f "avatarEnabled")).
  { apply shape_of_send; try reflexivity; tauto. }
  destruct (ws_send st) as [k| |] eqn:E; cbn [fst snd];
    apply shape_of_send; try reflexivity; try tauto.
  right. exists k, (update_scene f). apply ws_send_Sent in E as [? ?].
  repeat split; assumption.
Qed.

Lemma shape_after st st1 e st' effs :
  ws st1 = ws st → sockets st1 = sockets st → isRecording st1 = isRecording st →
  isConnected st1 = isConnected st →
  step_shape st1 e st' effs → step_shape st e st' effs.
Proof.
  intros Hw Hs Hr Hc H.
  assert (Hready : ∀ k, ready_of st1 k = ready_of st k).
  { intros k. unfold ready_of. rewrite Hs. reflexivity. }
  assert (Hplain : ∀ m, plain_msg st1 e m → plain_msg st e m).
  { intros m. unfold plain_msg. destruct m; try tauto. rewrite Hc, Hr. tauto. }
  destruct H as [H1 H2 H3 H4 H5|k f s H1 H2 H3 H4 H5 H6 H7 H8 H9 H10
                |f s H1 H2 H3 H4 H5 H6 H7].
  - apply shape_plain.
    + intros j m Hin. destruct (H1 j m Hin) as (? & ? & ?).
      rewrite <- Hw, <- Hready. auto.
    + exact H2.
    + rewrite <- Hs. exact H3.
    + rewrite <- Hw. exact H4.
    + rewrite <- Hr. exact H5.
  - apply (shape_open _ _ _ _ _ _ _ k f s); try assumption; try congruence.
    + intros j m Hin. destruct (H7 j m Hin) as (? & ? & ?).
      rewrite <- Hw, <- Hready. auto.
    + rewrite <- Hw. exact H8.
  - apply (shape_connect _ _ _ _ _ _ _ f s); try assumption; congruence.
Qed.

Lemma throttledUpdateAvatarScene_shape e now f st :
  step_shape st e (throttledUpdateAvatarScene now f st).1
             (throttledUpdateAvatarScene now f st).2.
Proof.
  unfold throttledUpdateAvatarScene.
  destruct (now - lastSceneUpdate st <? SCENE_THROTTLE_MS)%Z.
  - apply shape_of_send; try reflexivity; tauto.
  - eapply shape_after; [| | | |apply updateAvatarScene_shape]; reflexivity.
Qed.

Lemma worklet_onmessage_shape data st :
  step_shape st (WorkletMessage data) (worklet_onmessage data st).1
             (worklet_onmessage data st).2.
Proof.
  unfold worklet_onmessage.
  destruct (negb (isConnected st) || negb (isRecording st) || negb (ws_open st)) eqn:G.
  { apply shape_of_send; try reflexivity; tauto. }
  apply orb_false_elim in G as [G _]. apply orb_false_elim in G as [Hc Hr].
  apply negb_false_iff in Hc, Hr.
  destruct (Util.arrayBufferToBase64 data) as [base64|].
  2:{ apply shape_of_send; try reflexivity; tauto. }
  match goal with |- context [ws_send ?s] =>
    rewrite (ws_send_ext st s) by reflexivity end.
  destruct (ws_send st) as [k| |] eqn:E; cbn [fst snd];
    apply shape_of_send; try reflexivity; try tauto.
  right. exists k, (audio_chunk base64). apply ws_send_Sent in E as [? ?].
  repeat split; try assumption. exists data. reflexivity.
Qed.

Lemma offer_then_shape d st :
  step_shape st (OfferResolved d) (offer_then d st).1 (offer_then d st).2.
Proof.
  unfold offer_then, offer_catch.
  destruct (Json.encode_sdp d) as [sdpBase64|];
    [|apply shape_of_send; try reflexivity; tauto].
  destruct (ws_send st) as [k| |] eqn:E; cbn [fst snd];
    apply shape_of_send; try reflexivity; try tauto.
  right. exists k, (avatar_sdp_offer sdpBase64). apply ws_send_Sent in E as [? ?].
  repeat split; assumption.
Qed.

Lemma ws_onclose_quietly st :
  quietly st (ws_onclose st).1 (ws_onclose st).2.
Proof.
  unfold ws_onclose.
  eapply quietly_after; [| | |apply handleDisconnect_quietly];
    destruct (isConnected st); try reflexivity; tauto.
Qed.

Lemma quietly_trans st st1 st2 effs1 effs2 :
  quietly st st1 effs1 → quietly st1 st2 effs2 → quietly st st2 (effs1 ++ effs2).
Proof.
  intros (Hq1 & Hd1 & Hw1 & Hr1) (Hq2 & Hd2 & Hw2 & Hr2). repeat split.
  - apply Forall_app. split; assumption.
  - eapply winding_down_trans; eassumption.
  - destruct Hw2 as [Hw2|Hw2]; [rewrite Hw2; exact Hw1|right; exact Hw2].
  - intros H. apply Hr1, Hr2, H.
Qed.

Lemma quietly_then st st1 st2 effs :
  quietly st st1 [] → quietly st1 st2 effs → quietly st st2 effs.
Proof. intros H1 H2. exact (quietly_trans st st1 st2 [] effs H1 H2). Qed.

Lemma set_ready_closed_quietly k st : quietly st (set_ready k CLOSED st) [].
Proof.
  pose proof (set_ready_fields k CLOSED st) as (Hw & _ & _ & Hr & _).
  repeat split.
  - constructor.
  - apply winding_down_set_ready. tauto.
  - left. exact Hw.
  - congruence.
Qed.

Lemma ws_onopen_shape k f s st :
  sockets st !! k = Some s → ready s = CONNECTING →
  step_shape st (WsOpen k f) (ws_onopen k f (set_ready k OPEN st)).1
             (ws_onopen k f (set_ready k OPEN st)).2.
Proof.
  intros Hk Hr.
  set (s' := Socket OPEN (c_endpoint s) (c_isAgent s) (c_apiKey s) (c_entraToken s)).
  assert (Hst : set_ready k OPEN st = set_sockets (<[k := s']> (sockets st)) st).
  { unfold set_ready. rewrite Hk. reflexivity. }
  assert (Hk' : sockets (set_ready k OPEN st) !! k = Some s').
  { rewrite Hst. simpl. apply list_lookup_insert_eq. eapply lookup_lt_Some, Hk. }
  assert (Hready : ∀ j, ready_of (set_ready k OPEN st) j = OPEN →
                        j = k ∨ ready_of st j = OPEN).
  { intros j. destruct (decide (j = k)) as [->|Hne]; [tauto|].
    unfold ready_of. rewrite Hst. simpl.
    rewrite list_lookup_insert_ne by congruence. tauto. }
  unfold Session.ws_onopen. rewrite Hk'.
  change (Session.onopen_config parseFloat parseInt divide s' f)
    with (onopen_config s f).
  assert (Hfields : sockets (set_ready k OPEN st) = <[k := s']> (sockets st)
                    ∧ ws (set_ready k OPEN st) = ws st
                    ∧ isRecording (set_ready k OPEN st) = isRecording st).
  { rewrite Hst. repeat split. }
  destruct Hfields as (Hf1 & Hf2 & Hf3).
  destruct (ws_send (set_ready k OPEN st)) as [j| |] eqn:E; cbn [fst snd];
    apply (shape_open _ _ _ _ _ _ _ k f s); try assumption; try reflexivity;
    try (simpl; lia); try (intros ? ? []; fail); try (intros ? []; fail).
  - apply ws_send_Sent in E as [Hw Hj]. rewrite Hf2 in Hw.
    intros j' m [[= <- <-]|[]]. split; [exact Hw|]. split; [|reflexivity].
    apply Hready, Hj.
  - apply ws_send_Sent in E as [Hw Hj]. rewrite Hf2 in Hw.
    intros Hwk. congruence.
  - intros k' [Hin|[]]. discriminate.
  - intros Hwk. exfalso. unfold ws_send in E. rewrite Hf2, Hwk in E.
    unfold ready_of in E. rewrite Hk' in E. discriminate.
  - intros Hwk. exfalso. unfold ws_send in E. rewrite Hf2, Hwk in E.
    unfold ready_of in E. rewrite Hk' in E. discriminate.
Qed.

(** Every step has one of the three shapes. *)
Lemma step_has_shape st e st' effs :
  step st e = Some (st', effs) → step_shape st e st' effs.
Proof.
  assert (Hfin : ∀ (p : state * list effect),
            step_shape st e p.1 p.2 → Some p = Some (st', effs) →
            step_shape st e st' effs).
  { intros p Hs [= ->]. exact Hs. }
  destruct e as [f| |input|now f|k f|k msg|k|k|data| |d| | ]; cbn [Session.step].
  - apply Hfin. unfold toggleConnection.
    destruct (isConnecting st); [apply shape_of_quietly, quietly_same; reflexivity|].
    destruct (isConnected st).
    + apply disconnect_shape.
    + apply connectSession_shape.
  - apply Hfin. unfold toggleMicrophone. cbn [fst snd].
    destruct (negb (isConnected st)); apply shape_of_send; try reflexivity; tauto.
  - apply Hfin, sendTextMessage_shape.
  - apply Hfin, throttledUpdateAvatarScene_shape.
  - destruct (sockets st !! k) as [s|] eqn:Hk; [|discriminate].
    destruct (ready s) eqn:Hr; try discriminate.
    apply Hfin, (ws_onopen_shape k f s st Hk Hr).
  - destruct (sockets st !! k) as [s|] eqn:Hk; [|discriminate].
    destruct (ready s) eqn:Hr; try discriminate.
    apply Hfin, shape_of_quietly, handleServerMessage_quietly.
  - destruct (sockets st !! k) as [s|] eqn:Hk; [|discriminate].
    unfold ws_onerror.
    match goal with |- context [ws_onclose ?x] =>
      assert (Hq : quietly st (ws_onclose x).1 (ws_onclose x).2);
      [|destruct (ws_onclose x) as [st2 effs2]] end.
    { eapply quietly_then; [|apply ws_onclose_quietly].
      eapply quietly_then; [apply set_ready_closed_quietly|].
      apply quietly_same; reflexivity. }
    cbn [fst snd app] in Hq.
    destruct (ready s);
      [intros [= <- <-]; apply shape_of_quietly, Hq ..|intros H; discriminate H].
  - destruct (sockets st !! k) as [s|] eqn:Hk; [|discriminate].
    assert (Hs : step_shape st (WsClosed k) (ws_onclose (set_ready k CLOSED st)).1
                   (ws_onclose (set_ready k CLOSED st)).2).
    { apply shape_of_quietly.
      apply (quietly_then st (set_ready k CLOSED st));
        [apply set_ready_closed_quietly|apply ws_onclose_quietly]. }
    destruct (ready s); [exact (Hfin _ Hs) ..|intros H; discriminate H].
  - apply Hfin, worklet_onmessage_shape.
  - apply Hfin, shape_of_quietly, quietly_same; reflexivity.
  - apply Hfin, offer_then_shape.
  - apply Hfin, shape_of_quietly, quietly_same; reflexivity.
  - apply Hfin, shape_of_quietly, quietly_same; reflexivity.
Qed.

End SessionFacts.

(* ===================================================================== *)
(** * Properties of the connection code *)
(* ===================================================================== *)

Section SessionClaims.
Import Js Session SessionSpec.
Variables (parseFloat parseInt : jsstring → Num.number).
Variable divide : Num.number → Num.number → Num.number.
Variable isTypeSupported : bool.

Local Abbreviation step := (Session.step parseFloat parseInt divide isTypeSupported).
Local Abbreviation run := (Session.run parseFloat parseInt divide isTypeSupported).
Local Abbreviation onopen_config := (Session.onopen_config parseFloat parseInt divide).
Local Abbreviation handleServerMessage := (Session.handleServerMessage isTypeSupported).
Local Abbreviation step_shape := (SessionSpec.step_shape parseFloat parseInt divide).
Local Abbreviation step_has_shape :=
  (step_has_shape parseFloat parseInt divide isTypeSupported).
Local Abbreviation starts_with_session :=
  (SessionSpec.starts_with_session parseFloat parseInt divide).
Local Abbreviation history_ok := (SessionSpec.history_ok parseFloat parseInt divide).

Implicit Types (st : state) (e : event) (evs : list event) (effs : list effect)
  (f : form) (s : socket).

(** *** Microphone *)

Lemma audio_chunk_guard st e st' effs k data :
  step st e = Some (st', effs) → In (Send k (audio_chunk data)) effs →
  isConnected st = true ∧ isRecording st = true ∧
  ws st = Some k ∧ ready_of st k = OPEN.
Proof.
  intros Hstep Hin.
  destruct (step_has_shape _ _ _ _ Hstep)
    as [H1 _ _ _ _|k0 f s _ _ _ _ _ _ H7 _ _ _|f s _ _ _ _ _ _ H9].
  - destruct (H1 _ _ Hin) as (Hw & Ho & Hc & Hr & _). tauto.
  - destruct (H7 _ _ Hin) as (_ & _ & ?). discriminate.
  - rewrite H9 in Hin. destruct Hin as [?|[]]. discriminate.
Qed.

Lemma recording_needs_click st e st' effs :
  step st e = Some (st', effs) → isRecording st' = true →
  isRecording st = true ∨ e = ClickMic.
Proof.
  intros Hstep Hr.
  destruct (step_has_shape _ _ _ _ Hstep)
    as [_ _ _ _ H5|k0 f s _ _ _ _ _ H6 _ _ _ _|f s _ _ _ _ _ H8 _].
  - apply H5, Hr.
  - left. congruence.
  - left. congruence.
Qed.

(** C4. An [audio_chunk] message is sent only in a state where the session
    is connected, the microphone toggle is on and the socket held by [ws] is
    open; and from any state with the microphone off, whatever happens, no
    [audio_chunk] is sent and the microphone stays off as long as the
    microphone button is not clicked. *)
Theorem audio_chunk_gate st evs st' effs :
  run st evs = Some (st', effs) →
  (∀ e st1 effs1 k data,
     step st e = Some (st1, effs1) → In (Send k (audio_chunk data)) effs1 →
     isConnected st = true ∧ isRecording st = true ∧
     ws st = Some k ∧ ready_of st k = OPEN) ∧
  (isRecording st = false → no_mic_click evs →
     isRecording st' = false ∧ ∀ k data, ¬ In (Send k (audio_chunk data)) effs).
Proof.
  intros Hrun. split.
  { intros e st1 effs1 k data. apply audio_chunk_guard. }
  revert st st' effs Hrun. induction evs as [|e evs IH]; intros st st' effs Hrun Hoff Hno.
  - injection Hrun as <- <-. split; [exact Hoff|]. intros k data [].
  - cbn [Session.run] in Hrun.
    destruct (step st e) as [[st1 out]|] eqn:Hstep; [|discriminate].
    destruct (run st1 evs) as [[st2 outs]|] eqn:Hrest; [|discriminate].
    injection Hrun as <- <-.
    inversion_clear Hno as [|? ? He Hevs].
    assert (Hoff1 : isRecording st1 = false).
    { destruct (isRecording st1) eqn:E; [|reflexivity].
      destruct (recording_needs_click _ _ _ _ Hstep E) as [H|H].
      - congruence.
      - subst e. destruct He. }
    destruct (IH st1 st2 outs Hrest Hoff1 Hevs) as [Hfinal Hnone].
    split; [exact Hfinal|]. intros k data Hin.
    apply in_app_or in Hin as [Hin|Hin].
    + destruct (audio_chunk_guard _ _ _ _ _ _ Hstep Hin) as (_ & Hr & _). congruence.
    + exact (Hnone _ _ Hin).
Qed.


(** *** Validation and errors *)





Lemma count_effects_app p effs1 effs2 :
  count_effects p (effs1 ++ effs2) = (count_effects p effs1 + count_effects p effs2)%nat.
Proof. unfold count_effects. rewrite List.filter_app, length_app. reflexivity. Qed.







(** *** The first message on a socket *)

(** [gatherConfig] sets neither [endpoint] nor a credential, so the
    configuration of [onopen] has the endpoint and the one credential of the
    mode the socket was created for. *)
Lemma onopen_config_good s f :
  valid_closure s →
  get_prop "endpoint" (onopen_config s f) = Some (VString (c_endpoint s)) ∧
  credential_of_mode (c_isAgent s) (onopen_config s f) ∧
  good_config (onopen_config s f).
Proof.
  intros [He Hc].
  assert (Hend : get_prop "endpoint" (onopen_config s f) = Some (VString (c_endpoint s))).
  { unfold Session.onopen_config, Session.gatherConfig.
    destruct (checked f "isPhotoAvatar"), (c_isAgent s); reflexivity. }
  assert (Hcred : credential_of_mode (c_isAgent s) (onopen_config s f)).
  { unfold credential_of_mode, has_string, Session.onopen_config, Session.gatherConfig.
    destruct (c_isAgent s); (split; [eexists; split; [|exact Hc]|]);
      destruct (checked f "isPhotoAvatar"); reflexivity. }
  split; [exact Hend|]. split; [exact Hcred|]. split.
  - exists (c_endpoint s). split; assumption.
  - unfold credential_of_mode in Hcred. destruct (c_isAgent s); tauto.
Qed.

Lemma sent_on_app k effs1 effs2 :
  sent_on k (effs1 ++ effs2) = sent_on k effs1 ++ sent_on k effs2.
Proof. unfold sent_on. apply omap_app. Qed.

Lemma sent_on_in k effs m : In m (sent_on k effs) → In (Send k m) effs.
Proof.
  unfold sent_on. induction effs as [|x effs IH]; [intros []|].
  cbn [omap list_omap]. destruct x as [|j m'| |]; try (intros H; right; apply IH, H).
  destruct (Nat.eqb_spec j k) as [->|Hne].
  - intros [->|H]; [left; reflexivity|right; apply IH, H].
  - intros H. right. apply IH, H.
Qed.

Lemma sent_on_single k m : sent_on k [Send k m] = [m].
Proof. unfold sent_on. simpl. rewrite Nat.eqb_refl. reflexivity. Qed.

Lemma onopen_config_ext s s' f :
  same_closure s s' → onopen_config s' f = onopen_config s f.
Proof.
  intros (He & Ha & Hk & Ht). unfold Session.onopen_config. rewrite He, Ha, Hk, Ht.
  reflexivity.
Qed.

Lemma made_by_ext f s s' : same_closure s s' → made_by f s → made_by f s'.
Proof.
  intros (He & Ha & Hk & Ht) (H1 & H2 & H3 & H4 & H5 & H6).
  unfold made_by, valid_closure. rewrite He, Ha, Hk, Ht. tauto.
Qed.

Lemma starts_with_session_ext s s' (msgs : list client_msg) :
  same_closure s s' →
  starts_with_session (Some s) msgs → starts_with_session (Some s') msgs.
Proof.
  intros Hc. destruct msgs as [|m msgs]; [tauto|].
  intros (s0 & f & [= <-] & ->). exists s', f. split; [reflexivity|].
  rewrite (onopen_config_ext _ _ _ Hc). reflexivity.
Qed.

Lemma starts_with_session_app so (l1 l2 : list client_msg) :
  starts_with_session so l1 → (l1 = [] → starts_with_session so l2) →
  starts_with_session so (l1 ++ l2).
Proof.
  destruct l1 as [|m l1]; simpl; [tauto|]. intros H _. exact H.
Qed.

(** Sockets after winding down: same constants, so the same first message. *)
Lemma starts_with_session_winding (old new : list socket) k msgs :
  winding_down old new →
  starts_with_session (old !! k) msgs → starts_with_session (new !! k) msgs.
Proof.
  intros Hd H. destruct msgs as [|m msgs]; [exact I|].
  destruct H as (s0 & f & Hk & ->).
  destruct (Forall2_lookup_l _ _ _ _ _ Hd Hk) as (s' & Hk' & Hc & _).
  rewrite Hk'. apply (starts_with_session_ext s0); [exact Hc|].
  exists s0, f. split; reflexivity.
Qed.

Lemma step_history_ok st e st' effs evs0 effs0 :
  step st e = Some (st', effs) → history_ok evs0 st effs0 →
  history_ok (evs0 ++ [e]) st' (effs0 ++ effs).
Proof.
  intros Hstep (Hmade & Hfirst & Hcur).
  destruct (step_has_shape _ _ _ _ Hstep)
    as [H1 H2 H3 H4 _|k0 f s He Hk Hr Hs Hw _ H7 H8 _ _|f s He Hr Hmk Hs Hw _ H9].
  - (* plain *)
    assert (Hnone : ∀ k, sent_on k effs0 = [] → sent_on k effs = []).
    { intros k Hk. destruct (sent_on k effs) as [|m l] eqn:E; [reflexivity|].
      assert (Hin : In (Send k m) effs) by (apply sent_on_in; rewrite E; left; reflexivity).
      destruct (H1 _ _ Hin) as (Hw & Ho & _). destruct (Hcur k Hw Ho Hk). }
    split; [|split].
    + intros k s' Hk'.
      destruct (winding_down_lookup _ _ _ _ H3 Hk') as (s & Hk & Hc & _).
      destruct (Hmade k s Hk) as (f & Hin & Hm). exists f.
      split; [apply in_or_app; left; exact Hin|]. eapply made_by_ext; eassumption.
    + intros k. rewrite sent_on_app. apply starts_with_session_app.
      * eapply starts_with_session_winding; [exact H3|apply Hfirst].
      * intros Hk. rewrite (Hnone k Hk). exact I.
    + intros k Hw' Ho'. rewrite sent_on_app.
      destruct H4 as [H4|H4]; [|congruence]. rewrite H4 in Hw'.
      pose proof (winding_down_open _ _ _ H3 Ho') as Ho.
      pose proof (Hcur k Hw' Ho) as Hne.
      destruct (sent_on k effs0); [congruence|discriminate].
  - (* open *)
    set (s' := Socket OPEN (c_endpoint s) (c_isAgent s) (c_apiKey s) (c_entraToken s)) in *.
    assert (Hc : same_closure s s') by (repeat split).
    assert (Hlt : (k0 < length (sockets st))%nat) by (eapply lookup_lt_Some, Hk).
    assert (Hlook : ∀ k, sockets st' !! k
                         = if decide (k = k0) then Some s' else sockets st !! k).
    { intros k. rewrite Hs. destruct (decide (k = k0)) as [->|Hne].
      - apply list_lookup_insert_eq, Hlt.
      - apply list_lookup_insert_ne. congruence. }
    split; [|split].
    + intros k s1. rewrite Hlook. destruct (decide (k = k0)) as [->|Hne].
      * intros [= <-]. destruct (Hmade k0 s Hk) as (f0 & Hin & Hm). exists f0.
        split; [apply in_or_app; left; exact Hin|]. eapply made_by_ext; eassumption.
      * intros Hk1. destruct (Hmade k s1 Hk1) as (f0 & Hin & Hm). exists f0.
        split; [apply in_or_app; left; exact Hin|exact Hm].
    + intros k. rewrite sent_on_app, Hlook. apply starts_with_session_app.
      * destruct (decide (k = k0)) as [->|Hne]; [|apply Hfirst].
        apply (starts_with_session_ext s); [exact Hc|]. rewrite <- Hk. apply Hfirst.
      * intros Hempty. destruct (sent_on k effs) as [|m l] eqn:E; [exact I|].
        assert (Hin : In (Send k m) effs) by (apply sent_on_in; rewrite E; left; reflexivity).
        destruct (H7 _ _ Hin) as (Hwk & [->|Ho] & ->).
        -- rewrite decide_True by reflexivity. exists s', f. split; [reflexivity|].
           rewrite (onopen_config_ext _ _ _ Hc). reflexivity.
        -- destruct (Hcur k Hwk Ho Hempty).
    + intros k Hw' Ho'. rewrite sent_on_app. rewrite Hw in Hw'.
      destruct (decide (k = k0)) as [->|Hne].
      * rewrite (H8 Hw'), sent_on_single. destruct (sent_on k0 effs0); discriminate.
      * assert (Ho : ready_of st k = OPEN).
        { unfold ready_of in *. rewrite Hlook, decide_False in Ho' by exact Hne. exact Ho'. }
        pose proof (Hcur k Hw' Ho) as Hne'.
        destruct (sent_on k effs0); [congruence|discriminate].
  - (* connect *)
    subst effs e. split; [|split].
    + intros k s1. rewrite Hs. intros Hk1.
      apply lookup_app_Some in Hk1 as [Hk1|[Hge Hk1]].
      * destruct (Hmade k s1 Hk1) as (f0 & Hin & Hm). exists f0.
        split; [apply in_or_app; left; exact Hin|exact Hm].
      * destruct (k - length (sockets st))%nat; [|discriminate]. injection Hk1 as <-.
        exists f. split; [apply in_or_app; right; left; reflexivity|exact Hmk].
    + intros k. rewrite sent_on_app, app_nil_r, Hs.
      specialize (Hfirst k). destruct (sent_on k effs0) as [|m l]; [exact I|].
      destruct Hfirst as (s0 & f0 & Hk0 & ->). exists s0, f0.
      split; [|reflexivity]. rewrite lookup_app_l; [exact Hk0|].
      eapply lookup_lt_Some, Hk0.
    + intros k Hw' Ho'. exfalso. rewrite Hw in Hw'. injection Hw' as <-.
      unfold ready_of in Ho'. rewrite Hs in Ho'.
      rewrite lookup_app_r, Nat.sub_diag in Ho' by lia. simpl in Ho'. congruence.
Qed.

Lemma run_history_ok st evs st' effs evs0 effs0 :
  run st evs = Some (st', effs) → history_ok evs0 st effs0 →
  history_ok (evs0 ++ evs) st' (effs0 ++ effs).
Proof.
  revert st st' effs evs0 effs0.
  induction evs as [|e evs IH]; intros st st' effs evs0 effs0 Hrun Hok.
  - injection Hrun as <- <-. rewrite !app_nil_r. exact Hok.
  - cbn [Session.run] in Hrun.
    destruct (step st e) as [[st1 out]|] eqn:Hstep; [|discriminate].
    destruct (run st1 evs) as [[st2 outs]|] eqn:Hrest; [|discriminate].
    injection Hrun as <- <-. rewrite app_assoc.
    change (e :: evs) with ([e] ++ evs). rewrite (app_assoc evs0).
    eapply IH; [exact Hrest|]. eapply step_history_ok; eassumption.
Qed.

(** A click on Connect that passes validation, in a state that is neither
    connected nor connecting. *)
Lemma connect_step f st :
  isConnecting st = false → isConnected st = false →
  trim (value f "endpoint") ≠ [] →
  (if is_agent_mode (value f "mode")
   then trim (value f "entraToken") ≠ [] else trim (value f "apiKey") ≠ []) →
  step st (ClickConnect f) = Some (connectSession f st) ∧
  (connectSession f st).2 = [NewWebSocket (length (sockets st))] ∧
  ws (connectSession f st).1 = Some (length (sockets st)) ∧
  sockets (connectSession f st).1 =
    sockets st ++ [Socket CONNECTING (trim (value f "endpoint"))
                     (is_agent_mode (value f "mode"))
                     (trim (value f "apiKey")) (trim (value f "entraToken"))].
Proof.
  intros Hg Hc He Hk. cbn [Session.step]. unfold toggleConnection. rewrite Hg, Hc.
  split; [reflexivity|]. unfold connectSession.
  apply is_empty_false in He. rewrite He.
  destruct (is_agent_mode (value f "mode")); apply is_empty_false in Hk; rewrite Hk;
    simpl; repeat split.
Qed.

(** The socket of [ws] opens: [onopen] sends one message, on that socket. *)
Lemma open_step k f s st :
  ws st = Some k → sockets st !! k = Some s → ready s = CONNECTING →
  ∃ st', step st (WsOpen k f) = Some (st', [Send k (start_session (onopen_config s f))]).
Proof.
  intros Hw Hk Hr. cbn [Session.step]. rewrite Hk, Hr.
  assert (Hlt : (k < length (sockets st))%nat) by (eapply lookup_lt_Some, Hk).
  unfold Session.ws_onopen, set_ready. rewrite Hk.
  cbn [sockets set_sockets]. rewrite list_lookup_insert_eq by exact Hlt.
  unfold ws_send, ready_of. cbn [ws sockets set_sockets]. rewrite Hw.
  rewrite list_lookup_insert_eq by exact Hlt. cbn [ready].
  eexists. reflexivity.
Qed.

(** C5. A click on Connect that passes validation creates one socket and
    puts it in [ws]; when that socket opens, the page sends exactly one
    message on it, a [start_session] whose [config] has the (trimmed)
    endpoint and exactly one credential, [entraToken] if the mode selected at
    the click is [agent] or [agent-v2] and [apiKey] otherwise.  And over
    every history of the page from its initial state, the first message sent
    on any socket is the [start_session] built by the [onopen] of that
    socket, from the constants captured at a click on Connect of the history:
    it has the endpoint and the credential of the mode selected at that
    click, and no other credential. *)
Theorem start_session_first f f' st evs st' effs :
  isConnecting st = false → isConnected st = false →
  trim (value f "endpoint") ≠ [] →
  (if is_agent_mode (value f "mode")
   then trim (value f "entraToken") ≠ [] else trim (value f "apiKey") ≠ []) →
  run init evs = Some (st', effs) →
  (∃ st1 st2 cfg,
     let k := length (sockets st) in
     step st (ClickConnect f) = Some (st1, [NewWebSocket k]) ∧
     ws st1 = Some k ∧
     step st1 (WsOpen k f') = Some (st2, [Send k (start_session cfg)]) ∧
     get_prop "endpoint" cfg = Some (VString (trim (value f "endpoint"))) ∧
     credential_of_mode (is_agent_mode (value f "mode")) cfg) ∧
  (∀ k m rest, sent_on k effs = m :: rest →
     ∃ f0 cfg, In (ClickConnect f0) evs ∧ m = start_session cfg ∧
       get_prop "endpoint" cfg = Some (VString (trim (value f0 "endpoint"))) ∧
       trim (value f0 "endpoint") ≠ [] ∧
       credential_of_mode (is_agent_mode (value f0 "mode")) cfg).
Proof.
  intros Hg Hc He Hk Hrun. split.
  - destruct (connect_step f st Hg Hc He Hk) as (Hstep & Heffs & Hws & Hsocks).
    set (s := Socket CONNECTING (trim (value f "endpoint"))
                (is_agent_mode (value f "mode"))
                (trim (value f "apiKey")) (trim (value f "entraToken"))) in *.
    destruct (connectSession f st) as [st1 effs1]. cbn [fst snd] in *. subst effs1.
    assert (Hlook : sockets st1 !! length (sockets st) = Some s).
    { rewrite Hsocks, lookup_app_r, Nat.sub_diag by lia. reflexivity. }
    destruct (open_step _ f' s st1 Hws Hlook eq_refl) as [st2 Hopen].
    assert (Hvalid : valid_closure s) by (split; assumption).
    destruct (onopen_config_good s f' Hvalid) as (Hend & Hcred & _).
    exists st1, st2, (onopen_config s f'). cbv zeta. repeat split; assumption.
  - assert (Hinit : history_ok [] init []).
    { split; [|split].
      - intros k s Hk'. discriminate.
      - intros k. exact I.
      - intros k Hw. discriminate. }
    destruct (run_history_ok init evs st' effs [] [] Hrun Hinit) as (Hmade & Hfirst & _).
    intros k m rest Hsent. specialize (Hfirst k). cbn [app] in Hfirst.
    rewrite Hsent in Hfirst. destruct Hfirst as (s & f1 & Hks & ->).
    destruct (Hmade k s Hks) as (f0 & Hin & Hend & Hmode & _ & _ & Hvalid).
    destruct (onopen_config_good s f1 Hvalid) as (Hcfg & Hcred & _).
    exists f0, (onopen_config s f1). rewrite <- Hend, <- Hmode.
    repeat split; try assumption. apply Hvalid.
Qed.

End SessionClaims.

(** Witness of [audio_chunk_gate]: connected, microphone off; the worklet
    posts a buffer and the user sends a text. *)
Lemma audio_chunk_gate_witness :
  ∃ st' effs,
    Session.run Demo.parse Demo.parse Demo.divide true Demo.connected
      [Session.WorkletMessage [Byte.x00; Byte.x01]; Session.SubmitText (Js.lit "hello")]
      = Some (st', effs) ∧
    Session.isRecording st' = false ∧
    ∀ k data, ¬ In (Session.Send k (Session.audio_chunk data)) effs.
Proof.
  eexists. eexists.
  assert (Hrun : Session.run Demo.parse Demo.parse Demo.divide true Demo.connected
      [Session.WorkletMessage [Byte.x00; Byte.x01]; Session.SubmitText (Js.lit "hello")]
      = Some _) by (vm_compute; reflexivity).
  split; [exact Hrun|].
  apply (proj2 (audio_chunk_gate _ _ _ _ _ _ _ _ Hrun)).
  - reflexivity.
  - repeat constructor.
Defined.


(** Witness of [start_session_first]: a connection in model mode. *)
Lemma start_session_first_witness :
  ∃ st' effs,
    Session.run Demo.parse Demo.parse Demo.divide true Session.init
      [Session.ClickConnect Demo.model_form; Session.WsOpen 0 Demo.model_form]
      = Some (st', effs) ∧
    ∃ m rest, SessionSpec.sent_on 0 effs = m :: rest ∧
    ∃ f0 cfg, m = Session.start_session cfg ∧
      SessionSpec.credential_of_mode
        (Session.is_agent_mode (Session.value f0 "mode")) cfg.
Proof.
  eexists. eexists.
  assert (Hrun : Session.run Demo.parse Demo.parse Demo.divide true Session.init
      [Session.ClickConnect Demo.model_form; Session.WsOpen 0 Demo.model_form]
      = Some _) by (vm_compute; reflexivity).
  split; [exact Hrun|].
  eexists. eexists. split; [vm_compute; reflexivity|].
  assert (Hg : Session.isConnecting Session.init = false) by reflexivity.
  assert (Hc : Session.isConnected Session.init = false) by reflexivity.
  assert (He : Session.trim (Session.value Demo.model_form "endpoint") ≠ [])
    by (vm_compute; discriminate).
  assert (Hk : if Session.is_agent_mode (Session.value Demo.model_form "mode")
               then Session.trim (Session.value Demo.model_form "entraToken") ≠ []
               else Session.trim (Session.value Demo.model_form "apiKey") ≠ [])
    by (vm_compute; discriminate).
  destruct (proj2 (start_session_first Demo.parse Demo.parse Demo.divide true
                     Demo.model_form Demo.model_form Session.init _ _ _
                     Hg Hc He Hk Hrun) 0%nat _ _ eq_refl)
    as (f0 & cfg & _ & Hm & _ & _ & Hcred).
  exists f0, cfg. split; [exact Hm|exact Hcred].
Defined.

(* ===================================================================== *)
(** * Scheduling written in the page: the scene throttle and the video queue *)
(* ===================================================================== *)

Section FlowControlFacts.
Import Js FlowControl.

Lemma throttled_dropped now f st :
  (now - Session.lastSceneUpdate st < 50)%Z →
  Session.throttledUpdateAvatarScene now f st = (st, []).
Proof.
  intros H. unfold Session.throttledUpdateAvatarScene, Session.SCENE_THROTTLE_MS.
  destruct (Z.ltb_spec (now - Session.lastSceneUpdate st) 50); [reflexivity|lia].
Qed.

Lemma throttled_forwarded now f st :
  (50 <= now - Session.lastSceneUpdate st)%Z →
  Session.throttledUpdateAvatarScene now f st
  = Session.updateAvatarScene f (Session.set_lastSceneUpdate now st).
Proof.
  intros H. unfold Session.throttledUpdateAvatarScene, Session.SCENE_THROTTLE_MS.
  destruct (Z.ltb_spec (now - Session.lastSceneUpdate st) 50); [lia|reflexivity].
Qed.

Lemma updateAvatarScene_keeps_time f st :
  Session.lastSceneUpdate (Session.updateAvatarScene f st).1 = Session.lastSceneUpdate st.
Proof.
  unfold Session.updateAvatarScene.
  repeat match goal with |- context [if ?c then _ else _] => destruct c end;
    try reflexivity.
  destruct (Session.ws_send st); reflexivity.
Qed.

Lemma handleVideoChunk_enqueues data accepted st c :
  Video.decode_chunk data = Some c →
  Video.handleVideoChunk data accepted st
  = Video.processVideoChunkQueue accepted (enqueued c st).
Proof.
  unfold Video.decode_chunk, Video.handleVideoChunk.
  destruct data as [|d data]; [discriminate|].
  destruct (Base64.atob (d :: data)) as [bin|]; [|discriminate].
  simpl. intros [= <-]. reflexivity.
Qed.

Lemma processVideoChunkQueue_busy accepted st :
  can_append st = false → Video.processVideoChunkQueue accepted st = (st, []).
Proof.
  unfold can_append, Video.processVideoChunkQueue.
  destruct (Video.sourceBuffer st) as [b|]; [|reflexivity].
  destruct (Video.mediaSource st) as [m|]; [|reflexivity].
  destruct (Video.updating_of st b); [reflexivity|].
  simpl. intros ->. reflexivity.
Qed.

(** C8, as amended. On top of the event loop of the runtime the page has
    rate limiting and buffering of its own.  [throttledUpdateAvatarScene]
    drops a slider input that comes less than 50 ms after the last forwarded
    one and forwards any other, recording its time.  A video chunk is first
    queued; while the source buffer is updating, or there is no open media
    source, it stays in the queue and nothing is appended; and an
    [updateend] of the current buffer releases the oldest queued chunk, one
    per event. *)
Theorem page_flow_control now f st data accepted vst c b m next queue :
  ((now - Session.lastSceneUpdate st < 50)%Z →
     Session.throttledUpdateAvatarScene now f st = (st, [])) ∧
  ((50 <= now - Session.lastSceneUpdate st)%Z →
     Session.throttledUpdateAvatarScene now f st
     = Session.updateAvatarScene f (Session.set_lastSceneUpdate now st) ∧
     Session.lastSceneUpdate (Session.throttledUpdateAvatarScene now f st).1 = now) ∧
  (Video.decode_chunk data = Some c → can_append vst = false →
     Video.handleVideoChunk data accepted vst = (enqueued c vst, [])) ∧
  (Video.sourceBuffer vst = Some b → Video.mediaSource vst = Some m →
     Video.ready_of vst m = Video.open → Video.videoChunksQueue vst = next :: queue →
     (Video.step vst (Video.UpdateEnd b accepted)).2 = [Video.AppendBuffer b next] ∧
     Video.videoChunksQueue (Video.step vst (Video.UpdateEnd b accepted)).1 = queue).
Proof.
  split; [apply throttled_dropped|]. split; [|split].
  - intros H. rewrite (throttled_forwarded _ _ _ H). split; [reflexivity|].
    rewrite updateAvatarScene_keeps_time. reflexivity.
  - intros Hc Hbusy. rewrite (handleVideoChunk_enqueues _ _ _ _ Hc).
    apply processVideoChunkQueue_busy. exact Hbusy.
  - intros Hb Hm Hr Hq. cbn [Video.step].
    unfold Video.processVideoChunkQueue, Video.with_buffers. cbn [Video.sourceBuffer
      Video.mediaSource Video.videoChunksQueue Video.buffers Video.sources
      Video.videoChunkCount].
    rewrite Hb, Hm, Hq.
    assert (Hu : Video.updating_of
              (Video.State (Some m) (Some b) (next :: queue) (Video.videoChunkCount vst)
                 (Video.sources vst) (<[b:=false]> (Video.buffers vst))) b = false).
    { unfold Video.updating_of. cbn [Video.buffers].
      destruct (decide (b < length (Video.buffers vst))%nat) as [Hlt|Hge].
      - rewrite list_lookup_insert_eq by exact Hlt. reflexivity.
      - rewrite list_insert_ge by lia.
        rewrite (proj2 (lookup_ge_None _ _)) by lia. reflexivity. }
    rewrite Hu.
    assert (Ho : Video.ready_of
              (Video.State (Some m) (Some b) (next :: queue) (Video.videoChunkCount vst)
                 (Video.sources vst) (<[b:=false]> (Video.buffers vst))) m = Video.open).
    { exact Hr. }
    rewrite Ho. split; reflexivity.
Qed.

End FlowControlFacts.

(** The page throttles and queues: less than 50 ms after a forwarded scene
    update a slider input sends nothing, although [updateAvatarScene] would
    send; and a chunk that arrives while the source buffer is updating is
    kept, not appended. *)
Lemma own_flow_control_counterexample :
  (Session.throttledUpdateAvatarScene 1010 Demo.model_form Demo.connected).2 = [] ∧
  (Session.updateAvatarScene Demo.model_form Demo.connected).2
    = [Session.Send 0 (Session.update_scene Demo.model_form)] ∧
  Video.handleVideoChunk (Js.lit "AAA=") true Demo.busy_relay
    = (FlowControl.enqueued [Byte.x00; Byte.x00] Demo.busy_relay, []) ∧
  ¬ FlowControl.no_own_flow_control.
Proof.
  assert (H1 : (Session.throttledUpdateAvatarScene 1010 Demo.model_form Demo.connected).2
               = []) by reflexivity.
  assert (H2 : (Session.updateAvatarScene Demo.model_form Demo.connected).2
               = [Session.Send 0 (Session.update_scene Demo.model_form)])
    by reflexivity.
  split; [exact H1|]. split; [exact H2|]. split; [vm_compute; reflexivity|].
  intros [Hthrottle _].
  specialize (Hthrottle 1010%Z Demo.model_form Demo.connected).
  rewrite H1, H2 in Hthrottle. discriminate.
Qed.

(** Witness of [page_flow_control]: the slider 10 ms after an update, and a
    chunk for the busy relay. *)
Lemma page_flow_control_witness :
  Session.throttledUpdateAvatarScene 1010 Demo.model_form Demo.connected
    = (Demo.connected, []) ∧
  Video.handleVideoChunk (Js.lit "AAA=") true Demo.busy_relay
    = (FlowControl.enqueued [Byte.x00; Byte.x00] Demo.busy_relay, []).
Proof.
  pose proof (page_flow_control 1010 Demo.model_form Demo.connected (Js.lit "AAA=") true
                Demo.busy_relay [Byte.x00; Byte.x00] 0%nat 0%nat [] [])
    as (Hdrop & _ & Hqueue & _).
  split.
  - apply Hdrop. vm_compute. reflexivity.
  - apply Hqueue; vm_compute; reflexivity.
Defined.

(* ===================================================================== *)
(** * Tool-call events: unknown ids, order of delivery, life cycle *)
(* ===================================================================== *)

Section ToolEventFacts.
Import Js ToolCalls ToolEvents.
Context {any : Type}.
Implicit Types (prev : list (tool_call any)) (call : tool_call any) (u v : update any).

Lemma handle_update_matching call_id u prev :
  handle call_id u prev = update_matching call_id (spread u) prev.
Proof. destruct u; reflexivity. Qed.

Lemma spread_id u call : id (spread u call) = id call.
Proof. destruct u; reflexivity. Qed.

Lemma spread_twice u call : spread u (spread u call) = spread u call.
Proof. destruct u; reflexivity. Qed.

Lemma update_matching_absent call_id (f : tool_call any → tool_call any) prev :
  call_id ∉ map id prev → update_matching call_id f prev = prev.
Proof.
  unfold update_matching. induction prev as [|call prev IH]; intros Hnot; [reflexivity|].
  simpl in *. apply not_elem_of_cons in Hnot as [Hne Hnot].
  destruct (decide (id call = call_id)) as [E|_]; [congruence|].
  f_equal. apply IH, Hnot.
Qed.

(** An event for a call that is not in the list (its [tool_call_started]
    was never received, or the list was reset since) changes nothing: no
    entry is created and no entry is touched. *)
Theorem tool_call_unknown_id call_id u prev :
  call_id ∉ map id prev → handle call_id u prev = prev.
Proof. intros H. rewrite handle_update_matching. apply update_matching_absent, H. Qed.

(** Events of two different calls can be delivered in either order: the
    resulting list is the same. *)
Theorem tool_call_updates_commute (a b : jsstring) u v prev :
  a ≠ b → handle a u (handle b v prev) = handle b v (handle a u prev).
Proof.
  intros Hab. rewrite !handle_update_matching. unfold update_matching.
  rewrite !List.map_map. apply map_ext. intros call.
  destruct (decide (id call = b)) as [Eb|Nb];
    destruct (decide (id call = a)) as [Ea|Na];
    rewrite ?spread_id;
    repeat match goal with
           | |- context [decide (?x = ?y)] => destruct (decide (x = y))
           end; congruence.
Qed.

(** Delivering the same event twice is the same as delivering it once. *)
Theorem tool_call_update_idempotent (a : jsstring) u prev :
  handle a u (handle a u prev) = handle a u prev.
Proof.
  rewrite !handle_update_matching. unfold update_matching.
  rewrite List.map_map. apply map_ext. intros call.
  destruct (decide (id call = a)) as [Ea|Na].
  - rewrite spread_id. destruct (decide (id call = a)); [|contradiction].
    apply spread_twice.
  - destruct (decide (id call = a)); [contradiction|reflexivity].
Qed.

(** The life cycle of a call whose id is new to the list: after [started],
    [arguments], [executing] and [completed] the list is the previous one
    followed by one entry, which has the name and the timestamp of the
    [started] event, the arguments, the result and the execution time, status
    [completed] and no error. *)
Theorem tool_call_lifecycle (call_id fname : jsstring) (args res : any)
    (t ts : Num.number) prev :
  call_id ∉ map id prev →
  onToolCallCompleted call_id res t
    (onToolCallExecuting call_id
       (onToolCallArguments call_id args
          (onToolCallStarted call_id fname ts prev)))
  = prev ++ [ToolCall call_id fname completed (Some args) (Some res) None (Some t) ts].
Proof.
  intros Hnew.
  change (update_matching call_id (with_completed res t)
            (update_matching call_id (with_status executing)
               (update_matching call_id (with_arguments args)
                  (prev ++ [ToolCall call_id fname started None None None None ts])))
          = prev ++ [ToolCall call_id fname completed (Some args) (Some res) None (Some t) ts]).
  unfold update_matching at 3. rewrite map_app.
  unfold update_matching at 2. rewrite map_app.
  unfold update_matching at 1. rewrite map_app.
  f_equal.
  - fold (update_matching call_id (with_arguments args) prev).
    rewrite (update_matching_absent _ _ _ Hnew).
    fold (update_matching call_id (with_status executing) prev).
    rewrite (update_matching_absent _ _ _ Hnew).
    apply update_matching_absent, Hnew.
  - simpl. destruct (decide (call_id = call_id)) as [_|N]; [|contradiction].
    simpl. destruct (decide (call_id = call_id)) as [_|N]; [|contradiction].
    simpl. destruct (decide (call_id = call_id)) as [_|N]; [|contradiction].
    reflexivity.
Qed.

End ToolEventFacts.

Lemma tool_call_unknown_id_witness :
  let c1 := ToolCalls.ToolCall (any := nat) (Js.lit "a") (Js.lit "search")
              ToolCalls.started None None None None (Num.Fin 1) in
  ToolEvents.handle (Js.lit "b") (ToolEvents.Completed 7%nat (Num.Fin 12)) [c1] = [c1].
Proof.
  intros c1. apply (tool_call_unknown_id (Js.lit "b") (ToolEvents.Completed 7%nat (Num.Fin 12)) [c1]).
  apply not_elem_of_cons. split; [discriminate | apply not_elem_of_nil].
Defined.

Lemma tool_call_updates_commute_witness :
  let c1 := ToolCalls.ToolCall (any := nat) (Js.lit "a") (Js.lit "search")
              ToolCalls.started None None None None (Num.Fin 1) in
  let c2 := ToolCalls.ToolCall (any := nat) (Js.lit "b") (Js.lit "report")
              ToolCalls.started None None None None (Num.Fin 2) in
  ToolEvents.handle (Js.lit "a") ToolEvents.Executing
    (ToolEvents.handle (Js.lit "b") (ToolEvents.Error (Js.lit "timeout")) [c1; c2])
  = ToolEvents.handle (Js.lit "b") (ToolEvents.Error (Js.lit "timeout"))
    (ToolEvents.handle (Js.lit "a") ToolEvents.Executing [c1; c2]).
Proof.
  intros c1 c2. apply tool_call_updates_commute. vm_compute. discriminate.
Defined.

Lemma tool_call_lifecycle_witness :
  ToolCalls.onToolCallCompleted (Js.lit "a") 5%nat (Num.Fin 12)
    (ToolCalls.onToolCallExecuting (Js.lit "a")
       (ToolCalls.onToolCallArguments (Js.lit "a") 3%nat
          (ToolCalls.onToolCallStarted (Js.lit "a") (Js.lit "search") (Num.Fin 1) [])))
  = [ToolCalls.ToolCall (Js.lit "a") (Js.lit "search") ToolCalls.completed
       (Some 3%nat) (Some 5%nat) None (Some (Num.Fin 12)) (Num.Fin 1)].
Proof.
  apply (tool_call_lifecycle (Js.lit "a") (Js.lit "search") 3%nat 5%nat
           (Num.Fin 12) (Num.Fin 1) []).
  simpl. apply not_elem_of_nil.
Defined.

(* ===================================================================== *)
(** * Base64 transport: sizes, whitespace, rejected input *)
(* ===================================================================== *)

Section Base64More.
Import Js Base64 Util.

Local Arguments strip_padding : simpl never.

Lemma bytes_latin1 (b : list Byte.byte) : Forall (λ c, c < 256) (map Byte.to_N b).
Proof.
  apply List.Forall_forall. intros x Hx. apply in_map_iff in Hx as [y [<- _]].
  pose proof (Byte.to_N_bounded y). lia.
Qed.

Lemma arrayBufferToBase64_encode (b : list Byte.byte) :
  arrayBufferToBase64 b = Some (encode (map Byte.to_N b)).
Proof.
  unfold arrayBufferToBase64. rewrite binary_of_bytes. simpl.
  apply btoa_bytes, bytes_latin1.
Qed.

Lemma base64ToArrayBuffer_encode (b : list Byte.byte) :
  base64ToArrayBuffer (encode (map Byte.to_N b)) = Some b.
Proof.
  unfold base64ToArrayBuffer. rewrite atob_encode by apply bytes_latin1. simpl.
  unfold charCodes. rewrite map_map. f_equal.
  rewrite <- (map_id b) at 2. apply map_ext. intros a. apply byte_of_to_N.
Qed.

Lemma encode_length_exact bs : length (encode bs) = (4 * ((length bs + 2) / 3))%nat.
Proof.
  unfold encode.
  induction bs as [|a|a b|a b c r IH] using list_ind3; try reflexivity.
  change (length (a :: b :: c :: r)) with (S (S (S (length r)))).
  rewrite padding_step. simpl length. rewrite IH.
  set (n := length r). lia.
Qed.

(** The base64 text of a buffer of [n] bytes has [4 * ceil(n / 3)]
    characters (this is the [size] that the page logs for an audio chunk). *)
Theorem arrayBufferToBase64_length (b : list Byte.byte) :
  ∃ s, arrayBufferToBase64 b = Some s ∧ length s = (4 * ((length b + 2) / 3))%nat.
Proof.
  exists (encode (map Byte.to_N b)). split; [apply arrayBufferToBase64_encode|].
  rewrite encode_length_exact, length_map. reflexivity.
Qed.

(** ASCII whitespace anywhere in the base64 text (a line break added by a
    transport, say) does not change what [base64ToArrayBuffer] returns. *)
Theorem base64ToArrayBuffer_ignores_whitespace (s1 s2 : jsstring) c :
  is_ascii_whitespace c = true →
  base64ToArrayBuffer (s1 ++ c :: s2) = base64ToArrayBuffer (s1 ++ s2).
Proof.
  intros Hc. unfold base64ToArrayBuffer, atob.
  rewrite !List.filter_app. cbn [List.filter]. rewrite Hc. reflexivity.
Qed.

Lemma strip_padding_keeps (l : jsstring) c :
  In c l → c ≠ 61 → In c (strip_padding l).
Proof.
  intros Hin Hc. induction l as [|x r IH]; [destruct Hin|].
  unfold strip_padding; fold strip_padding.
  destruct (N.eqb_spec x 61) as [Ex|Nx]; cbn [andb].
  - destruct Hin as [->|Hin]; [contradiction|].
    destruct r as [|y [|z r']].
    + destruct Hin.
    + destruct (N.eqb_spec y 61) as [Ey|Ny].
      * destruct Hin as [->|[]]. contradiction.
      * right. apply IH. exact Hin.
    + right. apply IH. exact Hin.
  - destruct Hin as [->|Hin]; [left; reflexivity|right; apply IH, Hin].
Qed.

(** A character that is neither in the base64 alphabet, nor ASCII
    whitespace, nor [=] makes [atob] throw: [base64ToArrayBuffer] returns
    nothing, whatever surrounds the character. *)
Theorem base64ToArrayBuffer_rejects (s : jsstring) c :
  In c s → is_ascii_whitespace c = false → c ≠ 61 → alphabet_index c = None →
  base64ToArrayBuffer s = None.
Proof.
  intros Hin Hws Hpad Hidx. unfold base64ToArrayBuffer, atob.
  set (d := List.filter _ s).
  assert (Hd : In c d).
  { apply filter_In. split; [exact Hin|]. rewrite Hws. reflexivity. }
  set (d' := if (length d mod 4 =? 0)%nat then strip_padding d else d).
  assert (Hd' : In c d').
  { unfold d'. destruct (length d mod 4 =? 0)%nat; [|exact Hd].
    apply strip_padding_keeps; assumption. }
  cbv zeta. fold d'.
  destruct (length d' mod 4 =? 1)%nat; [reflexivity|].
  destruct (mapM alphabet_index d') as [vs|] eqn:E; [|reflexivity].
  exfalso. apply mapM_Some_1 in E.
  clear -E Hd' Hidx. induction E as [|x v l vs Hx _ IH]; [destruct Hd'|].
  destruct Hd' as [->|Hd']; [congruence|]. apply IH, Hd'.
Qed.

Lemma alphabet_index_bound c v : alphabet_index c = Some v → v < 64.
Proof.
  unfold alphabet_index.
  repeat match goal with
         | |- context [N.leb ?a ?b] => destruct (N.leb_spec a b)
         | |- context [N.eqb ?a ?b] => destruct (N.eqb_spec a b)
         end; cbn [andb]; intros [= <-]; lia.
Qed.

Lemma decode_sextets_bound vs :
  Forall (λ v, v < 64) vs → Forall (λ b, b < 256) (decode_sextets vs).
Proof.
  revert vs. fix IH 1.
  intros [|v1 [|v2 [|v3 [|v4 r]]]] H; cbn [decode_sextets]; try constructor.
  - inversion_clear H as [|? ? H1 H']. inversion_clear H' as [|? ? H2 _]. lia.
  - constructor.
  - inversion_clear H as [|? ? H1 H']. inversion_clear H' as [|? ? H2 _]. lia.
  - inversion_clear H as [|? ? H1 H']. inversion_clear H' as [|? ? H2 H''].
    inversion_clear H'' as [|? ? H3 _]. constructor; [lia|constructor].
  - inversion_clear H as [|? ? H1 H']. inversion_clear H' as [|? ? H2 _]. lia.
  - inversion_clear H as [|? ? H1 H']. inversion_clear H' as [|? ? H2 H''].
    inversion_clear H'' as [|? ? H3 H']. inversion_clear H' as [|? ? H4 Hr].
    constructor; [lia|]. constructor; [lia|]. apply IH, Hr.
Qed.

Lemma atob_latin1 (s bin : jsstring) : atob s = Some bin → Forall (λ c, c < 256) bin.
Proof.
  unfold atob. cbv zeta.
  match goal with |- context [mapM alphabet_index ?d] => set (d' := d) end.
  destruct (length d' mod 4 =? 1)%nat; [discriminate|].
  destruct (mapM alphabet_index d') as [vs|] eqn:E; [|discriminate].
  simpl. intros [= <-]. apply decode_sextets_bound.
  apply mapM_Some_1 in E. clear -E.
  induction E as [|x v l vs Hx _ IH]; constructor; [|exact IH].
  eapply alphabet_index_bound, Hx.
Qed.

Lemma to_N_byte_of_N n : Byte.to_N (byte_of_N n) = n mod 256.
Proof.
  unfold byte_of_N.
  destruct (Byte.of_N (n mod 256)) as [b|] eqn:E.
  - simpl. apply Byte.to_of_N, E.
  - apply Byte.of_N_None_iff in E. lia.
Qed.

(** The [Uint8Array] of [base64ToArrayBuffer] holds the characters of the
    decoded string unchanged: every one is below 256, so the store into the
    array truncates nothing. *)
Theorem base64ToArrayBuffer_exact (s bin : jsstring) :
  atob s = Some bin →
  Forall (λ c, c < 256) bin ∧
  ∃ bytes, base64ToArrayBuffer s = Some bytes ∧ map Byte.to_N bytes = bin.
Proof.
  intros Hs. pose proof (atob_latin1 _ _ Hs) as Hb. split; [exact Hb|].
  unfold base64ToArrayBuffer. rewrite Hs. simpl. eexists. split; [reflexivity|].
  unfold charCodes. rewrite map_map.
  clear Hs. induction Hb as [|c r Hc _ IH]; [reflexivity|].
  simpl. rewrite to_N_byte_of_N, IH. f_equal. lia.
Qed.

End Base64More.

Lemma base64ToArrayBuffer_ignores_whitespace_witness :
  Util.base64ToArrayBuffer (Js.lit "TW" ++ 10 :: Js.lit "Fu")
  = Util.base64ToArrayBuffer (Js.lit "TW" ++ Js.lit "Fu").
Proof.
  apply (base64ToArrayBuffer_ignores_whitespace (Js.lit "TW") (Js.lit "Fu") 10).
  reflexivity.
Defined.

Lemma base64ToArrayBuffer_rejects_witness :
  Util.base64ToArrayBuffer (Js.lit "TW-u") = None.
Proof.
  apply (base64ToArrayBuffer_rejects (Js.lit "TW-u") 45).
  - right. right. left. reflexivity.
  - reflexivity.
  - discriminate.
  - reflexivity.
Defined.

Lemma base64ToArrayBuffer_exact_witness :
  ∃ bytes, Util.base64ToArrayBuffer (Js.lit "TWFu") = Some bytes
           ∧ map Byte.to_N bytes = [77; 97; 110].
Proof.
  apply (base64ToArrayBuffer_exact (Js.lit "TWFu") [77; 97; 110]).
  reflexivity.
Defined.

(* ===================================================================== *)
(** * Audio wire format: worklet buffers, chunks, decoded samples *)
(* ===================================================================== *)

Section WireFacts.
Import Js Base64 Util AudioWire.
Import Num Pcm16.
Local Open Scope Z_scope.

Lemma int16_view_bytes pcm16 :
  Forall is_int16 pcm16 → Playback.int16_view (int16_bytes pcm16) = Some pcm16.
Proof.
  induction 1 as [|v l Hv _ IH]; [reflexivity|].
  unfold int16_bytes in *. cbn [flat_map app]. cbn [Playback.int16_view].
  rewrite IH. do 2 f_equal.
  rewrite !to_N_byte_of_N. unfold wrap16, is_int16 in *.
  set (u := Z.to_N (v mod 65536)).
  assert (Hu : Z.of_N u = v mod 65536) by (unfold u; lia).
  assert (Hlo : Z.of_N (u mod 256 mod 256) = (v mod 65536) mod 256).
  { rewrite N.Div0.mod_mod, N2Z.inj_mod, Hu. reflexivity. }
  assert (Hhi : Z.of_N ((u / 256) mod 256) = (v mod 65536) / 256).
  { rewrite N2Z.inj_mod, N2Z.inj_div, Hu. change (Z.of_N 256) with 256.
    apply Z.mod_small. lia. }
  rewrite Hlo, Hhi. lia.
Qed.

Lemma int16_bytes_length pcm16 : length (int16_bytes pcm16) = (2 * length pcm16)%nat.
Proof.
  unfold int16_bytes. induction pcm16 as [|v l IH]; [reflexivity|].
  cbn [flat_map app length]. rewrite IH. lia.
Qed.

(** An [audio_chunk] carries its samples intact: for every non-empty array
    of 16-bit samples, the worklet's buffer is encoded into [4 * ceil(2n / 3)]
    characters, and [handleAudioDelta] decodes that text into the same
    samples, each divided by 32768. *)
Theorem audio_chunk_wire_roundtrip pcm16 :
  Forall is_int16 pcm16 → pcm16 ≠ [] →
  ∃ data, audio_chunk_data pcm16 = Some data ∧
          length data = (4 * ((2 * length pcm16 + 2) / 3))%nat ∧
          Playback.decoded data = Some (Playback.to_float32 pcm16).
Proof.
  intros Hrange Hne. unfold audio_chunk_data.
  exists (encode (map Byte.to_N (int16_bytes pcm16))).
  split; [apply arrayBufferToBase64_encode|].
  assert (Hlen : length (encode (map Byte.to_N (int16_bytes pcm16)))
                 = (4 * ((2 * length pcm16 + 2) / 3))%nat).
  { rewrite encode_length_exact, length_map, int16_bytes_length. reflexivity. }
  split; [exact Hlen|].
  unfold Playback.decoded.
  destruct (encode (map Byte.to_N (int16_bytes pcm16))) as [|c r] eqn:E.
  { exfalso. destruct pcm16 as [|v l]; [congruence|]. cbn [length] in Hlen. lia. }
  rewrite <- E, base64ToArrayBuffer_encode, int16_view_bytes by exact Hrange.
  destruct pcm16; [congruence|reflexivity].
Qed.

(** A sample decoded for playback and converted back by the capture worklet
    keeps its 16-bit value when it is zero or negative and loses one step
    when it is positive: playback divides by 32768, capture multiplies
    positive samples by 32767. *)
Theorem playback_capture_sample v :
  is_int16 v →
  convert (Fin (v # 32768)) = if v <=? 0 then v else v - 1.
Proof.
  unfold is_int16. intros Hv.
  destruct (Z.leb_spec v 0) as [Hle|Hgt].
  - destruct (Z.eq_dec v 0) as [->|Hnz]; [reflexivity|].
    destruct (Z.eq_dec v (-32768)) as [->|Hmin]; [reflexivity|].
    destruct (convert_fin_cases (v # 32768))
      as [[H _]|[(_ & _ & ->)|[(H & _)|[H _]]]].
    + exfalso. unfold Qle in H. simpl in H. lia.
    + unfold Qceiling, Qfloor, Qopp, Qmult, inject_Z. cbn [Qnum Qden].
      change (Z.pos (32768 * 1)) with 32768. lia.
    + exfalso. unfold Qle in H. simpl in H. lia.
    + exfalso. unfold Qle in H. simpl in H. lia.
  - destruct (convert_fin_cases (v # 32768))
      as [[H _]|[(_ & H & _)|[(_ & _ & ->)|[H _]]]].
    + exfalso. unfold Qle in H. simpl in H. lia.
    + exfalso. unfold Qlt in H. simpl in H. lia.
    + unfold Qfloor, Qmult, inject_Z. cbn [Qnum Qden].
      change (Z.pos (32768 * 1)) with 32768. lia.
    + exfalso. unfold Qle in H. simpl in H. lia.
Qed.

Lemma int16_view_range bytes int16 :
  Playback.int16_view bytes = Some int16 →
  Forall is_int16 int16 ∧ length bytes = (2 * length int16)%nat.
Proof.
  revert bytes int16. fix IH 1.
  intros [|lo [|hi rest]] int16; cbn [Playback.int16_view].
  - intros [= <-]. split; [constructor|reflexivity].
  - discriminate.
  - destruct (Playback.int16_view rest) as [l|] eqn:E; [|discriminate].
    intros [= <-]. destruct (IH rest l E) as [Hl Hlen]. split.
    + constructor; [apply wrap16_range|exact Hl].
    + cbn [length]. rewrite Hlen. lia.
Qed.

Lemma to_float32_range int16 :
  Forall is_int16 int16 →
  Forall (λ x, (-1 # 1 <= x)%Q ∧ (x < 1)%Q) (Playback.to_float32 int16).
Proof.
  unfold Playback.to_float32.
  induction 1 as [|x xs Hx _ IH]; [constructor|].
  cbn [map]. constructor; [|exact IH].
  unfold is_int16 in Hx. unfold Qle, Qlt. cbn [Qnum Qden]. lia.
Qed.

(** Whatever text arrives in an [audio_data] message, the samples that
    [handleAudioDelta] copies into the audio buffer lie in [-1, 1): a decoded
    chunk cannot clip, and it has at least one frame. *)
Theorem decoded_samples_range (data : jsstring) (float32 : list Q) :
  Playback.decoded data = Some float32 →
  float32 ≠ [] ∧ Forall (λ x, (-1 # 1 <= x)%Q ∧ (x < 1)%Q) float32.
Proof.
  unfold Playback.decoded. destruct data as [|c r]; [discriminate|].
  destruct (base64ToArrayBuffer (c :: r)) as [arrayBuffer|]; [|discriminate].
  destruct (Playback.int16_view arrayBuffer) as [[|v l]|] eqn:E; try discriminate.
  intros [= <-]. split; [discriminate|].
  apply int16_view_range in E as [Hr _].
  apply (to_float32_range (v :: l)), Hr.
Qed.

(** The worklet loses and reorders nothing: whatever the sizes of the input
    blocks, every sample is converted exactly once and in order, into arrays
    of exactly [bufferSize] (2400) values; the samples not yet posted are
    fewer than 2400 and wait in the buffer. *)
Theorem worklet_buffering buffer data :
  (length buffer < bufferSize)%nat →
  (length (process buffer data).1 < bufferSize)%nat ∧
  Forall (λ pcm16, length pcm16 = bufferSize) (process buffer data).2 ∧
  concat (process buffer data).2 ++ map convert (process buffer data).1
    = map convert (buffer ++ data) ∧
  (length (process buffer data).2 * bufferSize + length (process buffer data).1
    = length buffer + length data)%nat.
Proof.
  assert (Hpos : (0 < bufferSize)%nat) by (unfold bufferSize; lia).
  revert buffer. induction data as [|x data IH]; intros buffer Hlt.
  - cbn [process fst snd concat app length]. rewrite app_nil_r.
    repeat split; [exact Hlt|constructor|lia].
  - rewrite process_cons.
    destruct (Nat.leb_spec bufferSize (length (buffer ++ [x]))) as [Hfull|Hnot].
    + destruct (IH [] Hpos) as (H1 & H2 & H3 & H4).
      assert (Hlen : length (buffer ++ [x]) = bufferSize).
      { rewrite length_app in *. cbn [length] in *. lia. }
      cbn [fst snd]. repeat split.
      * exact H1.
      * constructor; [rewrite length_map; exact Hlen|exact H2].
      * cbn [concat]. rewrite <- app_assoc, H3.
        rewrite <- map_app. f_equal. rewrite <- app_assoc. reflexivity.
      * cbn [length] in *. rewrite length_app in Hlen. cbn [length] in Hlen. lia.
    + destruct (IH (buffer ++ [x]) Hnot) as (H1 & H2 & H3 & H4).
      repeat split; [exact H1|exact H2| |].
      * rewrite H3, <- app_assoc. reflexivity.
      * rewrite H4, length_app. cbn [length]. lia.
Qed.

End WireFacts.

Lemma audio_chunk_wire_roundtrip_witness :
  ∃ data, AudioWire.audio_chunk_data [-32768; 255; -1]%Z = Some data ∧
          length data = 8%nat ∧
          Playback.decoded data = Some [(-32768 # 32768); (255 # 32768); (-1 # 32768)]%Q.
Proof.
  apply (audio_chunk_wire_roundtrip [-32768; 255; -1]%Z).
  - repeat constructor; unfold AudioWire.is_int16; lia.
  - discriminate.
Defined.

Lemma playback_capture_sample_witness :
  Pcm16.convert (Num.Fin (16384 # 32768)) = 16383%Z
  ∧ Pcm16.convert (Num.Fin (-16384 # 32768)) = (-16384)%Z.
Proof.
  split.
  - apply (playback_capture_sample 16384). unfold AudioWire.is_int16. lia.
  - apply (playback_capture_sample (-16384)). unfold AudioWire.is_int16. lia.
Defined.

Lemma decoded_samples_range_witness :
  [(77 + 256 * 97) # 32768]%Q ≠ []
  ∧ Forall (λ x, (-1 # 1 <= x)%Q ∧ (x < 1)%Q) [(77 + 256 * 97) # 32768]%Q.
Proof.
  apply (decoded_samples_range (Js.lit "TWE=")). reflexivity.
Defined.

Lemma worklet_buffering_witness :
  let r := Pcm16.process [Num.Fin 0] [Num.Fin 1; Num.NaN] in
  (length r.1 < Pcm16.bufferSize)%nat ∧
  Forall (λ pcm16, length pcm16 = Pcm16.bufferSize) r.2 ∧
  concat r.2 ++ map Pcm16.convert r.1
    = map Pcm16.convert ([Num.Fin 0] ++ [Num.Fin 1; Num.NaN]) ∧
  (length r.2 * Pcm16.bufferSize + length r.1 = 1 + 2)%nat.
Proof.
  apply (worklet_buffering [Num.Fin 0] [Num.Fin 1; Num.NaN]).
  unfold Pcm16.bufferSize. cbn [length]. lia.
Defined.

(* ===================================================================== *)
(** * Playback: the next free time *)
(* ===================================================================== *)

Section PlaybackMore.
Import Js Playback.
Context {T : Type} {clock : Clock T}.
Implicit Types (st : state T) (msgs : list (T * jsstring)).

Lemma run_nothing_scheduled st msgs :
  playbackContext st = true → (run st msgs).2 = [] → (run st msgs).1 = st.
Proof.
  revert st. induction msgs as [|[now data] msgs IH]; intros st Hc Hrun; [reflexivity|].
  cbn [run] in *. pose proof (handleAudioDelta_spec now data st) as Hs.
  destruct (decoded data) as [f|].
  - rewrite Hs in Hrun. destruct (run _ msgs). discriminate Hrun.
  - destruct Hs as [Hnone Hsame]. specialize (Hsame Hc).
    destruct (handleAudioDelta now data st) as [st1 out]. simpl in *. subst.
    specialize (IH st Hc). destruct (run st msgs) as [st2 outs2].
    simpl in *. apply IH, Hrun.
Qed.

(** After any sequence of [audio_data] messages in which something was
    scheduled, the playback context exists and [nextPlaybackTime] is the end
    of the last buffer started, whatever undecodable messages came after it:
    the next chunk is queued right behind the audio already scheduled. *)
Theorem playback_next_is_end_of_last st msgs s :
  list.last (run st msgs).2 = Some s →
  (run st msgs).1 = State true (add (when s) (buffer_duration s)).
Proof.
  revert st. induction msgs as [|[now data] msgs IH]; intros st Hlast.
  - discriminate.
  - cbn [run] in *. pose proof (handleAudioDelta_spec now data st) as Hs.
    destruct (decoded data) as [f|].
    + rewrite Hs in *.
      set (st1 := State true (add (start_time now st) (duration (length f)))) in *.
      specialize (IH st1). pose proof (run_nothing_scheduled st1 msgs eq_refl) as Hn.
      destruct (run st1 msgs) as [st2 outs2]. cbn [fst snd] in *.
      destruct outs2 as [|s2 outs2].
      * injection Hlast as <-. rewrite Hn by reflexivity. reflexivity.
      * apply IH. exact Hlast.
    + destruct Hs as [Hnone _].
      destruct (handleAudioDelta now data st) as [st1 out]. simpl in Hnone. subst.
      specialize (IH st1). destruct (run st1 msgs) as [st2 outs2]. apply IH, Hlast.
Qed.

End PlaybackMore.

Lemma playback_next_is_end_of_last_witness :
  (Playback.run (clock := Playback.Q_clock) Playback.init
     [((1 # 2)%Q, Js.lit "AAA="); ((3 # 4)%Q, Js.lit "?")]).1
  = Playback.State true (Qplus (1 # 2) (1 # 24000)).
Proof.
  apply (playback_next_is_end_of_last (clock := Playback.Q_clock) Playback.init
           [((1 # 2)%Q, Js.lit "AAA="); ((3 # 4)%Q, Js.lit "?")]
           (Playback.Scheduled (1 # 2)%Q [(0 # 32768)%Q])).
  vm_compute. reflexivity.
Defined.

(* ===================================================================== *)
(** * Video relay: chunks accounted for, valid references, waiting for the buffer *)
(* ===================================================================== *)

Section VideoMore.
Import Js Video VideoSpec.
Implicit Types (st : state) (evs : list event) (effs : list effect).

Lemma step_conserves st e :
  keeps_queue e = true →
  appended (step st e).2 ++ videoChunksQueue (step st e).1
  = videoChunksQueue st ++ received [e].
Proof.
  intros Hk. destruct e as [supported| |data accepted|m added|m|m|b accepted];
    try discriminate Hk; cbn [step].
  - unfold handleVideoChunk, received, decode_chunk. simpl.
    destruct data as [|c data]; [simpl; by rewrite app_nil_r|].
    destruct (Base64.atob (c :: data)) as [bin|]; simpl; [|by rewrite app_nil_r].
    match goal with |- context [processVideoChunkQueue _ ?s] =>
      destruct (processVideoChunkQueue_spec accepted s)
        as [E|(b & m & next & queue & _ & _ & _ & _ & Eq & E)]; rewrite E end.
    + reflexivity.
    + simpl in *. rewrite Eq. reflexivity.
  - unfold on_sourceopen. simpl.
    destruct (mediaSource st); [|simpl; by rewrite app_nil_r].
    match goal with |- context [if ?c then _ else _] => destruct c end;
      simpl; by rewrite app_nil_r.
  - simpl. by rewrite app_nil_r.
  - simpl. by rewrite app_nil_r.
  - match goal with |- context [processVideoChunkQueue _ ?s] =>
      destruct (processVideoChunkQueue_spec accepted s)
        as [E|(b' & m & next & queue & _ & _ & _ & _ & Eq & E)]; rewrite E end.
    + simpl. by rewrite app_nil_r.
    + simpl in *. rewrite Eq. by rewrite app_nil_r.
Qed.

Lemma attempts_calls st evs : map fst (attempts st evs) = appended (run st evs).2.
Proof.
  revert st. induction evs as [|e evs IH]; intros st; [reflexivity|].
  cbn [attempts run]. specialize (IH (step st e).1).
  destruct (step st e) as [st1 out]. cbn [fst snd] in *.
  destruct (run st1 evs) as [st2 outs]. cbn [fst snd] in *.
  rewrite map_app, map_map, appended_app, IH. cbn [fst].
  rewrite map_id. reflexivity.
Qed.

Lemma attempts_accepted st evs :
  forallb accepts evs = true → Forall (λ a, a.2 = true) (attempts st evs).
Proof.
  revert st. induction evs as [|e evs IH]; intros st Ha; [constructor|].
  cbn [forallb] in Ha. apply andb_prop in Ha as [He Ha].
  cbn [attempts]. apply Forall_app. split; [|apply IH, Ha].
  apply List.Forall_forall. intros a Hin.
  apply in_map_iff in Hin as (c & <- & _). exact He.
Qed.

Lemma outcomes_split (l : list (chunk * bool)) :
  map fst (List.filter snd l) ++ map fst (List.filter (λ a, negb a.2) l)
  ≡ₚ map fst l.
Proof.
  induction l as [|[c []] l IH]; cbn [List.filter map fst snd negb app].
  - reflexivity.
  - by rewrite IH.
  - rewrite <- Permutation_middle. by rewrite IH.
Qed.

Lemma outcomes_sublist (f : chunk * bool → bool) (l : list (chunk * bool)) :
  sublist (map fst (List.filter f l)) (map fst l).
Proof.
  induction l as [|a l IH]; cbn [List.filter map]; [constructor|].
  destruct (f a); cbn [map]; [by apply sublist_skip|by apply sublist_cons].
Qed.

Lemma outcomes_all (l : list (chunk * bool)) :
  Forall (λ a, a.2 = true) l →
  map fst (List.filter snd l) = map fst l ∧
  map fst (List.filter (λ a, negb a.2) l) = [].
Proof.
  induction 1 as [|[c ok] l Hc _ [IH1 IH2]]; [split; reflexivity|].
  cbn [snd] in Hc. subst ok. cbn [List.filter map fst snd negb].
  rewrite IH1, IH2. split; reflexivity.
Qed.

(** As long as the relay is neither cleaned up nor set up again, every chunk
    is handed to [appendBuffer] at most once and in order of arrival: at
    every moment the chunks handed over so far followed by the chunks still
    queued are exactly the chunks that were queued at the start followed by
    the chunks received since.  Of the chunks handed over, the source buffer
    took some and [appendBuffer] threw on the others; these are dropped, as
    they have left the queue.  So the chunks taken, in order, are among the
    chunks queued or received, and when no call throws, the chunks taken
    followed by the chunks still queued are all of them: none is lost. *)
Theorem video_chunks_accounted st evs :
  forallb keeps_queue evs = true →
  appended (run st evs).2 ++ videoChunksQueue (run st evs).1
    = videoChunksQueue st ++ received evs ∧
  map fst (attempts st evs) = appended (run st evs).2 ∧
  taken st evs ++ dropped st evs ≡ₚ appended (run st evs).2 ∧
  sublist (taken st evs) (appended (run st evs).2) ∧
  taken st evs ++ dropped st evs ++ videoChunksQueue (run st evs).1
    ≡ₚ videoChunksQueue st ++ received evs ∧
  (forallb accepts evs = true →
   dropped st evs = [] ∧
   taken st evs ++ videoChunksQueue (run st evs).1
     = videoChunksQueue st ++ received evs).
Proof.
  intros Hk.
  assert (Hcons : appended (run st evs).2 ++ videoChunksQueue (run st evs).1
                  = videoChunksQueue st ++ received evs).
  { clear -Hk. revert st Hk. induction evs as [|e evs IH]; intros st Hk.
    - simpl. by rewrite app_nil_r.
    - cbn [forallb] in Hk. apply andb_prop in Hk as [He Hk].
      change (received (e :: evs)) with (received ([e] ++ evs)).
      pose proof (step_conserves st e He) as Hstep.
      cbn [run]. destruct (step st e) as [st1 out].
      specialize (IH st1 Hk). destruct (run st1 evs) as [st2 outs].
      cbn [fst snd] in *.
      rewrite received_app, appended_app, <- app_assoc, IH.
      rewrite !app_assoc. f_equal. exact Hstep. }
  pose proof (attempts_calls st evs) as Hcalls.
  pose proof (outcomes_split (attempts st evs)) as Hsplit.
  fold (taken st evs) (dropped st evs) in Hsplit. rewrite Hcalls in Hsplit.
  split; [exact Hcons|]. split; [exact Hcalls|]. split; [exact Hsplit|].
  split; [|split].
  - rewrite <- Hcalls. apply outcomes_sublist.
  - rewrite app_assoc, Hsplit, Hcons. reflexivity.
  - intros Ha. destruct (outcomes_all _ (attempts_accepted st evs Ha)) as [Ht Hd].
    fold (taken st evs) in Ht. fold (dropped st evs) in Hd.
    split; [exact Hd|]. rewrite Ht, Hcalls. exact Hcons.
Qed.

Lemma processVideoChunkQueue_refs accepted st :
  refs_valid st → refs_valid (processVideoChunkQueue accepted st).1.
Proof.
  intros Hv.
  destruct (processVideoChunkQueue_spec accepted st)
    as [E|(b & m & next & queue & Hb & Hm & _ & _ & _ & E)]; rewrite E; [exact Hv|].
  destruct Hv as [Hs Hbuf]. split; cbn [fst mediaSource sourceBuffer sources buffers].
  - exact Hs.
  - intros b' Hb'. destruct (Hbuf b' Hb') as [Hlen Hsome]. split; [|exact Hsome].
    destruct accepted; [rewrite length_insert|]; exact Hlen.
Qed.

Lemma step_refs st e : refs_valid st → refs_valid (step st e).1.
Proof.
  intros Hv. destruct e as [supported| |data accepted|m added|m|m|b accepted];
    cbn [step fst].
  - unfold setupWebSocketVideoPlayback, cleanupWebSocketVideo.
    destruct supported; split; cbn [mediaSource sourceBuffer sources buffers];
      try discriminate.
    intros m [= <-]. rewrite length_app. cbn [length]. lia.
  - split; cbn; discriminate.
  - unfold handleVideoChunk. destruct data as [|c data]; [exact Hv|].
    destruct (Base64.atob (c :: data)); [|exact Hv].
    apply processVideoChunkQueue_refs. exact Hv.
  - destruct Hv as [Hs Hbuf]. unfold on_sourceopen, with_sources.
    cbn [mediaSource sourceBuffer sources buffers videoChunksQueue videoChunkCount].
    destruct (mediaSource st) as [m0|] eqn:Em.
    + match goal with |- context [if ?c then _ else _] => destruct c end;
        split; cbn [mediaSource sourceBuffer sources buffers].
      * intros m1 [= <-]. rewrite length_insert. apply Hs. reflexivity.
      * intros b [= <-]. rewrite length_app. cbn [length]. split; [lia|discriminate].
      * intros m1 [= <-]. rewrite length_insert. apply Hs. reflexivity.
      * intros b Hb. destruct (Hbuf b Hb). split; [assumption|discriminate].
    + split; cbn [mediaSource sourceBuffer sources buffers].
      * discriminate.
      * intros b Hb. destruct (Hbuf b Hb) as [_ H]. congruence.
  - destruct Hv as [Hs Hbuf]. split; cbn; [|exact Hbuf].
    intros m1 Hm. rewrite length_insert. apply Hs, Hm.
  - destruct Hv as [Hs Hbuf]. split; cbn; [|exact Hbuf].
    intros m1 Hm. rewrite length_insert. apply Hs, Hm.
  - apply processVideoChunkQueue_refs.
    destruct Hv as [Hs Hbuf]. split; cbn; [exact Hs|].
    intros b' Hb'. rewrite length_insert. apply Hbuf, Hb'.
Qed.

(** Whatever happens to the page, [mediaSource] and [sourceBuffer] are null
    or refer to an object that was created, and [sourceBuffer] is never set
    while [mediaSource] is null: the two are created in this order and
    dropped together. *)
Theorem video_refs_valid evs : refs_valid (run init evs).1.
Proof.
  assert (H : ∀ st, refs_valid st → refs_valid (run st evs).1).
  { induction evs as [|e evs IH]; intros st Hv; [exact Hv|].
    cbn [run]. pose proof (step_refs st e Hv) as H1.
    destruct (step st e) as [st1 out]. specialize (IH st1 H1).
    destruct (run st1 evs). exact IH. }
  apply H. split; cbn; discriminate.
Qed.

Lemma step_waits st e :
  sourceBuffer st = None → not_sourceopen e = true →
  (step st e).2 = [] ∧ sourceBuffer (step st e).1 = None.
Proof.
  intros Hb Hn. destruct e as [supported| |data accepted|m added|m|m|b accepted];
    try discriminate Hn; cbn [step].
  - unfold setupWebSocketVideoPlayback. destruct supported; split; reflexivity.
  - split; reflexivity.
  - unfold handleVideoChunk. destruct data as [|c data]; [split; [reflexivity|first [exact Hb | reflexivity | simpl; exact Hb]]|].
    destruct (Base64.atob (c :: data)); [|split; [reflexivity|first [exact Hb | reflexivity | simpl; exact Hb]]].
    unfold processVideoChunkQueue. cbn [sourceBuffer]. rewrite Hb.
    split; [reflexivity|first [exact Hb | reflexivity | simpl; exact Hb]].
  - split; [reflexivity|first [exact Hb | reflexivity | simpl; exact Hb]].
  - split; [reflexivity|first [exact Hb | reflexivity | simpl; exact Hb]].
  - unfold processVideoChunkQueue, with_buffers. cbn [sourceBuffer]. rewrite Hb.
    split; [reflexivity|first [exact Hb | reflexivity | simpl; exact Hb]].
Qed.

(** While there is no source buffer, and until a [sourceopen] event creates
    one, nothing is ever appended, whatever chunks arrive. *)
Theorem video_waits_for_source_buffer st evs :
  sourceBuffer st = None → forallb not_sourceopen evs = true →
  (run st evs).2 = [] ∧ sourceBuffer (run st evs).1 = None.
Proof.
  revert st. induction evs as [|e evs IH]; intros st Hb Hn.
  - split; [reflexivity|exact Hb].
  - cbn [forallb] in Hn. apply andb_prop in Hn as [He Hn].
    destruct (step_waits st e Hb He) as [Hout Hb1].
    cbn [run]. destruct (step st e) as [st1 out]. cbn [fst snd] in *. subst out.
    specialize (IH st1 Hb1 Hn). destruct (run st1 evs) as [st2 outs]. exact IH.
Qed.

End VideoMore.

(** Witness: two chunks arrive once the source buffer exists; at the end of
    the first append the call for the second one throws, so that chunk is
    dropped; a third chunk arrives and is taken. *)
Lemma video_chunks_accounted_witness :
  let st := (Video.run Video.init [Video.Setup true; Video.SourceOpen 0 true]).1 in
  let evs := [Video.VideoData (Js.lit "TWFu") true;
              Video.VideoData (Js.lit "TWE=") true;
              Video.UpdateEnd 0 false;
              Video.VideoData (Js.lit "TQ==") true] in
  VideoSpec.taken st evs = Video.received [Video.VideoData (Js.lit "TWFu") true;
                                           Video.VideoData (Js.lit "TQ==") true] ∧
  VideoSpec.dropped st evs = Video.received [Video.VideoData (Js.lit "TWE=") true] ∧
  Video.videoChunksQueue (Video.run st evs).1 = [] ∧
  VideoSpec.taken st evs ++ VideoSpec.dropped st evs
    ++ Video.videoChunksQueue (Video.run st evs).1
    ≡ₚ Video.videoChunksQueue st ++ Video.received evs.
Proof.
  intros st evs.
  split; [vm_compute; reflexivity|]. split; [vm_compute; reflexivity|].
  split; [vm_compute; reflexivity|].
  apply (video_chunks_accounted st evs). reflexivity.
Defined.

Lemma video_waits_for_source_buffer_witness :
  (Video.run Video.init
     [Video.Setup true; Video.VideoData (Js.lit "TWFu") true;
      Video.UpdateEnd 0 true]).2 = [].
Proof.
  apply (video_waits_for_source_buffer Video.init
           [Video.Setup true; Video.VideoData (Js.lit "TWFu") true;
            Video.UpdateEnd 0 true]); reflexivity.
Defined.

(* ===================================================================== *)
(** * Chat updates, text messages and the end of a session *)
(* ===================================================================== *)

Section SessionMoreFacts.
Import Js Session SessionSpec SessionMore.
Variables (parseFloat parseInt : jsstring → Num.number).
Variable divide : Num.number → Num.number → Num.number.
Variable isTypeSupported : bool.

Local Abbreviation step := (Session.step parseFloat parseInt divide isTypeSupported).
Local Abbreviation run := (Session.run parseFloat parseInt divide isTypeSupported).
Local Abbreviation handleServerMessage := (Session.handleServerMessage isTypeSupported).

Implicit Types (st : state) (e : event) (evs : list event) (effs : list effect)
  (f : form) (s : socket) (l : list message).

(** *** Streaming text *)

Lemma set_last_snoc (p : message → bool) t l m :
  p m = true → set_last p t (l ++ [m]) = Some (l ++ [Message (role m) t (item_id m)]).
Proof.
  intros Hp. induction l as [|a l IH]; simpl.
  - rewrite Hp. reflexivity.
  - rewrite IH. reflexivity.
Qed.

Lemma onAssistantDelta_streaming base acc d st :
  messages st = base ++ [Message (lit "assistant") acc None] →
  pendingAssistantText st = acc →
  messages (onAssistantDelta d st) = base ++ [Message (lit "assistant") (acc ++ d) None] ∧
  pendingAssistantText (onAssistantDelta d st) = acc ++ d ∧
  sockets (onAssistantDelta d st) = sockets st.
Proof.
  intros Hm Hp. unfold onAssistantDelta.
  cbn [messages pendingAssistantText set_pendingAssistantText].
  rewrite Hm, Hp, set_last_snoc by reflexivity.
  repeat split.
Qed.

Lemma run_text_deltas k s base deltas : ∀ acc st,
  sockets st !! k = Some s → ready s = OPEN →
  messages st = base ++ [Message (lit "assistant") acc None] →
  pendingAssistantText st = acc →
  ∃ st', run st (map (λ d, WsMessage k (text_delta d)) deltas) = Some (st', []) ∧
         messages st' = base ++ [Message (lit "assistant") (acc ++ concat deltas) None] ∧
         pendingAssistantText st' = acc ++ concat deltas.
Proof.
  induction deltas as [|d deltas IH]; intros acc st Hk Hr Hm Hp.
  - exists st. cbn [map concat Session.run]. rewrite app_nil_r. auto.
  - destruct (onAssistantDelta_streaming base acc d st Hm Hp) as (Hm1 & Hp1 & Hs1).
    destruct (IH (acc ++ d) (onAssistantDelta d st)) as (st' & Hrun & Hm' & Hp');
      [rewrite Hs1; exact Hk|exact Hr|exact Hm1|exact Hp1|].
    exists st'. cbn [map concat Session.run Session.step Session.handleServerMessage].
    rewrite Hk, Hr, Hrun. rewrite <- !app_assoc in *. auto.
Qed.

(** A streamed answer ends up in one chat message: after [response_created]
    and any number of [text_delta] messages on an open socket, the chat is
    the previous chat followed by one assistant message whose text is the
    concatenation of the deltas, which is also the pending text; nothing is
    sent and no other message is added or changed. *)
Theorem assistant_text_streams st k s deltas :
  sockets st !! k = Some s → ready s = OPEN →
  ∃ st', run st (text_response k deltas) = Some (st', []) ∧
         messages st' = messages st ++ [Message (lit "assistant") (concat deltas) None] ∧
         pendingAssistantText st' = concat deltas.
Proof.
  intros Hk Hr. unfold text_response.
  set (st1 := set_isSpeaking true
                (addMessage (lit "assistant") [] (set_pendingAssistantText [] st))).
  destruct (run_text_deltas k s (messages st) deltas [] st1) as (st' & Hrun & Hm & Hp);
    try reflexivity; try assumption.
  exists st'. cbn [Session.run Session.step Session.handleServerMessage].
  rewrite Hk, Hr. fold st1. rewrite Hrun. auto.
Qed.

(** *** The placeholder of a user turn *)

Lemma set_first_found (p : message → bool) t l1 m l2 :
  Forall (λ x, p x = false) l1 → p m = true →
  set_first p t (l1 ++ m :: l2) = Some (l1 ++ Message (role m) t (item_id m) :: l2).
Proof.
  intros H1 Hm. induction H1 as [|a l1 Ha _ IH]; simpl.
  - rewrite Hm. reflexivity.
  - rewrite Ha, IH. reflexivity.
Qed.

Lemma set_first_none (p : message → bool) t l :
  Forall (λ x, p x = false) l → set_first p t l = None.
Proof.
  induction 1 as [|a l Ha _ IH]; simpl; [reflexivity|]. rewrite Ha, IH. reflexivity.
Qed.

(** A user turn in the chat.  [speech_started] with an item id appends the
    placeholder ["..."] tagged with the id.  For an id of plain characters,
    the [transcript_done] of that item replaces the text of the first user
    message tagged with the id, wherever it is in the chat by then, and adds
    nothing; when no user message carries the id, or the id is empty, the
    transcript is appended as a new user message. *)
Theorem user_transcript_fills_placeholder st (itemId transcript : jsstring) :
  (itemId ≠ [] →
     messages (handleServerMessage (speech_started itemId) st).1
     = messages st ++ [Message (lit "user") (lit "...") (Some itemId)]) ∧
  (∀ l1 t0 l2, itemId ≠ [] → plain_item_id itemId = true →
     messages st = l1 ++ Message (lit "user") t0 (Some itemId) :: l2 →
     Forall (λ m, is_user_item itemId m = false) l1 →
     handleServerMessage (transcript_done (lit "user") itemId transcript) st
     = (set_messages (l1 ++ Message (lit "user") transcript (Some itemId) :: l2) st, [])) ∧
  (itemId = [] ∨
   (plain_item_id itemId = true ∧
    Forall (λ m, is_user_item itemId m = false) (messages st)) →
     handleServerMessage (transcript_done (lit "user") itemId transcript) st
     = (addMessage (lit "user") transcript st, [])).
Proof.
  split; [|split].
  - intros Hne. cbn [Session.handleServerMessage]. unfold onSpeechStarted.
    destruct itemId; [congruence|]. reflexivity.
  - intros l1 t0 l2 Hne _ Hm Hl1. cbn [Session.handleServerMessage].
    change (eqb_string (lit "user") (lit "user")) with true. cbv iota.
    destruct itemId as [|c r]; [congruence|]. cbn [is_empty].
    rewrite Hm.
    rewrite (set_first_found (is_user_item (c :: r)) transcript l1 _ l2 Hl1).
    + reflexivity.
    + unfold is_user_item. cbn [item_id]. rewrite bool_decide_eq_true_2 by reflexivity.
      reflexivity.
  - intros H. cbn [Session.handleServerMessage].
    change (eqb_string (lit "user") (lit "user")) with true. cbv iota.
    destruct H as [->|[_ H]]; [reflexivity|].
    destruct (is_empty itemId); cbv iota; [reflexivity|].
    pose proof (set_first_none (is_user_item itemId) transcript _ H) as Hn.
    unfold is_user_item in Hn. rewrite Hn. reflexivity.
Qed.

(** *** Text messages *)

(** [sendTextMessage] at its edges.  Blank input, a disconnected session or
    a null [ws] make it do nothing.  A [send_text] message carries the
    trimmed, non-empty input, goes to the open socket of a connected session
    and is shown in the chat as one new user message.  But while the socket
    of a connected session is not open, a non-blank text is shown in the chat
    and not sent. *)
Theorem text_message_edges input st :
  (trim input = [] ∨ isConnected st = false ∨ ws st = None →
     sendTextMessage input st = (st, [])) ∧
  (∀ k t, In (Send k (send_text t)) (sendTextMessage input st).2 →
     t = trim input ∧ t ≠ [] ∧ isConnected st = true ∧
     ws st = Some k ∧ ready_of st k = OPEN ∧
     messages (sendTextMessage input st).1 = messages st ++ [Message (lit "user") t None]) ∧
  (∀ k, trim input ≠ [] → isConnected st = true → ws st = Some k →
     ready_of st k ≠ OPEN →
     sendTextMessage input st = (addMessage (lit "user") (trim input) st, [])).
Proof.
  unfold sendTextMessage. split; [|split].
  - intros [H|[H|H]]; rewrite H; [reflexivity| |].
    + rewrite orb_true_r. reflexivity.
    + rewrite orb_true_r. reflexivity.
  - intros k t. destruct (trim input) as [|c r] eqn:Et; [intros []|].
    cbn [is_empty orb]. destruct (isConnected st); [|intros []].
    destruct (ws st) as [j|] eqn:Ew; [|intros []]. cbn [negb].
    unfold ws_send, ready_of. cbn [ws addMessage set_messages sockets]. rewrite Ew.
    destruct (sockets st !! j) as [s|] eqn:Es; [|intros []].
    destruct (ready s) eqn:Er; [intros []| |intros []|intros []].
    intros [[= <- <-]|[]]. unfold ready_of. rewrite Es.
    repeat split; try assumption. discriminate.
  - intros k Ht Hc Hw Hr. destruct (trim input) as [|c r]; [congruence|].
    cbn [is_empty orb]. rewrite Hc, Hw. cbn [negb].
    unfold ws_send, ready_of in *. cbn [ws addMessage set_messages sockets].
    rewrite Hw. destruct (sockets st !! k) as [s|]; [|reflexivity].
    destruct (ready s); try reflexivity. congruence.
Qed.

(** *** The end of a session *)

Lemma close_socket_not_open k st :
  ready_of (close_socket k st) k ≠ OPEN ∧ ready_of (close_socket k st) k ≠ CONNECTING.
Proof.
  unfold close_socket. destruct (ready_of st k) eqn:Er.
  - unfold set_ready, ready_of in *. destruct (sockets st !! k) as [s|] eqn:Es.
    + cbn [sockets set_sockets]. rewrite list_lookup_insert_eq; [cbn; split; discriminate|].
      apply lookup_lt_Some in Es. exact Es.
    + rewrite Es. split; discriminate.
  - unfold set_ready, ready_of in *. destruct (sockets st !! k) as [s|] eqn:Es.
    + cbn [sockets set_sockets]. rewrite list_lookup_insert_eq; [cbn; split; discriminate|].
      apply lookup_lt_Some in Es. exact Es.
    + rewrite Es. split; discriminate.
  - rewrite Er. split; discriminate.
  - rewrite Er. split; discriminate.
Qed.

Lemma handleDisconnect_result st :
  disconnected (handleDisconnect st).1 ∧
  (∀ c, In c cleanup_calls → In (Call c) (handleDisconnect st).2) ∧
  (∀ k, ws st = Some k →
     In (CloseSocket k) (handleDisconnect st).2 ∧
     ready_of (handleDisconnect st).1 k ≠ OPEN ∧
     ready_of (handleDisconnect st).1 k ≠ CONNECTING).
Proof.
  unfold handleDisconnect. cbn [ws set_avatarEnabled set_audioChunksSent
    set_isRecording set_isConnecting set_isConnected].
  destruct (ws st) as [k|] eqn:E; cbn [fst snd].
  - match goal with |- context [close_socket k ?s0] =>
      pose proof (close_socket_not_open k s0) as [Ho Hc];
      assert (Hf : isConnected (close_socket k s0) = false ∧
                   isConnecting (close_socket k s0) = false ∧
                   isRecording (close_socket k s0) = false ∧
                   audioChunksSent (close_socket k s0) = 0%nat ∧
                   avatarEnabled (close_socket k s0) = false)
        by (unfold close_socket, set_ready; destruct (ready_of s0 k);
            try destruct (sockets s0 !! k); repeat split)
    end.
    destruct Hf as (H1 & H2 & H3 & H4 & H5).
    split; [|split].
    + unfold disconnected. cbn. tauto.
    + intros c Hc'. apply in_or_app. left.
      unfold cleanup_calls in Hc'. cbn in Hc'.
      destruct Hc' as [<-|[<-|[<-|[<-|[]]]]]; cbn; tauto.
    + intros k' [= <-]. split; [apply in_or_app; right; left; reflexivity|].
      split; assumption.
  - split; [|split].
    + unfold disconnected. cbn. rewrite E. tauto.
    + intros c Hc'. unfold cleanup_calls in Hc'. cbn in Hc'.
      destruct Hc' as [<-|[<-|[<-|[<-|[]]]]]; cbn; tauto.
    + intros k' [=].
Qed.

Lemma ends_through_disconnect st st1 pre :
  ws st1 = ws st →
  disconnected (handleDisconnect st1).1 ∧
  (∀ c, In c cleanup_calls → In (Call c) (pre ++ (handleDisconnect st1).2)) ∧
  (∀ k, ws st = Some k →
     In (CloseSocket k) (pre ++ (handleDisconnect st1).2) ∧
     ready_of (handleDisconnect st1).1 k ≠ OPEN ∧
     ready_of (handleDisconnect st1).1 k ≠ CONNECTING).
Proof.
  intros Hw. destruct (handleDisconnect_result st1) as (Hd & Hc & Hk).
  split; [exact Hd|]. split.
  - intros c Hin. apply in_or_app. right. apply Hc, Hin.
  - intros k Hk'. rewrite <- Hw in Hk'. destruct (Hk k Hk') as (H1 & H2 & H3).
    split; [apply in_or_app; right; exact H1|]. split; assumption.
Qed.

(** However a session ends (the socket fails or closes, the backend sends
    [session_closed], or the user clicks Disconnect), the page ends up in the
    same disconnected state: all flags and the chunk counter are reset and
    [ws] is null; audio capture, audio playback, WebRTC and the video relay
    are released; and the socket [ws] held is told to close and is neither
    open nor connecting afterwards. *)
Theorem session_end_cleanup st e st' effs :
  ends_session st e → step st e = Some (st', effs) →
  disconnected st' ∧
  (∀ c, In c cleanup_calls → In (Call c) effs) ∧
  (∀ k, ws st = Some k →
     In (CloseSocket k) effs ∧ ready_of st' k ≠ OPEN ∧ ready_of st' k ≠ CONNECTING).
Proof.
  intros Hend.
  assert (Hfin : ∀ st1 pre st2 effs2, handleDisconnect st1 = (st2, effs2) → ws st1 = ws st →
            Some (st2, pre ++ effs2) = Some (st', effs) →
            disconnected st' ∧
            (∀ c, In c cleanup_calls → In (Call c) effs) ∧
            (∀ k, ws st = Some k →
               In (CloseSocket k) effs ∧ ready_of st' k ≠ OPEN
               ∧ ready_of st' k ≠ CONNECTING)).
  { intros st1 pre st2 effs2 E Hw [= <- <-].
    pose proof (ends_through_disconnect st st1 pre Hw) as H. rewrite E in H. exact H. }
  destruct e as [f| |input|now f|k f|k msg|k|k|data| |d| | ]; cbn [Session.step];
    try (destruct Hend; fail).
  - destruct Hend as [Hg Hc]. unfold toggleConnection, disconnect. rewrite Hg, Hc.
    destruct (handleDisconnect st) as [st2 effs2] eqn:E. cbv zeta.
    intros H. exact (Hfin st _ st2 effs2 E eq_refl H).
  - destruct (sockets st !! k) as [s|] eqn:Hk; [|discriminate].
    destruct (ready s) eqn:Hr; try discriminate.
    destruct msg; try (destruct Hend; fail). cbn [Session.handleServerMessage].
    match goal with |- context [handleDisconnect ?x] =>
      destruct (handleDisconnect x) as [st2 effs2] eqn:E;
      intros H; exact (Hfin x [] st2 effs2 E eq_refl H) end.
  - destruct (sockets st !! k) as [s|] eqn:Hk; [|discriminate].
    unfold ws_onerror, ws_onclose.
    match goal with |- context [handleDisconnect ?x] =>
      assert (Hw : ws x = ws st)
        by (destruct (isConnected _); cbn; apply set_ready_fields);
      destruct (handleDisconnect x) as [st2 effs2] eqn:E end.
    destruct (ready s); try discriminate;
      intros H; exact (Hfin _ [] st2 effs2 E Hw H).
  - destruct (sockets st !! k) as [s|] eqn:Hk; [|discriminate].
    unfold ws_onclose.
    match goal with |- context [handleDisconnect ?x] =>
      assert (Hw : ws x = ws st)
        by (destruct (isConnected _); cbn; apply set_ready_fields);
      destruct (handleDisconnect x) as [st2 effs2] eqn:E end.
    destruct (ready s); try discriminate;
      intros H; exact (Hfin _ [] st2 effs2 E Hw H).
Qed.

End SessionMoreFacts.

(* ===================================================================== *)
(** * Flags and the chunk counter over every history *)
(* ===================================================================== *)

Section SessionInvariants.
Import Js Session SessionSpec SessionMore.
Variables (parseFloat parseInt : jsstring → Num.number).
Variable divide : Num.number → Num.number → Num.number.
Variable isTypeSupported : bool.

Local Abbreviation step := (Session.step parseFloat parseInt divide isTypeSupported).
Local Abbreviation run := (Session.run parseFloat parseInt divide isTypeSupported).
Local Abbreviation handleServerMessage := (Session.handleServerMessage isTypeSupported).

Implicit Types (st : state) (e : event) (evs : list event) (effs : list effect)
  (f : form) (s : socket).

(** A step keeps the relations between the flags and accounts for the chunks. *)
Local Abbreviation tidy st st' effs :=
  ((flags_ok st → flags_ok st') ∧ counted st st' effs).

Lemma tidy_core st st' effs :
  core st' = core st → count_audio effs = 0%nat → tidy st st' effs.
Proof.
  unfold core. intros [= Hc Hg Hr Hn Hw Hs] Hz. split.
  - unfold flags_ok. rewrite Hc, Hg, Hr, Hn, Hw, Hs. tauto.
  - left. rewrite Hn, Hz. lia.
Qed.

Lemma counted_same st st' effs :
  audioChunksSent st' = audioChunksSent st → count_audio effs = 0%nat →
  counted st st' effs.
Proof. intros Hn Hz. left. rewrite Hn, Hz. lia. Qed.

Lemma tidy_disconnected st st' effs :
  disconnected st' → count_audio effs = 0%nat → tidy st st' effs.
Proof.
  intros (Hc & Hg & Hr & Hn & _ & Hw) Hz. split.
  - intros _. unfold flags_ok. rewrite Hc, Hr, Hn, Hw.
    repeat split; try discriminate; lia.
  - right. split; assumption.
Qed.

Lemma handleDisconnect_no_audio st : count_audio (handleDisconnect st).2 = 0%nat.
Proof.
  unfold handleDisconnect. cbn [ws set_avatarEnabled set_audioChunksSent
    set_isRecording set_isConnecting set_isConnected].
  destruct (ws st); reflexivity.
Qed.

Lemma handleDisconnect_tidy st st1 pre :
  count_audio pre = 0%nat →
  tidy st (handleDisconnect st1).1 (pre ++ (handleDisconnect st1).2).
Proof.
  intros Hpre. apply tidy_disconnected.
  - apply handleDisconnect_result.
  - unfold count_audio in *. rewrite count_effects_app, Hpre.
    apply handleDisconnect_no_audio.
Qed.

Lemma core_set_ready k r st : core (set_ready k r st) = core st.
Proof.
  unfold set_ready, core. destruct (sockets st !! k); [|reflexivity].
  cbn. rewrite length_insert. reflexivity.
Qed.

Lemma core_onAssistantDelta d st : core (onAssistantDelta d st) = core st.
Proof. unfold onAssistantDelta. cbn. destruct (set_last _ _ _); reflexivity. Qed.

Lemma ws_open_send st : ws_open st = true → ∃ k, ws_send st = Sent k.
Proof.
  unfold ws_open, ws_send. destruct (ws st) as [k|]; [|discriminate].
  destruct (ready_of st k); try discriminate. eauto.
Qed.

Lemma onSessionStarted_tidy sid av mode st :
  tidy st (onSessionStarted isTypeSupported sid av mode st).1
          (onSessionStarted isTypeSupported sid av mode st).2.
Proof.
  unfold onSessionStarted. cbn [fst snd].
  match goal with |- context [set_isRecording false ?x] =>
    assert (Hx : isConnected x = true ∧ isConnecting x = false ∧
                 audioChunksSent x = audioChunksSent st ∧ ws x = ws st ∧
                 sockets x = sockets st) end.
  { match goal with |- context [if ?c then addMessage _ _ _ else _] => destruct c end;
      cbn; destruct (set_first _ _ _); repeat split. }
  destruct Hx as (Hc & Hg & Hn & Hw & Hs). split.
  - intros (_ & _ & _ & H4). unfold flags_ok.
    cbn [isRecording isConnected isConnecting audioChunksSent ws sockets set_isRecording].
    rewrite Hc, Hg, Hw, Hs. repeat split; try discriminate. exact H4.
  - apply counted_same; [exact Hn|].
    match goal with |- context [if ?c then [Call _] else _] => destruct c end;
      reflexivity.
Qed.

Lemma handleServerMessage_tidy msg st :
  tidy st (handleServerMessage msg st).1 (handleServerMessage msg st).2.
Proof.
  destruct msg as [sid av mode|err| |serverSdp|data|r itemId transcript|r delta|delta|
                   |itemId| | | | | |delta| ]; cbn [Session.handleServerMessage].
  - apply onSessionStarted_tidy.
  - (* session_error *) split; [|apply counted_same; reflexivity].
    unfold flags_ok. cbn. tauto.
  - destruct (eqb_string _ _); apply tidy_core; reflexivity.
  - apply tidy_core; reflexivity.
  - apply tidy_core; reflexivity.
  - destruct (eqb_string r (lit "user")).
    + destruct (if is_empty itemId then None else _); apply tidy_core; reflexivity.
    + destruct (eqb_string r (lit "assistant")); [|apply tidy_core; reflexivity].
      destruct (is_empty transcript); [apply tidy_core; reflexivity|].
      destruct (set_last _ _ _); apply tidy_core; reflexivity.
  - destruct (eqb_string _ _); [|apply tidy_core; reflexivity].
    apply tidy_core; [apply core_onAssistantDelta|reflexivity].
  - apply tidy_core; [apply core_onAssistantDelta|reflexivity].
  - apply tidy_core; reflexivity.
  - unfold onSpeechStarted. cbn [fst snd].
    destruct (is_empty itemId); apply tidy_core; reflexivity.
  - apply tidy_core; reflexivity.
  - apply tidy_core; reflexivity.
  - apply tidy_core; reflexivity.
  - apply (handleDisconnect_tidy st _ []). reflexivity.
  - apply tidy_core; reflexivity.
  - apply tidy_core; reflexivity.
  - apply tidy_core; reflexivity.
Qed.

Lemma toggleConnection_tidy f st :
  tidy st (toggleConnection f st).1 (toggleConnection f st).2.
Proof.
  unfold toggleConnection.
  destruct (isConnecting st) eqn:Hg; [apply tidy_core; reflexivity|].
  destruct (isConnected st) eqn:Hc.
  - unfold disconnect.
    rewrite (surjective_pairing (handleDisconnect st)). cbn [fst snd].
    apply handleDisconnect_tidy.
    destruct (ws_open st); [|reflexivity]. destruct (ws_send st); reflexivity.
  - unfold connectSession.
    destruct (is_empty (trim (value f "endpoint"))); [apply tidy_core; reflexivity|].
    destruct (negb (is_agent_mode (value f "mode")) && is_empty (trim (value f "apiKey")));
      [apply tidy_core; reflexivity|].
    destruct (is_agent_mode (value f "mode") && is_empty (trim (value f "entraToken")));
      [apply tidy_core; reflexivity|].
    cbn [fst snd]. split; [|apply counted_same; reflexivity].
    intros (H1 & _ & H3 & _). unfold flags_ok. cbn. rewrite Hc.
    repeat split; try discriminate; try assumption.
    + rewrite Hc in H1. exact H1.
    + rewrite Hc in H3. exact H3.
    + intros k [= <-]. rewrite length_app. cbn [length]. lia.
Qed.

Lemma worklet_onmessage_tidy data st :
  tidy st (worklet_onmessage data st).1 (worklet_onmessage data st).2.
Proof.
  unfold worklet_onmessage.
  destruct (negb (isConnected st) || negb (isRecording st) || negb (ws_open st)) eqn:G.
  { apply tidy_core; reflexivity. }
  apply orb_false_elim in G as [G Ho]. apply orb_false_elim in G as [Hc Hr].
  apply negb_false_iff in Hc, Hr, Ho.
  destruct (Util.arrayBufferToBase64 data) as [base64|]; [|apply tidy_core; reflexivity].
  match goal with |- context [ws_send ?x] =>
    rewrite (ws_send_ext st x) by reflexivity end.
  destruct (ws_open_send st Ho) as [k ->]. cbn [fst snd]. split.
  - unfold flags_ok. cbn. rewrite Hc. tauto.
  - left. cbn. lia.
Qed.

Lemma step_tidy st e st' effs : step st e = Some (st', effs) → tidy st st' effs.
Proof.
  assert (Hfin : ∀ (p : state * list effect),
            tidy st p.1 p.2 → Some p = Some (st', effs) → tidy st st' effs).
  { intros p Hs [= ->]. exact Hs. }
  destruct e as [f| |input|now f|k f|k msg|k|k|data| |d| | ]; cbn [Session.step].
  - apply Hfin, toggleConnection_tidy.
  - apply Hfin. unfold toggleMicrophone. cbn [fst snd].
    destruct (isConnected st) eqn:Hc; cbn [negb]; [|apply tidy_core; reflexivity].
    split; [|apply counted_same; reflexivity]. unfold flags_ok. cbn. rewrite Hc. tauto.
  - apply Hfin. unfold sendTextMessage.
    destruct (is_empty (trim input) || negb (isConnected st)
              || match ws st with Some _ => false | None => true end);
      [apply tidy_core; reflexivity|].
    destruct (ws_send _); apply tidy_core; reflexivity.
  - apply Hfin. unfold throttledUpdateAvatarScene, updateAvatarScene.
    destruct (now - lastSceneUpdate st <? SCENE_THROTTLE_MS)%Z;
      [apply tidy_core; reflexivity|].
    repeat match goal with
           | |- context [if ?c then (_, []) else _] => destruct c
           end; try (apply tidy_core; reflexivity).
    destruct (ws_send _); apply tidy_core; reflexivity.
  - destruct (sockets st !! k) as [s|] eqn:Hk; [|discriminate].
    destruct (ready s) eqn:Hr; try discriminate.
    apply Hfin. unfold Session.ws_onopen.
    destruct (sockets (set_ready k OPEN st) !! k); [|apply tidy_core;
      [apply core_set_ready|reflexivity]].
    destruct (ws_send _); apply tidy_core; first [apply core_set_ready|reflexivity].
  - destruct (sockets st !! k) as [s|] eqn:Hk; [|discriminate].
    destruct (ready s) eqn:Hr; try discriminate.
    apply Hfin, handleServerMessage_tidy.
  - destruct (sockets st !! k) as [s|] eqn:Hk; [|discriminate].
    unfold ws_onerror, ws_onclose.
    match goal with |- context [handleDisconnect ?x] =>
      pose proof (handleDisconnect_tidy st x [] eq_refl) as Ht;
      destruct (handleDisconnect x) as [st2 effs2] end.
    destruct (ready s); try discriminate; intros [= <- <-]; exact Ht.
  - destruct (sockets st !! k) as [s|] eqn:Hk; [|discriminate].
    unfold ws_onclose.
    match goal with |- context [handleDisconnect ?x] =>
      pose proof (handleDisconnect_tidy st x [] eq_refl) as Ht;
      destruct (handleDisconnect x) as [st2 effs2] end.
    destruct (ready s); try discriminate; intros [= <- <-]; exact Ht.
  - apply Hfin, worklet_onmessage_tidy.
  - apply Hfin, tidy_core; reflexivity.
  - apply Hfin. unfold offer_then, offer_catch.
    destruct (Json.encode_sdp d); [|apply tidy_core; reflexivity].
    destruct (ws_send st); apply tidy_core; reflexivity.
  - apply Hfin, tidy_core; reflexivity.
  - apply Hfin, tidy_core; reflexivity.
Qed.

Lemma run_tidy evs : ∀ st st' effs,
  run st evs = Some (st', effs) →
  (flags_ok st → flags_ok st') ∧
  (audioChunksSent st' ≤ audioChunksSent st + count_audio effs)%nat.
Proof.
  induction evs as [|e evs IH]; intros st st' effs Hrun.
  - injection Hrun as <- <-. split; [tauto|lia].
  - cbn [Session.run] in Hrun.
    destruct (step st e) as [[st1 out]|] eqn:Hstep; [|discriminate].
    destruct (run st1 evs) as [[st2 outs]|] eqn:Hrest; [|discriminate].
    injection Hrun as <- <-.
    destruct (step_tidy _ _ _ _ Hstep) as [Hf Hc].
    destruct (IH _ _ _ Hrest) as [Hf' Hc']. split; [tauto|].
    unfold counted, count_audio in *. rewrite count_effects_app.
    destruct Hc as [Hc|[Hc _]]; lia.
Qed.

(** In every state the page can reach: the microphone is on only while the
    session is connected; the session is never connected and connecting at
    once; the chunk counter is positive only while connected; and [ws] is
    null or one of the sockets the page created. *)
Theorem session_flags_invariant evs st' effs :
  run init evs = Some (st', effs) → flags_ok st'.
Proof.
  intros Hrun. apply (run_tidy _ _ _ _ Hrun).
  unfold flags_ok. cbn. repeat split; try discriminate. lia.
Qed.

(** [audioChunksSent] counts what was sent: every step adds to it exactly
    the number of [audio_chunk] messages the step hands to the socket, or
    resets it to zero and sends none; so over any history the counter never
    exceeds the number of audio chunks sent. *)
Theorem audio_chunks_counted evs st st' effs :
  run st evs = Some (st', effs) →
  (audioChunksSent st' ≤ audioChunksSent st + count_audio effs)%nat ∧
  (∀ e st2 effs2, step st' e = Some (st2, effs2) → counted st' st2 effs2).
Proof.
  intros Hrun. split; [apply (run_tidy _ _ _ _ Hrun)|].
  intros e st2 effs2 Hstep. apply (step_tidy _ _ _ _ Hstep).
Qed.

End SessionInvariants.

(** Witnesses of the theorems above, on the sample session. *)

Lemma assistant_text_streams_witness :
  ∃ st', Session.run Demo.parse Demo.parse Demo.divide true Demo.connected
           (SessionMore.text_response 0 [Js.lit "Hel"; Js.lit "lo"]) = Some (st', []) ∧
         Session.messages st'
         = Session.messages Demo.connected
             ++ [Session.Message (Js.lit "assistant")
                   (concat [Js.lit "Hel"; Js.lit "lo"]) None] ∧
         Session.pendingAssistantText st' = concat [Js.lit "Hel"; Js.lit "lo"].
Proof.
  eapply (assistant_text_streams Demo.parse Demo.parse Demo.divide true
            Demo.connected 0%nat); reflexivity.
Defined.

Lemma user_transcript_fills_placeholder_witness :
  let st := (Session.handleServerMessage true
               (Session.speech_started (Js.lit "item1")) Demo.connected).1 in
  Session.handleServerMessage true
    (Session.transcript_done (Js.lit "user") (Js.lit "item1") (Js.lit "hi")) st
  = (Session.set_messages
       ([] ++ [Session.Message (Js.lit "user") (Js.lit "hi") (Some (Js.lit "item1"))])
       st, []).
Proof.
  intros st.
  apply (proj1 (proj2 (user_transcript_fills_placeholder true st
                         (Js.lit "item1") (Js.lit "hi"))) [] (Js.lit "...") []).
  - discriminate.
  - reflexivity.
  - reflexivity.
  - constructor.
Defined.

Lemma text_message_edges_witness :
  let st := Session.set_ready 0 Session.CLOSING Demo.connected in
  Session.sendTextMessage (Js.lit " hi ") st
  = (Session.addMessage (Js.lit "user") (Session.trim (Js.lit " hi ")) st, []).
Proof.
  intros st.
  apply (proj2 (proj2 (text_message_edges (Js.lit " hi ") st)) 0%nat).
  - vm_compute. discriminate.
  - reflexivity.
  - reflexivity.
  - vm_compute. discriminate.
Defined.

Lemma session_end_cleanup_witness :
  ∃ st' effs,
    Session.step Demo.parse Demo.parse Demo.divide true Demo.connected
      (Session.ClickConnect Demo.model_form) = Some (st', effs) ∧
    SessionMore.disconnected st' ∧ In (Session.CloseSocket 0) effs.
Proof.
  eexists. eexists.
  assert (Hstep : Session.step Demo.parse Demo.parse Demo.divide true Demo.connected
            (Session.ClickConnect Demo.model_form) = Some _) by (vm_compute; reflexivity).
  split; [exact Hstep|].
  assert (Hend : SessionMore.ends_session Demo.connected
                   (Session.ClickConnect Demo.model_form)) by (split; reflexivity).
  destruct (session_end_cleanup Demo.parse Demo.parse Demo.divide true
              Demo.connected _ _ _ Hend Hstep) as (Hd & _ & Hk).
  split; [exact Hd|]. apply (Hk 0%nat). reflexivity.
Defined.

Lemma session_flags_invariant_witness :
  ∃ st' effs,
    Session.run Demo.parse Demo.parse Demo.divide true Session.init
      [Session.ClickConnect Demo.model_form; Session.WsOpen 0 Demo.model_form;
       Session.WsMessage 0 (Session.session_started [] false []); Session.ClickMic]
      = Some (st', effs) ∧
    SessionMore.flags_ok st'.
Proof.
  eexists. eexists.
  assert (Hrun : Session.run Demo.parse Demo.parse Demo.divide true Session.init
      [Session.ClickConnect Demo.model_form; Session.WsOpen 0 Demo.model_form;
       Session.WsMessage 0 (Session.session_started [] false []); Session.ClickMic]
      = Some _) by (vm_compute; reflexivity).
  split; [exact Hrun|].
  exact (session_flags_invariant Demo.parse Demo.parse Demo.divide true _ _ _ Hrun).
Defined.

Lemma audio_chunks_counted_witness :
  ∃ st' effs,
    Session.run Demo.parse Demo.parse Demo.divide true Demo.connected
      [Session.ClickMic; Session.WorkletMessage [Byte.x00; Byte.x01]]
      = Some (st', effs) ∧
    (Session.audioChunksSent st'
     ≤ Session.audioChunksSent Demo.connected + SessionMore.count_audio effs)%nat.
Proof.
  eexists. eexists.
  assert (Hrun : Session.run Demo.parse Demo.parse Demo.divide true Demo.connected
      [Session.ClickMic; Session.WorkletMessage [Byte.x00; Byte.x01]]
      = Some _) by (vm_compute; reflexivity).
  split; [exact Hrun|].
  exact (proj1 (audio_chunks_counted Demo.parse Demo.parse Demo.divide true _ _ _ _ Hrun)).
Defined.

(* ===================================================================== *)
(** * What the page shows: fields, controls, layout, sound wave, avatar name *)
(* ===================================================================== *)

Section UiFacts.
Import Js Session Ui.

Implicit Types (f : form) (st : state).

(** The display of each element after [updateConditionalFields]. *)
Ltac eval_fields :=
  unfold count_displayed, updateConditionalFields, show;
  cbn -[eqb_string includes is_empty array_includes lit].

Lemma credential_fields f :
  displayed "subscriptionKeyField" (updateConditionalFields f)
    = negb (is_agent_mode (value f "mode")) ∧
  displayed "entraTokenField" (updateConditionalFields f)
    = is_agent_mode (value f "mode").
Proof. split; reflexivity. Qed.

(** The credential the page asks for is the one it shows.  A click on
    Connect passes the validation of [connectSession] and creates a socket
    exactly when the endpoint is filled in and so is every credential field
    that [updateConditionalFields] shows for the selected mode; a hidden
    credential field is never required. *)
Theorem visible_credentials_suffice f st :
  (∃ k, (connectSession f st).2 = [NewWebSocket k]) ↔
  trim (value f "endpoint") ≠ [] ∧
  ∀ field, In field ["subscriptionKeyField"; "entraTokenField"]%string →
    displayed field (updateConditionalFields f) = true →
    trim (value f (credential_input field)) ≠ [].
Proof.
  destruct (credential_fields f) as [Hk Ht].
  unfold connectSession.
  destruct (trim (value f "endpoint")) as [|c r] eqn:Ee; cbn [is_empty].
  { split; [intros [k H]; discriminate H|intros [H _]; congruence]. }
  destruct (is_agent_mode (value f "mode")) eqn:Ha; cbn [negb andb].
  - destruct (trim (value f "entraToken")) as [|c' r'] eqn:Et; cbn [is_empty fst snd].
    + split; [intros [k H]; discriminate H|]. intros [_ H].
      exfalso. apply (H "entraTokenField"%string); [right; left; reflexivity|exact Ht|].
      exact Et.
    + split; [|intros _; eexists; reflexivity]. intros _. split; [discriminate|].
      intros field [<-|[<-|[]]] Hd.
      * rewrite Hk in Hd. discriminate Hd.
      * change (credential_input "entraTokenField") with "entraToken"%string.
        rewrite Et. discriminate.
  - destruct (trim (value f "apiKey")) as [|c' r'] eqn:Et; cbn [is_empty fst snd].
    + split; [intros [k H]; discriminate H|]. intros [_ H].
      exfalso. apply (H "subscriptionKeyField"%string); [left; reflexivity|exact Hk|].
      exact Et.
    + split; [|intros _; eexists; reflexivity]. intros _. split; [discriminate|].
      intros field [<-|[<-|[]]] Hd.
      * change (credential_input "subscriptionKeyField") with "apiKey"%string.
        rewrite Et. discriminate.
      * rewrite Ht in Hd. discriminate Hd.
Qed.

Lemma lit_agent_ne : lit "agent" ≠ lit "agent-v2".
Proof. discriminate. Qed.

Lemma lit_voice_ne :
  lit "standard" ≠ lit "custom" ∧ lit "standard" ≠ lit "personal"
  ∧ lit "custom" ≠ lit "personal".
Proof. repeat split; discriminate. Qed.

(** The settings panel never shows alternatives together: after
    [updateConditionalFields], exactly one of the agent and model blocks is
    shown, exactly one credential field, exactly one of the three avatar name
    fields, at most one of the agent id and agent name fields (one of them is
    shown exactly when the agent block is) and at most one of the three voice
    blocks; and the fields that only apply to a model (speech recognition,
    recognition language, end-of-utterance detection, instructions,
    temperature) are shown only together with the model block, the
    recognition language only together with the recognition model. *)
Theorem field_groups_exclusive f :
  let shows := updateConditionalFields f in
  count_displayed ["agentFields"; "modelField"]%string shows = 1%nat ∧
  count_displayed ["subscriptionKeyField"; "entraTokenField"]%string shows = 1%nat ∧
  count_displayed ["standardAvatarField"; "photoAvatarField"; "customAvatarField"]%string shows
    = 1%nat ∧
  (count_displayed ["agentIdField"; "agentNameField"]%string shows ≤ 1)%nat ∧
  (displayed "agentIdField" shows || displayed "agentNameField" shows
     = displayed "agentFields" shows) ∧
  (count_displayed ["standardVoiceField"; "customVoiceFields"; "personalVoiceFields"]%string
     shows ≤ 1)%nat ∧
  (∀ id, In id ["srModelField"; "recognitionLanguageField"; "eouDetectionField";
                "instructionsField"; "temperatureField"]%string →
     displayed id shows = true → displayed "modelField" shows = true) ∧
  (displayed "recognitionLanguageField" shows = true →
     displayed "srModelField" shows = true).
Proof.
  pose proof lit_agent_ne as Hne. destruct lit_voice_ne as (Hv1 & Hv2 & Hv3).
  cbv zeta.
  split. { eval_fields. destruct (eqb_string _ _ || eqb_string _ _); reflexivity. }
  split. { eval_fields. destruct (eqb_string _ _ || eqb_string _ _); reflexivity. }
  split.
  { eval_fields. destruct (checked f "isPhotoAvatar"), (checked f "isCustomAvatar");
      reflexivity. }
  split.
  { eval_fields. unfold eqb_string. repeat case_bool_decide; cbn; try lia. congruence. }
  split. { eval_fields. reflexivity. }
  split.
  { eval_fields. unfold eqb_string. repeat case_bool_decide; cbn; try lia; congruence. }
  split.
  { intros id Hin.
    destruct Hin as [<-|[<-|[<-|[<-|[<-|[]]]]]]; eval_fields;
      destruct (eqb_string _ _ || eqb_string _ _); cbn [negb andb]; congruence. }
  eval_fields. destruct (eqb_string _ _ || eqb_string _ _); cbn [negb andb];
    [discriminate|]. destruct (array_includes _ _); cbn [andb]; congruence.
Qed.

(** *** Layout *)

(** What is on the screen, element by element, whatever branch
    [updateDeveloperModeLayout] takes: exactly one of the text input area
    (developer mode) and the footer (normal mode); the avatar video exactly
    while connected with an avatar, the volume animation exactly while
    connected without one, so never both; the chat always, except in normal
    mode while the avatar is shown, so the chat or the avatar is always
    there; and the side-by-side class exactly for developer mode with avatar. *)
Theorem layout_consistent (dev connected avatar : bool) :
  let l := updateDeveloperModeLayout dev connected avatar in
  inputArea l = dev ∧ footerArea l = negb dev ∧
  avatarVideoContainer l = connected && avatar ∧
  volumeAnimation l = connected && negb avatar ∧
  avatarVideoContainer l && volumeAnimation l = false ∧
  chatArea l = dev || negb (connected && avatar) ∧
  chatArea l || avatarVideoContainer l = true ∧
  developerLayout l = dev && connected && avatar.
Proof. destruct dev, connected, avatar; repeat split. Qed.

(** *** Sound wave animation *)

Lemma add_bars_ok w : bars_ok w → bars_ok (add_bars w).
Proof. destruct w as [[[|n] s]|]; cbn; tauto. Qed.

Lemma set_shown_ok v w : bars_ok w → bars_ok (set_shown v w).
Proof. destruct w as [[n s]|]; cbn; tauto. Qed.

Lemma updateSoundWaveAnimation_bars c a r d (st : wave_state) :
  (bars_ok (leftWave st) → bars_ok (leftWave (updateSoundWaveAnimation c a r d st))) ∧
  (bars_ok (rightWave st) → bars_ok (rightWave (updateSoundWaveAnimation c a r d st))).
Proof.
  unfold updateSoundWaveAnimation.
  destruct (c && a && r && negb d); destruct (soundWaveIntervalId st);
    cbn [leftWave rightWave]; split; auto using add_bars_ok, set_shown_ok.
Qed.

Lemma updateSoundWaveAnimation_inv c a r d (st : wave_state) :
  running st = match soundWaveIntervalId st with Some id => [id] | None => [] end →
  let st' := updateSoundWaveAnimation c a r d st in
  running st' = match soundWaveIntervalId st' with Some id => [id] | None => [] end ∧
  (is_Some (soundWaveIntervalId st') ↔ c && a && r && negb d = true).
Proof.
  intros Hrun. unfold updateSoundWaveAnimation.
  destruct (c && a && r && negb d); destruct (soundWaveIntervalId st) as [id|] eqn:Ei;
    cbn [running soundWaveIntervalId].
  - repeat split; auto; try (intros _; eauto; fail).
  - rewrite Hrun. repeat split; auto; try (intros _; eauto; fail).
  - rewrite Hrun. cbn [List.filter]. rewrite Nat.eqb_refl. cbn [negb].
    repeat split; try discriminate; try (intros [x Hx]; discriminate Hx).
  - repeat split; auto; try discriminate; try (intros [x Hx]; discriminate Hx).
Qed.

Lemma wave_run_inv calls : ∀ (st : wave_state),
  running st = match soundWaveIntervalId st with Some id => [id] | None => [] end →
  running (wave_run st calls)
    = match soundWaveIntervalId (wave_run st calls) with
      | Some id => [id] | None => [] end.
Proof.
  induction calls as [|[[[c a] r] d] calls IH]; intros st H1; [auto|].
  unfold wave_run in *. cbn [fold_left].
  destruct (updateSoundWaveAnimation_inv c a r d st H1) as [? _].
  apply IH; assumption.
Qed.

Lemma wave_run_bars calls : ∀ (st : wave_state),
  (bars_ok (leftWave st) → bars_ok (leftWave (wave_run st calls))) ∧
  (bars_ok (rightWave st) → bars_ok (rightWave (wave_run st calls))).
Proof.
  induction calls as [|[[[c a] r] d] calls IH]; intros st; [auto|].
  unfold wave_run in *. cbn [fold_left].
  destruct (updateSoundWaveAnimation_bars c a r d st) as [Hl Hr].
  destruct (IH (updateSoundWaveAnimation c a r d st)) as [Hl' Hr']. auto.
Qed.

(** The animation never leaks a timer: from the page as loaded, after any
    sequence of calls of [updateSoundWaveAnimation], with whatever flags, at
    most one interval timer is running and it is the one
    [soundWaveIntervalId] holds; after a call the timer runs exactly if the
    session was connected with an avatar, the microphone on and developer
    mode off at that call; and a wave that was empty or had its ten bars is
    empty or has exactly ten bars: bars are never added twice. *)
Theorem sound_wave_single_timer (left right : option wave) calls c a r d :
  let st := wave_run (wave_init left right) (calls ++ [(c, a, r, d)]) in
  (length (running st) ≤ 1)%nat ∧
  running st = match soundWaveIntervalId st with Some id => [id] | None => [] end ∧
  (running st ≠ [] ↔ c && a && r && negb d = true) ∧
  (bars_ok left → bars_ok (leftWave st)) ∧
  (bars_ok right → bars_ok (rightWave st)).
Proof.
  cbv zeta.
  pose proof (wave_run_bars (calls ++ [(c, a, r, d)]) (wave_init left right)) as Hb.
  pose proof (wave_run_inv calls (wave_init left right) eq_refl) as H1.
  unfold wave_run in *. rewrite fold_left_app in *. cbn [fold_left] in *.
  set (st0 := fold_left _ calls _) in *.
  destruct (updateSoundWaveAnimation_inv c a r d st0 H1) as (Hr & Hiff).
  cbv zeta in *. set (st1 := updateSoundWaveAnimation c a r d st0) in *.
  clearbody st1. rewrite Hr.
  split; [destruct (soundWaveIntervalId st1); cbn; lia|].
  split; [reflexivity|]. split; [|exact Hb].
  rewrite <- Hiff. destruct (soundWaveIntervalId st1) as [id|].
  - split; [eauto|discriminate].
  - split; [congruence|intros [x Hx]; discriminate Hx].
Qed.

End UiFacts.

(* ===================================================================== *)
(** * Controls against their handlers; the avatar name of a scene update *)
(* ===================================================================== *)

Section ControlFacts.
Import Js Session SessionMore Ui.
Variables (parseFloat parseInt : jsstring → Num.number).
Variable divide : Num.number → Num.number → Num.number.
Variable isTypeSupported : bool.

Local Abbreviation run := (Session.run parseFloat parseInt divide isTypeSupported).

Lemma toggled_differs st : set_isRecording (negb (isRecording st)) st ≠ st.
Proof.
  intros H. apply (f_equal isRecording) in H. cbn in H.
  destruct (isRecording st); discriminate H.
Qed.

(** The controls tell what their handlers will do, in every state the page
    can reach.  The connect button is disabled exactly while connecting,
    which is exactly while its label is [Connecting...], and a click then
    does nothing; it is labelled [Disconnect] exactly while connected, it is
    then enabled and a click disconnects; it is labelled [Connect] exactly
    when neither connected nor connecting, it is then enabled and a click
    runs [connectSession]; it has no other label, and its class follows the
    label.  The microphone button is disabled exactly when not connected,
    which is exactly when [toggleMicrophone] would do nothing, and enabled
    exactly when a click toggles the microphone.  The send button, the
    record button and the text input are disabled with the microphone
    button; a disabled send button means [sendTextMessage] does nothing, an
    enabled one that a text is added to the chat when there is one and a
    socket.  The settings are locked exactly while connected, which is while
    the chat input is open and the title says so. *)
Theorem controls_match_handlers evs st effs f input :
  run init evs = Some (st, effs) →
  let ui := updateConnectionUI st in
  (btnDisabled ui = true ↔ btnText ui = "Connecting..."%string) ∧
  (btnDisabled ui = true ↔ isConnecting st = true) ∧
  (btnDisabled ui = true →
     btnClass ui = Some "connecting"%string ∧ toggleConnection f st = (st, [])) ∧
  (btnText ui = "Disconnect"%string ↔ isConnected st = true) ∧
  (btnText ui = "Disconnect"%string →
     btnDisabled ui = false ∧ btnClass ui = Some "connected"%string ∧
     toggleConnection f st = disconnect st) ∧
  (btnText ui = "Connect"%string ↔ isConnected st = false ∧ isConnecting st = false) ∧
  (btnText ui = "Connect"%string →
     btnDisabled ui = false ∧ btnClass ui = None ∧
     toggleConnection f st = connectSession f st) ∧
  (btnText ui = "Connecting..."%string ∨ btnText ui = "Disconnect"%string
   ∨ btnText ui = "Connect"%string) ∧
  (micBtnDisabled ui = true ↔ isConnected st = false) ∧
  (micBtnDisabled ui = true ↔ toggleMicrophone st = st) ∧
  (micBtnDisabled ui = false ↔
     toggleMicrophone st = set_isRecording (negb (isRecording st)) st) ∧
  sendBtnDisabled ui = micBtnDisabled ui ∧
  recordBtnDisabled ui = micBtnDisabled ui ∧
  chatDisabled ui = micBtnDisabled ui ∧
  (sendBtnDisabled ui = true → sendTextMessage input st = (st, [])) ∧
  (sendBtnDisabled ui = false → is_empty (trim input) = false → ws st ≠ None →
     (sendTextMessage input st).1 = addMessage (lit "user") (trim input) st) ∧
  settingsDisabled ui = negb (chatDisabled ui) ∧
  (settingsDisabled ui = true ↔ isConnected st = true) ∧
  (settingsDisabled ui = true ↔
     sceneTitle ui = "Scene Settings (Live Adjustable)"%string).
Proof.
  intros Hrun.
  assert (Hok : flags_ok st).
  { apply (run_tidy parseFloat parseInt divide isTypeSupported _ _ _ _ Hrun).
    unfold flags_ok. cbn. repeat split; try discriminate. lia. }
  destruct Hok as (_ & Hcg & _ & _).
  pose proof (toggled_differs st) as Hdiff.
  assert (Hsend : isConnected st = true → is_empty (trim input) = false →
                  ws st ≠ None →
                  (sendTextMessage input st).1 = addMessage (lit "user") (trim input) st).
  { intros Hc He Hw. unfold sendTextMessage. cbv zeta. rewrite He, Hc.
    destruct (ws st) as [k|] eqn:Ew; [|congruence]. cbn [orb negb].
    destruct (ws_send _); reflexivity. }
  unfold updateConnectionUI, toggleConnection, toggleMicrophone.
  destruct (isConnected st) eqn:Hc; [rewrite (Hcg eq_refl) in *|];
    [|destruct (isConnecting st) eqn:Hg];
    cbn [btnDisabled btnText btnClass micBtnDisabled sendBtnDisabled
         recordBtnDisabled settingsDisabled chatDisabled sceneTitle negb];
    repeat match goal with |- _ ∧ _ => split end;
    try reflexivity;
    try (split; intros; try discriminate; try reflexivity; try tauto;
         try congruence; fail);
    try (intros; try discriminate; repeat split; reflexivity);
    try (intros; apply Hsend; auto; fail);
    try (intros _; unfold sendTextMessage; cbv zeta; rewrite Hc;
         cbn [negb]; rewrite orb_true_r; reflexivity);
    try (split; [intros [? ?]; discriminate|discriminate]);
    try (split; [discriminate|intros [? ?]; discriminate]);
    try (split; [discriminate|intros H; symmetry in H; contradiction]);
    try (split; [discriminate|intros H; contradiction]);
    auto.
Qed.

End ControlFacts.

Section SceneFacts.
Import Js Session Scene.
Variable toLowerCase : jsstring → jsstring.

Lemma split_cons sep s : ∃ p ps, split sep s = p :: ps.
Proof.
  induction s as [|c r IH]; cbn [split]; [eauto|].
  destruct (c =? sep); [eauto|]. destruct IH as (p & ps & ->). eauto.
Qed.

Lemma join_split sep s : join sep (split sep s) = s.
Proof.
  induction s as [|c r IH]; [reflexivity|]. cbn [split].
  destruct (N.eqb_spec c sep) as [->|Hne].
  - destruct (split_cons sep r) as (p & ps & E). rewrite E in *.
    change (join sep ([] :: p :: ps)) with ([] ++ sep :: join sep (p :: ps)).
    rewrite IH. reflexivity.
  - destruct (split_cons sep r) as (p & ps & E). rewrite E in *.
    destruct ps as [|q qs].
    + cbn [join] in *. rewrite IH. reflexivity.
    + change (join sep ((c :: p) :: q :: qs))
        with (c :: (p ++ sep :: join sep (q :: qs))).
      change (join sep (p :: q :: qs)) with (p ++ sep :: join sep (q :: qs)) in IH.
      rewrite IH. reflexivity.
Qed.

Lemma hd_split_no_sep sep s : ¬ In sep (hd [] (split sep s)).
Proof.
  induction s as [|c r IH]; cbn [split]; [intros []|].
  destruct (N.eqb_spec c sep) as [->|Hne]; [intros []|].
  destruct (split_cons sep r) as (p & ps & E). rewrite E in *. cbn [hd] in *.
  intros [H|H]; [congruence|exact (IH H)].
Qed.

(** How [updateAvatarScene] reads the avatar name, custom or not.  The
    character is the lower-cased text of the name before its first hyphen,
    or the whole name when it has none; [customized] is set exactly for a
    custom avatar.  A name without a hyphen gives no style.  A name with a
    hyphen gives as style everything after the first hyphen, so that
    character text, hyphen and style spell the name again, unless the avatar
    is custom or nothing follows the hyphen: then there is no style. *)
Theorem avatar_name_decomposes f :
  let a := avatar_identity toLowerCase f in
  ∃ first,
    ¬ In hyphen first ∧
    character a = toLowerCase first ∧
    customized a = checked f "isCustomAvatar" ∧
    ((avatarName f = first ∧ style a = None) ∨
     ∃ s, avatarName f = first ++ hyphen :: s ∧
          style a = if checked f "isCustomAvatar" then None
                    else if is_empty s then None else Some s).
Proof.
  cbv zeta. unfold avatar_identity.
  pose proof (join_split hyphen (avatarName f)) as Hj.
  pose proof (hd_split_no_sep hyphen (avatarName f)) as Hh.
  destruct (split_cons hyphen (avatarName f)) as (p & ps & E). rewrite E in *.
  cbn [hd tl] in *. exists p. split; [exact Hh|].
  destruct ps as [|q qs].
  - cbn [join] in *. cbn [is_empty].
    destruct (checked f "isCustomAvatar"); cbn [character customized style];
      (split; [reflexivity|split; [reflexivity|left; split; [symmetry; exact Hj|reflexivity]]]).
  - change (join hyphen (p :: q :: qs))
      with (p ++ hyphen :: join hyphen (q :: qs)) in Hj.
    set (s := join hyphen (q :: qs)) in *.
    destruct (checked f "isCustomAvatar"); [|destruct (is_empty s) eqn:Es];
      cbn [character customized style];
      (split; [reflexivity|split; [reflexivity|right; exists s;
         split; [symmetry; exact Hj|]]]); try reflexivity.
    all: rewrite Es; reflexivity.
Qed.

End SceneFacts.

Lemma visible_credentials_suffice_witness :
  ∃ k, (Session.connectSession Demo.agent_form Session.init).2 = [Session.NewWebSocket k].
Proof.
  apply (proj2 (visible_credentials_suffice Demo.agent_form Session.init)).
  split; [vm_compute; discriminate|].
  intros field [<-|[<-|[]]] Hd; vm_compute in Hd |- *; discriminate.
Defined.

Lemma controls_match_handlers_witness :
  ∃ st effs,
    Session.run Demo.parse Demo.parse Demo.divide true Session.init
      [Session.ClickConnect Demo.model_form] = Some (st, effs) ∧
    Ui.btnDisabled (Ui.updateConnectionUI st) = true ∧
    Ui.btnText (Ui.updateConnectionUI st) = "Connecting..."%string ∧
    Session.toggleConnection Demo.agent_form st = (st, []) ∧
    Session.toggleMicrophone st = st.
Proof.
  eexists. eexists.
  assert (Hrun : Session.run Demo.parse Demo.parse Demo.divide true Session.init
      [Session.ClickConnect Demo.model_form] = Some _) by (vm_compute; reflexivity).
  split; [exact Hrun|].
  destruct (controls_match_handlers Demo.parse Demo.parse Demo.divide true
              _ _ _ Demo.agent_form [] Hrun)
    as (Htext & _ & Hclick & _ & _ & _ & _ & _ & _ & Hmic & _).
  split; [reflexivity|]. split; [apply Htext; reflexivity|].
  split; [apply Hclick; reflexivity|]. apply Hmic. reflexivity.
Defined.

(* ===================================================================== *)
(** * WebRTC: one peer connection, and the answer it is given *)
(* ===================================================================== *)

Section WebRtcFacts.
Import Js Json WebRtc.
Implicit Types (st : state) (evs : list event).






End WebRtcFacts.

